(** * KeyTagger core: media store, scanner and thumbnail cache

    A shallow embedding of [core/Database.cpp], [core/MediaRecord.cpp],
    [core/Scanner.cpp] and [core/ThumbnailCache.cpp].

    - The SQLite store is three tables held as lists of rows in insertion
      (rowid) order, together with the two connection settings the
      statements depend on ([foreign_keys], [max_variables]).  Every SQL
      statement of the source is written out as the list operation it
      denotes.
    - [QString] is a byte string; [trimmed] and [toLower] act on ASCII.
      The null string is kept apart from the empty one where the source
      binds a string to a statement as it is (three members of
      [MediaRecord]); elsewhere a string is only tested with [isEmpty].
    - Qt signals ([databaseChanged], [tagsChanged]) carry no data and are
      not recorded.
    - A statement fails where its input can make it fail: a NULL for a
      [NOT NULL] column in [upsertMedia], a foreign-key violation in the
      inserts into [media_tags], and more host parameters than the
      connection allows in [markMissingFilesDeleted], which binds one
      value per file of the scanned directory.  Statements with a fixed
      number of parameters prepare, the lists of tag names bound by
      [queryMedia] and [removeMediaTags] are taken to be shorter than the
      limit, and I/O errors of the store file are outside the model. *)

From Stdlib Require Import ZArith Ascii String.
From stdpp Require Import gmap strings list sorting pretty.

Local Open Scope string_scope.
Local Open Scope list_scope.
Local Open Scope Z_scope.

(** ** QString helpers *)

Module QString.

Definition isEmpty (s : string) : bool :=
  match s with EmptyString => true | String _ _ => false end.

Definition lower_char (c : ascii) : ascii :=
  let n := N_of_ascii c in
  if ((65 <=? n) && (n <=? 90))%N then ascii_of_N (n + 32) else c.

Fixpoint toLower (s : string) : string :=
  match s with
  | EmptyString => EmptyString
  | String c s' => String (lower_char c) (toLower s')
  end.

Fixpoint trim_front (s : string) : string :=
  match s with
  | EmptyString => EmptyString
  | String c s' => if Ascii.is_space c then trim_front s' else s
  end.

Definition trimmed (s : string) : string :=
  String.rev (trim_front (String.rev (trim_front s))).

(** [QVariant()] (SQL NULL) for an empty string, the string otherwise:
    [s.isEmpty() ? QVariant() : s]. *)
Definition nullIfEmpty (s : string) : option string :=
  if isEmpty s then None else Some s.

(** [QVariant::toString()] of a column value: NULL reads as the empty
    string. *)
Definition ofVariant (v : option string) : string := default "" v.

(** A [QString] that is bound to a statement as it is.  The null
    string [QString()] binds as SQL NULL and is kept apart as [None];
    [Some s] is a string holding the characters [s], possibly none.
    Both the null and the empty string are [isEmpty()]. *)
Definition chars (s : option string) : string := default "" s.

End QString.

(** [tag.trimmed().toLower()], the tag normalisation used by every tag
    operation. *)
Definition normalize (tag : string) : string :=
  QString.toLower (QString.trimmed tag).

(** ** MediaRecord.h / MediaRecord.cpp *)

Inductive MediaType := Image | Video | Audio | Unknown.

Global Instance MediaType_eq_dec : EqDecision MediaType.
Proof. solve_decision. Defined.

Definition IMAGE_EXTENSIONS : list string :=
  [".jpg"; ".jpeg"; ".png"; ".webp"; ".bmp"; ".tif"; ".tiff"; ".gif"].
Definition VIDEO_EXTENSIONS : list string :=
  [".mp4"; ".mov"; ".avi"; ".mkv"; ".webm"; ".m4v"; ".wmv"; ".3gp"].
Definition AUDIO_EXTENSIONS : list string :=
  [".m4a"; ".mp3"; ".wav"; ".flac"; ".ogg"; ".aac"].

Definition contains (set : list string) (s : string) : bool :=
  bool_decide (s ∈ set).

Definition typeFromExtension (ext : string) : MediaType :=
  let lower := QString.toLower ext in
  if contains IMAGE_EXTENSIONS lower then Image
  else if contains VIDEO_EXTENSIONS lower then Video
  else if contains AUDIO_EXTENSIONS lower then Audio
  else Unknown.

Definition mediaTypeToString (t : MediaType) : string :=
  match t with
  | Image => "image"
  | Video => "video"
  | Audio => "audio"
  | Unknown => "unknown"
  end.

Definition stringToMediaType (str : string) : MediaType :=
  let lower := QString.toLower str in
  if String.eqb lower "image" then Image
  else if String.eqb lower "video" then Video
  else if String.eqb lower "audio" then Audio
  else Unknown.

(** The C++ struct, with its default member initialisers. *)
Record MediaRecord := mkMediaRecord {
  rec_id : Z;
  filePath : option string;
  rootDir : option string;
  fileName : option string;
  sha256 : string;
  pHash : string;
  width : option Z;
  height : option Z;
  sizeBytes : option Z;
  capturedTimeUtc : option Z;
  modifiedTimeUtc : option Z;
  mediaType : MediaType;
  thumbnailPath : string;
  status : string;
  error : string
}.

Definition defaultMediaRecord : MediaRecord :=
  {| rec_id := 0; filePath := None; rootDir := None; fileName := None;
     sha256 := ""; pHash := ""; width := None; height := None;
     sizeBytes := None; capturedTimeUtc := None; modifiedTimeUtc := None;
     mediaType := Unknown; thumbnailPath := ""; status := "active";
     error := "" |}.

(** The inline member functions of the struct. *)
Definition isValid (r : MediaRecord) : bool :=
  bool_decide (0 < rec_id r)
  && negb (QString.isEmpty (QString.chars (filePath r))).
Definition isImage (r : MediaRecord) : bool :=
  bool_decide (mediaType r = Image).
Definition isVideo (r : MediaRecord) : bool :=
  bool_decide (mediaType r = Video).
Definition isAudio (r : MediaRecord) : bool :=
  bool_decide (mediaType r = Audio).

(** ** The store: schema of [Database::initializeSchema] *)

(** A row of table [media]. Nullable columns are options. *)
Record MediaRow := mkMediaRow {
  id : Z;
  file_path : string;
  root_dir : string;
  file_name : string;
  col_sha256 : option string;
  p_hash : option string;
  col_width : option Z;
  col_height : option Z;
  size_bytes : option Z;
  captured_time_utc : option Z;
  modified_time_utc : option Z;
  media_type : string;
  thumbnail_path : option string;
  col_status : string;
  col_error : option string
}.

Record TagRow := mkTagRow { tag_id : Z; tag_name : string }.

Record MediaTagRow := mkMediaTagRow { mt_media_id : Z; mt_tag_id : Z }.

Global Instance MediaRow_eq_dec : EqDecision MediaRow.
Proof. solve_decision. Defined.
Global Instance TagRow_eq_dec : EqDecision TagRow.
Proof. solve_decision. Defined.
Global Instance MediaTagRow_eq_dec : EqDecision MediaTagRow.
Proof. solve_decision. Defined.

(** The bound SQLite puts on the number of host parameters of one
    statement when the engine is built with its defaults (3.32.0 and
    later); every connection starts with it, and
    [sqlite3_limit(SQLITE_LIMIT_VARIABLE_NUMBER)] holds it per
    connection. *)
Definition SQLITE_MAX_VARIABLE_NUMBER : Z := 32766.

(** One open connection to the store file: the connection settings
    [foreign_keys] and [max_variables] (the limit on host parameters)
    and the three tables. *)
Record Db := mkDb {
  foreign_keys : bool;
  max_variables : Z;
  media : list MediaRow;
  tags : list TagRow;
  media_tags : list MediaTagRow
}.

Global Instance Db_eq_dec : EqDecision Db.
Proof. solve_decision. Defined.

(** The rowid SQLite gives to a row inserted without an explicit
    [INTEGER PRIMARY KEY]: one more than the largest in the table, 1 for
    an empty table. *)
Definition next_rowid (ids : list Z) : Z := 1 + foldr Z.max 0 ids.

Module Database.

(** *** Connection *)

Inductive Pragma :=
| journal_mode_WAL
| synchronous_NORMAL
| foreign_keys_to (on : bool).

Definition exec_pragma (p : Pragma) (db : Db) : Db :=
  match p with
  | foreign_keys_to on =>
      {| foreign_keys := on; max_variables := max_variables db;
         media := media db; tags := tags db; media_tags := media_tags db |}
  | _ => db
  end.

(** [QSqlDatabase::addDatabase("QSQLITE", ...)] followed by [open()] on
    a new store file.  SQLite opens every connection with foreign-key
    enforcement off; it is switched on per connection by
    [PRAGMA foreign_keys=ON]. *)
Definition getConnection_fresh : Db :=
  {| foreign_keys := false; max_variables := SQLITE_MAX_VARIABLE_NUMBER;
     media := []; tags := []; media_tags := [] |}.

(** The two PRAGMAs of [initializeSchema]; the [CREATE TABLE IF NOT
    EXISTS] and [CREATE INDEX IF NOT EXISTS] statements that follow fix
    the shape of [Db] and leave existing rows alone. *)
Definition initializeSchema (db : Db) : Db :=
  exec_pragma synchronous_NORMAL (exec_pragma journal_mode_WAL db).

(** The constructor [Database::Database] on a new store file. *)
Definition open_new : Db := initializeSchema getConnection_fresh.

(** *** Media rows *)

(** The row written by the [INSERT] of [upsertMedia] for a new path:
    [path], [root] and [name] are the values bound to the three
    [NOT NULL] text columns. *)
Definition row_of_record (new_id : Z) (path root name : string)
    (record : MediaRecord) : MediaRow :=
  {| id := new_id;
     file_path := path;
     root_dir := root;
     file_name := name;
     col_sha256 := QString.nullIfEmpty (sha256 record);
     p_hash := QString.nullIfEmpty (pHash record);
     col_width := width record;
     col_height := height record;
     size_bytes := sizeBytes record;
     captured_time_utc := capturedTimeUtc record;
     modified_time_utc := modifiedTimeUtc record;
     media_type := mediaTypeToString (mediaType record);
     thumbnail_path := QString.nullIfEmpty (thumbnailPath record);
     col_status := "active";
     col_error := QString.nullIfEmpty (error record) |}.

(** [ON CONFLICT(file_path) DO UPDATE SET ...]: [id], [file_path],
    [root_dir] and [file_name] of the existing row are kept. *)
Definition update_on_conflict (record : MediaRecord) (r : MediaRow) : MediaRow :=
  {| id := id r;
     file_path := file_path r;
     root_dir := root_dir r;
     file_name := file_name r;
     col_sha256 := QString.nullIfEmpty (sha256 record);
     p_hash := QString.nullIfEmpty (pHash record);
     col_width := width record;
     col_height := height record;
     size_bytes := sizeBytes record;
     captured_time_utc := capturedTimeUtc record;
     modified_time_utc := modifiedTimeUtc record;
     media_type := mediaTypeToString (mediaType record);
     thumbnail_path := QString.nullIfEmpty (thumbnailPath record);
     col_status := "active";
     col_error := QString.nullIfEmpty (error record) |}.

Definition with_media (db : Db) (m : list MediaRow) : Db :=
  {| foreign_keys := foreign_keys db; max_variables := max_variables db;
     media := m; tags := tags db; media_tags := media_tags db |}.

Definition with_tags (db : Db) (t : list TagRow) : Db :=
  {| foreign_keys := foreign_keys db; max_variables := max_variables db;
     media := media db; tags := t; media_tags := media_tags db |}.

Definition with_media_tags (db : Db) (mt : list MediaTagRow) : Db :=
  {| foreign_keys := foreign_keys db; max_variables := max_variables db;
     media := media db; tags := tags db; media_tags := mt |}.

Definition has_path (path : string) (rows : list MediaRow) : bool :=
  bool_decide (path ∈ file_path <$> rows).

(** [SELECT id FROM media WHERE file_path = ?], first row. *)
Definition select_media_id (path : string) (db : Db) : option Z :=
  id <$> head (filter (λ r, file_path r = path) (media db)).

(** What the [INSERT ... ON CONFLICT(file_path) DO UPDATE] statement
    writes when [path], [root] and [name] are bound to the three
    [NOT NULL] text columns. *)
Definition insert_or_update_row (path root name : string)
    (record : MediaRecord) (db : Db) : Db :=
  if has_path path (media db)
  then with_media db
         ((λ r, if bool_decide (file_path r = path)
                then update_on_conflict record r else r) <$> media db)
  else with_media db
         (media db
          ++ [row_of_record (next_rowid (id <$> media db))
                path root name record]).

(** The statement as [upsertMedia] executes it.
    [record.filePath], [record.rootDir] and [record.fileName] are bound
    as they are, and a null string among them is a NULL for a
    [NOT NULL] column: SQLite checks these constraints before it looks
    for a conflict on [file_path], so the statement fails ([None]) and
    writes nothing, also when the path is one the table holds. *)
Definition insert_or_update_media (record : MediaRecord) (db : Db)
  : option Db :=
  match filePath record, rootDir record, fileName record with
  | Some path, Some root, Some name =>
      Some (insert_or_update_row path root name record db)
  | _, _, _ => None
  end.

(** [if (!query.exec()) return 0;] and then the [SELECT] of the id. *)
Definition upsertMedia (record : MediaRecord) (db : Db) : Db * Z :=
  match insert_or_update_media record db with
  | None => (db, 0)
  | Some db' =>
      match filePath record ≫= λ path, select_media_id path db' with
      | Some i => (db', i)
      | None => (db', 0)
      end
  end.

(** [DELETE FROM media WHERE file_path = ?].  The [ON DELETE CASCADE] of
    [media_tags.media_id] acts only on a connection with foreign keys
    enabled. *)
Definition deleteMedia (path : string) (db : Db) : Db * bool :=
  let victims := filter (λ r, file_path r = path) (media db) in
  let kept := filter (λ r, file_path r ≠ path) (media db) in
  let mt :=
    if foreign_keys db
    then filter (λ a, mt_media_id a ∉ id <$> victims) (media_tags db)
    else media_tags db in
  ({| foreign_keys := foreign_keys db; max_variables := max_variables db;
      media := kept; tags := tags db; media_tags := mt |},
   bool_decide (0 < Z.of_nat (length victims))).

(** [UPDATE media SET thumbnail_path = ? WHERE file_path = ?]. *)
Definition updateThumbnailPath (path thumb : string) (db : Db) : Db * bool :=
  (with_media db
     ((λ r, if bool_decide (file_path r = path)
            then {| id := id r; file_path := file_path r;
                    root_dir := root_dir r; file_name := file_name r;
                    col_sha256 := col_sha256 r; p_hash := p_hash r;
                    col_width := col_width r; col_height := col_height r;
                    size_bytes := size_bytes r;
                    captured_time_utc := captured_time_utc r;
                    modified_time_utc := modified_time_utc r;
                    media_type := media_type r;
                    thumbnail_path := QString.nullIfEmpty thumb;
                    col_status := col_status r;
                    col_error := col_error r |}
            else r) <$> media db),
   true).

(** *** Tag operations *)

(** [SELECT id FROM tags WHERE name = ?], first row. *)
Definition select_tag_id (name : string) (db : Db) : option Z :=
  tag_id <$> head (filter (λ t, tag_name t = name) (tags db)).

(** [INSERT INTO tags(name) VALUES (?) ON CONFLICT(name) DO NOTHING]. *)
Definition insert_tag_do_nothing (name : string) (db : Db) : Db :=
  if bool_decide (name ∈ tag_name <$> tags db) then db
  else with_tags db
         (tags db ++ [{| tag_id := next_rowid (tag_id <$> tags db);
                         tag_name := name |}]).

Fixpoint upsertTags (tagNames : list string) (db : Db) : Db * list Z :=
  match tagNames with
  | [] => (db, [])
  | name :: rest =>
      let normalized := normalize name in
      if QString.isEmpty normalized then upsertTags rest db
      else
        let db1 := insert_tag_do_nothing normalized db in
        let '(db2, ids) := upsertTags rest db1 in
        (db2, option_list (select_tag_id normalized db1) ++ ids)
  end.

(** [INSERT OR IGNORE INTO media_tags(media_id, tag_id) VALUES (?, ?)].
    A primary-key conflict is ignored.  With foreign keys enabled an
    insert that references a missing media or tag row fails ([OR IGNORE]
    does not cover foreign-key violations) and [query.exec()] returns
    false unobserved. *)
Definition insert_media_tag_ignore (mediaId tagId : Z) (db : Db) : Db :=
  let row := {| mt_media_id := mediaId; mt_tag_id := tagId |} in
  if bool_decide (row ∈ media_tags db) then db
  else if foreign_keys db
          && negb (bool_decide (mediaId ∈ id <$> media db)
                   && bool_decide (tagId ∈ tag_id <$> tags db))
  then db
  else with_media_tags db (media_tags db ++ [row]).

Definition insert_media_tags (mediaId : Z) (tagIds : list Z) (db : Db) : Db :=
  foldl (λ d tagId, insert_media_tag_ignore mediaId tagId d) db tagIds.

Definition setMediaTags (mediaId : Z) (tagNames : list string) (db : Db) : Db :=
  let '(db1, tagIds) := upsertTags tagNames db in
  let db2 :=
    with_media_tags db1
      (filter (λ a, mt_media_id a ≠ mediaId) (media_tags db1)) in
  insert_media_tags mediaId tagIds db2.

Definition addMediaTags (mediaId : Z) (tagNames : list string) (db : Db) : Db :=
  let '(db1, tagIds) := upsertTags tagNames db in
  insert_media_tags mediaId tagIds db1.

(** The names the tag-removal loop keeps: normalised and non-empty. *)
Definition normalized_nonempty (tagNames : list string) : list string :=
  filter (λ n, QString.isEmpty n = false) (normalize <$> tagNames).

(** [SELECT id FROM tags WHERE name IN (?,...,?)]. *)
Definition select_tag_ids_in (names : list string) (db : Db) : list Z :=
  tag_id <$> filter (λ t, tag_name t ∈ names) (tags db).

(** [DELETE FROM media_tags WHERE media_id = ? AND tag_id = ?]. *)
Definition delete_media_tag (mediaId tagId : Z) (db : Db) : Db :=
  with_media_tags db
    (filter (λ a, ¬ (mt_media_id a = mediaId ∧ mt_tag_id a = tagId))
       (media_tags db)).

Definition removeMediaTags (mediaId : Z) (tagNames : list string) (db : Db) : Db :=
  match tagNames with
  | [] => db
  | _ =>
      let normalized := normalized_nonempty tagNames in
      match normalized with
      | [] => db
      | _ =>
          let tagIds := select_tag_ids_in normalized db in
          foldl (λ d tagId, delete_media_tag mediaId tagId d) db tagIds
      end
  end.

Definition removeTagGlobally (tagName : string) (db : Db) : Db * Z :=
  let normalized := normalize tagName in
  if QString.isEmpty normalized then (db, 0)
  else
    match select_tag_id normalized db with
    | None => (db, 0)
    | Some tagId =>
        let hit := filter (λ a, mt_tag_id a = tagId) (media_tags db) in
        let db1 :=
          with_media_tags db
            (filter (λ a, mt_tag_id a ≠ tagId) (media_tags db)) in
        let affected := Z.of_nat (length hit) in
        (* DELETE FROM tags WHERE id = ? AND NOT EXISTS (...) *)
        let db2 :=
          if bool_decide (tagId ∈ mt_tag_id <$> media_tags db1) then db1
          else with_tags db1 (filter (λ t, tag_id t ≠ tagId) (tags db1)) in
        (db2, affected)
    end.

(** [SELECT t.name FROM tags t JOIN media_tags mt ON mt.tag_id = t.id
    WHERE mt.media_id = ? ORDER BY t.name ASC]. *)
Definition getMediaTags (mediaId : Z) (db : Db) : list string :=
  merge_sort String.le
    (tags db ≫= λ t,
       (λ _, tag_name t)
         <$> filter (λ a, mt_tag_id a = tag_id t ∧ mt_media_id a = mediaId)
               (media_tags db)).

(** [SELECT name FROM tags ORDER BY name ASC]. *)
Definition allTags (db : Db) : list string :=
  merge_sort String.le (tag_name <$> tags db).

(** *** Queries *)

(** SQLite's [text LIKE pattern]: [%] matches any run of characters,
    [_] any one character, letters match without regard to ASCII case. *)
Fixpoint sql_like (pattern : string) : string → bool :=
  match pattern with
  | EmptyString => λ text, QString.isEmpty text
  | String c rest =>
      if Ascii.eqb c "%" then
        fix skip (text : string) : bool :=
          sql_like rest text
          || match text with
             | EmptyString => false
             | String _ text' => skip text'
             end
      else if Ascii.eqb c "_" then
        λ text, match text with
                | EmptyString => false
                | String _ text' => sql_like rest text'
                end
      else
        λ text, match text with
                | EmptyString => false
                | String d text' =>
                    Ascii.eqb (QString.lower_char c) (QString.lower_char d)
                    && sql_like rest text'
                end
  end.

(** The struct filled from a result row ([query.value(...)]). *)
Definition record_of_row (r : MediaRow) : MediaRecord :=
  {| rec_id := id r;
     filePath := Some (file_path r);
     rootDir := Some (root_dir r);
     fileName := Some (file_name r);
     sha256 := QString.ofVariant (col_sha256 r);
     pHash := QString.ofVariant (p_hash r);
     width := col_width r;
     height := col_height r;
     sizeBytes := size_bytes r;
     capturedTimeUtc := captured_time_utc r;
     modifiedTimeUtc := modified_time_utc r;
     mediaType := stringToMediaType (media_type r);
     thumbnailPath := QString.ofVariant (thumbnail_path r);
     status := col_status r;
     error := QString.ofVariant (col_error r) |}.

(** [SELECT * FROM media WHERE id = ?]: the first row, or
    [std::nullopt]. *)
Definition getMedia (mediaId : Z) (db : Db) : option MediaRecord :=
  record_of_row <$> head (filter (λ r, id r = mediaId) (media db)).

(** [SELECT * FROM media WHERE file_path = ?]: the first row, or
    [std::nullopt]. *)
Definition getMediaByPath (path : string) (db : Db) : option MediaRecord :=
  record_of_row <$> head (filter (λ r, file_path r = path) (media db)).

Record QueryResult := mkQueryResult {
  records : list MediaRecord;
  totalCount : Z
}.

(** [... WHERE tag_id IN (SELECT id FROM tags WHERE name IN (names))]
    over [media_tags]. *)
Definition matching_associations (names : list string) (db : Db)
  : list MediaTagRow :=
  filter (λ a, mt_tag_id a ∈ select_tag_ids_in names db) (media_tags db).

(** [COUNT(DISTINCT tag_id)] of the group of [mediaId]. *)
Definition count_distinct_tag_id (mediaId : Z) (rows : list MediaTagRow) : Z :=
  Z.of_nat
    (length (remove_dups
               (mt_tag_id <$> filter (λ a, mt_media_id a = mediaId) rows))).

(** [SELECT media_id FROM media_tags WHERE tag_id IN (...)
    GROUP BY media_id HAVING COUNT(DISTINCT tag_id) = n]. *)
Definition select_media_ids_match_all (names : list string) (n : Z) (db : Db)
  : list Z :=
  let rows := matching_associations names db in
  filter (λ m, count_distinct_tag_id m rows = n)
    (remove_dups (mt_media_id <$> rows)).

(** [SELECT DISTINCT media_id FROM media_tags WHERE tag_id IN (...)]. *)
Definition select_media_ids_match_any (names : list string) (db : Db)
  : list Z :=
  remove_dups (mt_media_id <$> matching_associations names db).

(** [LIMIT ? OFFSET ?]: a negative limit means no limit, a negative
    offset counts as 0. *)
Definition limit_offset {A} (limit offset : Z) (l : list A) : list A :=
  let l' := drop (Z.to_nat offset) l in
  if bool_decide (limit < 0) then l' else take (Z.to_nat limit) l'.

(** The default [orderBy], "modified_time_utc DESC, id DESC": does row
    [a] come no later than row [b]?  NULL sorts below every number. *)
Definition modified_desc_id_desc (a b : MediaRow) : bool :=
  match modified_time_utc a, modified_time_utc b with
  | Some x, Some y =>
      bool_decide (y < x) || (bool_decide (x = y) && bool_decide (id b ≤ id a))
  | Some _, None => true
  | None, Some _ => false
  | None, None => bool_decide (id b ≤ id a)
  end.

(** An [ORDER BY] clause as the relation "comes no later than". *)
Definition order_by {A} (cmp : A → A → bool) : relation A :=
  λ a b, cmp a b = true.

Global Instance order_by_dec {A} (cmp : A → A → bool) :
  RelDecision (order_by cmp).
Proof. intros a b. unfold order_by. apply _. Defined.

Definition by_name_asc (a b : string * Z) : bool :=
  bool_decide (String.le a.1 b.1).

Record SnapshotEntry := mkSnapshotEntry {
  e_size_bytes : option Z;
  e_modified_time_utc : option Z;
  e_thumbnail_path : option string;
  e_sha256 : option string;
  e_media_type : string
}.

Definition entry_of_row (r : MediaRow) : SnapshotEntry :=
  {| e_size_bytes := size_bytes r;
     e_modified_time_utc := modified_time_utc r;
     e_thumbnail_path := thumbnail_path r;
     e_sha256 := col_sha256 r;
     e_media_type := media_type r |}.

Definition set_status (st : string) (r : MediaRow) : MediaRow :=
  {| id := id r; file_path := file_path r; root_dir := root_dir r;
     file_name := file_name r; col_sha256 := col_sha256 r;
     p_hash := p_hash r; col_width := col_width r;
     col_height := col_height r; size_bytes := size_bytes r;
     captured_time_utc := captured_time_utc r;
     modified_time_utc := modified_time_utc r;
     media_type := media_type r; thumbnail_path := thumbnail_path r;
     col_status := st; col_error := col_error r |}.

(** SQL [a LEFT JOIN b ON on]: every left row at least once, paired with
    NULL when no right row matches. *)
Definition left_join {A B} (on : A → B → bool) (l : list A) (r : list B)
  : list (A * option B) :=
  l ≫= λ a, match filter (λ b, on a b = true) r with
            | [] => [(a, None)]
            | bs => (λ b, (a, Some b)) <$> bs
            end.

Section with_paths.

(** [QDir(dir).absolutePath()], a function of the process's working
    directory. *)
Context (absolutePath : string → string).

(** The [WHERE] clause assembled by [queryMedia]. *)
Definition query_where (requiredTags : list string) (searchText : string)
    (rootDir : string) (tagsMatchAll : bool) (db : Db) (r : MediaRow) : bool :=
  String.eqb (col_status r) "active"
  && (if QString.isEmpty searchText then true
      else sql_like ("%" +:+ searchText +:+ "%") (file_name r))
  && (match requiredTags with
      | [] => true
      | _ =>
          let normalizedTags := normalize <$> requiredTags in
          if tagsMatchAll
          then bool_decide
                 (id r ∈ select_media_ids_match_all normalizedTags
                           (Z.of_nat (length normalizedTags)) db)
          else bool_decide
                 (id r ∈ select_media_ids_match_any normalizedTags db)
      end)
  && (if QString.isEmpty rootDir then true
      else String.eqb (root_dir r) (absolutePath rootDir)).

Definition queryMedia (requiredTags : list string) (searchText : string)
    (limit offset : Z) (orderBy : MediaRow → MediaRow → bool)
    (rootDir : string) (tagsMatchAll : bool) (db : Db) : QueryResult :=
  let selected :=
    filter (λ r, query_where requiredTags searchText rootDir tagsMatchAll
                   db r = true) (media db) in
  {| records :=
       record_of_row
         <$> limit_offset limit offset (merge_sort (order_by orderBy) selected);
     totalCount := Z.of_nat (length selected) |}.

(** [SELECT ... FROM media WHERE root_dir = ? AND status = 'active'],
    stored row after row with [result[file_path] = entry]. *)
Definition existingMediaMapForRoot (rootDir : string) (db : Db)
  : gmap string SnapshotEntry :=
  foldl (λ result r, <[file_path r := entry_of_row r]> result) ∅
    (filter (λ r, root_dir r = absolutePath rootDir
                  ∧ col_status r = "active") (media db)).

(** Does the [UPDATE] of [markMissingFilesDeleted] select row [r]? *)
Definition missing_row (existingPaths : list string) (rootDir : string)
    (r : MediaRow) : bool :=
  match existingPaths with
  | [] =>
      String.eqb (root_dir r) (absolutePath rootDir)
      && String.eqb (col_status r) "active"
  | _ =>
      String.eqb (root_dir r) (absolutePath rootDir)
      && String.eqb (col_status r) "active"
      && negb (bool_decide (file_path r ∈ existingPaths))
  end.

(** Does the [UPDATE] of [markMissingFilesDeleted] prepare?  It binds
    the root directory and, for a non-empty list, one value per path;
    a statement with more host parameters than the connection allows
    is refused ("too many SQL variables"). *)
Definition update_prepares (existingPaths : list string) (db : Db) : bool :=
  match existingPaths with
  | [] => true
  | _ => bool_decide (1 + Z.of_nat (length existingPaths) ≤ max_variables db)
  end.

(** [if (query.exec()) { ... return affected; } return 0;] *)
Definition markMissingFilesDeleted (existingPaths : list string)
    (rootDir : string) (db : Db) : Db * Z :=
  if update_prepares existingPaths db then
    (with_media db
       ((λ r, if missing_row existingPaths rootDir r
              then set_status "deleted" r else r) <$> media db),
     Z.of_nat
       (length (filter (λ r, missing_row existingPaths rootDir r = true)
                  (media db))))
  else (db, 0).

End with_paths.

(** The joined rows of [tagCounts]:
    [tags t LEFT JOIN media_tags mt ON mt.tag_id = t.id
     LEFT JOIN media m ON m.id = mt.media_id AND m.status = 'active']. *)
Definition tagCounts_join (db : Db)
  : list ((TagRow * option MediaTagRow) * option MediaRow) :=
  left_join
    (λ (tm : TagRow * option MediaTagRow) (m : MediaRow),
       match tm.2 with
       | Some mt => bool_decide (id m = mt_media_id mt)
                    && String.eqb (col_status m) "active"
       | None => false
       end)
    (left_join (λ t mt, bool_decide (mt_tag_id mt = tag_id t))
       (tags db) (media_tags db))
    (media db).

(** The result row of the group [t.id = g]: the name from a row of the
    group, and [COUNT(mt.media_id)], the number of rows of the group with
    a non-NULL [mt.media_id]. *)
Definition tagCounts_group
    (rows : list ((TagRow * option MediaTagRow) * option MediaRow)) (g : Z)
  : option (string * Z) :=
  let grp := filter (λ row, tag_id row.1.1 = g) rows in
  match grp with
  | [] => None
  | row :: _ =>
      Some (tag_name row.1.1,
            Z.of_nat (length (filter (λ row, is_Some row.1.2) grp)))
  end.

(** [SELECT t.name, COUNT(mt.media_id) ... GROUP BY t.id ORDER BY t.name]:
    one result row per distinct [t.id]. *)
Definition tagCounts (db : Db) : list (string * Z) :=
  let rows := tagCounts_join db in
  let groups := remove_dups ((λ row, tag_id row.1.1) <$> rows) in
  merge_sort (order_by by_name_asc) (omap (tagCounts_group rows) groups).

(** [SELECT COUNT( * ) FROM media WHERE status = 'active'
    AND id NOT IN (SELECT DISTINCT media_id FROM media_tags)]. *)
Definition untaggedCount (db : Db) : Z :=
  Z.of_nat
    (length (filter (λ r, col_status r = "active"
                          ∧ id r ∉ mt_media_id <$> media_tags db)
               (media db))).

End Database.

(** ** Scanner.cpp *)

(** What a scan reads from outside the store: the directory listing, file
    metadata, and the outcome of hashing and decoding each file.  One
    [World] describes one state of the scanned files. *)
Record World := mkWorld {
  (* QDirIterator(absRoot, QDir::Files, Subdirectories), in iteration
     order: the source files, and whichever of the thumbnail files
     present lie under absRoot. *)
  dir_entries : gset string → string → list string;
  fi_size : string → Z;
  fi_lastModified : string → Z;
  (* computeSha256: the hex digest, or the empty string when the file
     cannot be opened. *)
  computeSha256 : string → string;
  computeImagePHash : string → string;
  getImageDimensions : string → Z * Z;
  getVideoDimensions : string → Z * Z;
  getImageCaptureTime : string → Z;
  (* Do createImageThumbnail / createVideoThumbnail succeed on this
     source file? *)
  image_thumbnail_ok : string → bool;
  video_thumbnail_ok : string → bool;
  (* A std::exception thrown while the try block handles this file, with
     its what(); raised before the block writes to the store. *)
  raises : string → option string;
  (* The value of m_cancelled read by the loop test at each index. *)
  cancelled_at : nat → bool
}.

Record ScanResult := mkScanResult {
  scanned : Z;
  addedOrUpdated : Z;
  errors : Z
}.

(** The store, the files present in the thumbnails directory, and the
    running [ScanResult]. *)
Record ScanState := mkScanState {
  st_db : Db;
  st_thumbs : gset string;
  st_result : ScanResult
}.

Module Scanner.

(** The part of [s] after the last [c], if [c] occurs. *)
Fixpoint after_last (c : ascii) (s : string) : option string :=
  match s with
  | EmptyString => None
  | String d s' =>
      match after_last c s' with
      | Some r => Some r
      | None => if Ascii.eqb d c then Some s' else None
      end
  end.

(** [QFileInfo::fileName()] and [QFileInfo::suffix()]. *)
Definition fi_fileName (path : string) : string :=
  default path (after_last "/" path).
Definition fi_suffix (path : string) : string :=
  default "" (after_last "." (fi_fileName path)).

(** ["." + QFileInfo(path).suffix().toLower()]. *)
Definition dot_ext (path : string) : string :=
  "." +:+ QString.toLower (fi_suffix path).

Definition isImageFile (path : string) : bool :=
  contains IMAGE_EXTENSIONS (dot_ext path).
Definition isVideoFile (path : string) : bool :=
  contains VIDEO_EXTENSIONS (dot_ext path).
Definition isAudioFile (path : string) : bool :=
  contains AUDIO_EXTENSIONS (dot_ext path).

Fixpoint ends_with_slash (s : string) : bool :=
  match s with
  | EmptyString => false
  | String c EmptyString => Ascii.eqb c "/"
  | String _ s' => ends_with_slash s'
  end.

(** [QDir(dir).filePath(name)] for a relative [name]. *)
Definition dir_filePath (dir name : string) : string :=
  if ends_with_slash dir then dir +:+ name else dir +:+ "/" +:+ name.

Definition bump_scanned (r : ScanResult) : ScanResult :=
  {| scanned := scanned r + 1; addedOrUpdated := addedOrUpdated r;
     errors := errors r |}.
Definition bump_added (r : ScanResult) : ScanResult :=
  {| scanned := scanned r; addedOrUpdated := addedOrUpdated r + 1;
     errors := errors r |}.
Definition bump_errors (r : ScanResult) : ScanResult :=
  {| scanned := scanned r; addedOrUpdated := addedOrUpdated r;
     errors := errors r + 1 |}.

Section worker.

Context (absolutePath : string → string) (w : World).

(** The members set by the constructor of [ScannerWorker]. *)
Definition worker_rootDir (rootDir : string) : string :=
  absolutePath rootDir.
Definition worker_thumbnailsDir (rootDir thumbnailsDir : string) : string :=
  if QString.isEmpty thumbnailsDir
  then dir_filePath (worker_rootDir rootDir) "thumbnails"
  else thumbnailsDir.

Definition listMediaFiles (rootDir : string) (thumbs : gset string)
  : list string :=
  filter (λ path, contains IMAGE_EXTENSIONS (dot_ext path)
                  || contains VIDEO_EXTENSIONS (dot_ext path)
                  || contains AUDIO_EXTENSIONS (dot_ext path) = true)
    (dir_entries w thumbs (absolutePath rootDir)).

(** [createImageThumbnail] / [createVideoThumbnail]: on success the
    JPEG exists at [destPath]. *)
Definition createImageThumbnail (sourcePath destPath : string)
    (thumbs : gset string) : gset string * bool :=
  if image_thumbnail_ok w sourcePath then ({[destPath]} ∪ thumbs, true)
  else (thumbs, false).
Definition createVideoThumbnail (sourcePath destPath : string)
    (thumbs : gset string) : gset string * bool :=
  if video_thumbnail_ok w sourcePath then ({[destPath]} ∪ thumbs, true)
  else (thumbs, false).

Definition file_exists (path : string) (thumbs : gset string) : bool :=
  bool_decide (path ∈ thumbs).

(** The part of the full processing that depends on the media kind:
    perceptual hash, dimensions, capture time, the thumbnails on disk
    afterwards and the thumbnail path to store. *)
Definition extract_media (thumbPath filePath : string)
    (thumbs : gset string)
  : string * (Z * Z) * Z * gset string * string :=
  match typeFromExtension (dot_ext filePath) with
  | Image =>
      let thumbs' :=
        if file_exists thumbPath thumbs then thumbs
        else (createImageThumbnail filePath thumbPath thumbs).1 in
      (computeImagePHash w filePath, getImageDimensions w filePath,
       getImageCaptureTime w filePath, thumbs', thumbPath)
  | Video =>
      let '(thumbs', thumbPath') :=
        if file_exists thumbPath thumbs then (thumbs, thumbPath)
        else
          let '(thumbs', ok) :=
            createVideoThumbnail filePath thumbPath thumbs in
          (thumbs', if ok then thumbPath else "") in
      ("", getVideoDimensions w filePath, 0, thumbs', thumbPath')
  | _ => ("", (0, 0), 0, thumbs, "")
  end.

(** The [MediaRecord] assembled by the full processing. *)
Definition full_record (m_rootDir m_thumbnailsDir filePath : string)
    (thumbs : gset string) : MediaRecord :=
  let sha256 := computeSha256 w filePath in
  let thumbPath := dir_filePath m_thumbnailsDir (sha256 +:+ ".jpg") in
  let '(pHash, (width, height), capturedTime, _, thumbPath) :=
    extract_media thumbPath filePath thumbs in
  {| rec_id := 0;
     filePath := Some filePath;
     rootDir := Some m_rootDir;
     fileName := Some (fi_fileName filePath);
     sha256 := sha256;
     pHash := pHash;
     width := if bool_decide (0 < width) then Some width else None;
     height := if bool_decide (0 < height) then Some height else None;
     sizeBytes := Some (fi_size w filePath);
     capturedTimeUtc :=
       if bool_decide (0 < capturedTime) then Some capturedTime else None;
     modifiedTimeUtc := Some (fi_lastModified w filePath);
     mediaType := typeFromExtension (dot_ext filePath);
     thumbnailPath := thumbPath;
     status := "active";
     error := "" |}.

(** "Full processing for new or changed files". *)
Definition process_full (m_rootDir m_thumbnailsDir filePath : string)
    (st : ScanState) : ScanState :=
  let record :=
    full_record m_rootDir m_thumbnailsDir filePath (st_thumbs st) in
  let thumbPath :=
    dir_filePath m_thumbnailsDir (computeSha256 w filePath +:+ ".jpg") in
  let thumbs := (extract_media thumbPath filePath (st_thumbs st)).1.2 in
  let upserted := Database.upsertMedia record (st_db st) in
  {| st_db := upserted.1; st_thumbs := thumbs;
     st_result :=
       bump_scanned (if bool_decide (0 < upserted.2)
                     then bump_added (st_result st) else st_result st) |}.

(** "Create missing thumbnail": the file is unchanged and has a hash. *)
Definition process_refresh (m_thumbnailsDir filePath : string)
    (prev : Database.SnapshotEntry) (st : ScanState) : ScanState :=
  let existingThumb := QString.ofVariant (Database.e_thumbnail_path prev) in
  let sha256 := QString.ofVariant (Database.e_sha256 prev) in
  let thumbPath := dir_filePath m_thumbnailsDir (sha256 +:+ ".jpg") in
  let '(thumbs, thumbCreated) :=
    if isImageFile filePath
    then createImageThumbnail filePath thumbPath (st_thumbs st)
    else if isVideoFile filePath
    then createVideoThumbnail filePath thumbPath (st_thumbs st)
    else (st_thumbs st, false) in
  let db :=
    if thumbCreated && negb (String.eqb thumbPath existingThumb)
    then (Database.updateThumbnailPath filePath thumbPath (st_db st)).1
    else st_db st in
  {| st_db := db; st_thumbs := thumbs;
     st_result := bump_scanned (st_result st) |}.

(** The test that guards the two short paths of the loop body. *)
Definition unchanged_with_hash (filePath : string)
    (prev : Database.SnapshotEntry) : bool :=
  bool_decide (default 0 (Database.e_size_bytes prev) = fi_size w filePath)
  && bool_decide (default 0 (Database.e_modified_time_utc prev)
                  = fi_lastModified w filePath)
  && negb (QString.isEmpty (QString.ofVariant (Database.e_sha256 prev))).

(** The [catch (const std::exception& e)] block. *)
Definition process_error (m_rootDir filePath what : string)
    (st : ScanState) : ScanState :=
  let errorRecord :=
    {| rec_id := 0;
       filePath := Some filePath;
       rootDir := Some m_rootDir;
       fileName := Some (fi_fileName filePath);
       sha256 := ""; pHash := ""; width := None; height := None;
       sizeBytes := None; capturedTimeUtc := None;
       modifiedTimeUtc := None;
       mediaType := typeFromExtension (dot_ext filePath);
       thumbnailPath := "";
       status := "active";
       error := what |} in
  {| st_db := (Database.upsertMedia errorRecord (st_db st)).1;
     st_thumbs := st_thumbs st;
     st_result := bump_scanned (bump_errors (st_result st)) |}.

(** One iteration of the loop of [process] for [filePath]. *)
Definition process_file (m_rootDir m_thumbnailsDir : string)
    (existingMap : gmap string Database.SnapshotEntry)
    (filePath : string) (st : ScanState) : ScanState :=
  match raises w filePath with
  | Some what => process_error m_rootDir filePath what st
  | None =>
      match existingMap !! filePath with
      | Some prev =>
          if unchanged_with_hash filePath prev then
            let existingThumb :=
              QString.ofVariant (Database.e_thumbnail_path prev) in
            if negb (QString.isEmpty existingThumb)
               && file_exists existingThumb (st_thumbs st)
            then {| st_db := st_db st; st_thumbs := st_thumbs st;
                    st_result := bump_scanned (st_result st) |}
            else process_refresh m_thumbnailsDir filePath prev st
          else process_full m_rootDir m_thumbnailsDir filePath st
      | None => process_full m_rootDir m_thumbnailsDir filePath st
      end
  end.

(** [for (idx = 0; idx < total && !m_cancelled; ++idx)]. *)
Fixpoint process_loop (m_rootDir m_thumbnailsDir : string)
    (existingMap : gmap string Database.SnapshotEntry)
    (idx : nat) (files : list string) (st : ScanState) : ScanState :=
  match files with
  | [] => st
  | filePath :: rest =>
      if cancelled_at w idx then st
      else process_loop m_rootDir m_thumbnailsDir existingMap (S idx) rest
             (process_file m_rootDir m_thumbnailsDir existingMap
                filePath st)
  end.

(** [ScannerWorker::process] of a worker constructed with [rootDir]
    and [thumbnailsDir], started on store [db] with [thumbs] present
    on disk.  The final state carries the emitted [ScanResult]. *)
Definition process (rootDir thumbnailsDir : string) (db : Db)
    (thumbs : gset string) : ScanState :=
  let m_rootDir := worker_rootDir rootDir in
  let m_thumbnailsDir := worker_thumbnailsDir rootDir thumbnailsDir in
  let files := listMediaFiles m_rootDir thumbs in
  let db1 :=
    (Database.markMissingFilesDeleted absolutePath files m_rootDir db).1 in
  let existingMap :=
    Database.existingMediaMapForRoot absolutePath m_rootDir db1 in
  process_loop m_rootDir m_thumbnailsDir existingMap 0 files
    {| st_db := db1; st_thumbs := thumbs;
       st_result := {| scanned := 0; addedOrUpdated := 0; errors := 0 |} |}.

End worker.

End Scanner.

(** ** ThumbnailCache.cpp *)

(** A [QPixmap]: null, or the canvas rendered from the thumbnail file at
    [path] for [size] x [size]. *)
Inductive Pixmap :=
| NullPixmap
| Rendered (path : string) (size : Z).

Global Instance Pixmap_eq_dec : EqDecision Pixmap.
Proof. solve_decision. Defined.

Definition isNull (p : Pixmap) : bool :=
  match p with NullPixmap => true | Rendered _ _ => false end.

(** [cacheKey]: the string "<mediaId>_<targetSize>", which determines
    and is determined by the pair. *)
Definition cacheKey (mediaId targetSize : Z) : Z * Z := (mediaId, targetSize).

(** [QCache<QString, QPixmap>] (Qt 6) with every object at cost 1:
    entries from most to least recently used. *)
Module QCache.

Record t := mk { maxCost : Z; entries : list ((Z * Z) * Pixmap) }.

Definition keys (c : t) : list (Z * Z) := fst <$> entries c.

Definition contains (key : Z * Z) (c : t) : bool :=
  bool_decide (key ∈ keys c).

Definition lookup (key : Z * Z) (c : t) : option Pixmap :=
  snd <$> head (filter (λ e, e.1 = key) (entries c)).

Definition without (key : Z * Z) (es : list ((Z * Z) * Pixmap))
  : list ((Z * Z) * Pixmap) :=
  filter (λ e, e.1 ≠ key) es.

(** [object(key)]: the entry, relinked to the front of the chain. *)
Definition object (key : Z * Z) (c : t) : t * option Pixmap :=
  match lookup key c with
  | Some p =>
      ({| maxCost := maxCost c;
          entries := (key, p) :: without key (entries c) |}, Some p)
  | None => (c, None)
  end.

(** [trim(m)]: unlink from the back of the chain while the total cost
    is above [m]. *)
Definition trim (m : Z) (es : list ((Z * Z) * Pixmap))
  : list ((Z * Z) * Pixmap) :=
  if bool_decide (Z.of_nat (length es) ≤ m) then es
  else take (Z.to_nat m) es.

(** [insert(key, object)] with the default cost 1. *)
Definition insert (key : Z * Z) (p : Pixmap) (c : t) : t * bool :=
  if bool_decide (maxCost c < 1)
  then ({| maxCost := maxCost c; entries := without key (entries c) |},
        false)
  else
    let es := trim (maxCost c - 1) (entries c) in
    ({| maxCost := maxCost c; entries := (key, p) :: without key es |},
     true).

Definition clear (c : t) : t := {| maxCost := maxCost c; entries := [] |}.

End QCache.

Record ThumbnailLoadTask := mkTask {
  task_mediaId : Z;
  task_path : string;
  task_targetSize : Z
}.

Global Instance ThumbnailLoadTask_eq_dec : EqDecision ThumbnailLoadTask.
Proof. solve_decision. Defined.

Inductive Notification :=
| thumbnailLoaded (mediaId : Z) (thumbnail : Pixmap)
| thumbnailFailed (mediaId : Z).

Global Instance Notification_eq_dec : EqDecision Notification.
Proof. solve_decision. Defined.

Definition notification_id (n : Notification) : Z :=
  match n with
  | thumbnailLoaded m _ => m
  | thumbnailFailed m => m
  end.

(** The cache object: its members, the tasks held by [m_threadPool]
    (queued, and started but not yet delivered), the lambdas that
    [requestThumbnail] has posted with [Qt::QueuedConnection] and the
    event loop has not run yet, oldest first, each written as the
    signal it will emit, and the signals emitted so far, oldest
    first. *)
Record ThumbnailCache := mkThumbnailCache {
  m_cache : QCache.t;
  m_pendingRequests : gset Z;
  pool_queued : list ThumbnailLoadTask;
  pool_running : list ThumbnailLoadTask;
  m_currentPlaceholderSize : Z;
  posted : list Notification;
  notifications : list Notification
}.

Module ThumbnailCacheOps.

(** The constructor [ThumbnailCache(cacheSize)]. *)
Definition new (cacheSize : Z) : ThumbnailCache :=
  {| m_cache := {| QCache.maxCost := cacheSize; QCache.entries := [] |};
     m_pendingRequests := ∅;
     pool_queued := [];
     pool_running := [];
     m_currentPlaceholderSize := 0;
     posted := [];
     notifications := [] |}.

Definition emit (n : Notification) (c : ThumbnailCache) : ThumbnailCache :=
  {| m_cache := m_cache c; m_pendingRequests := m_pendingRequests c;
     pool_queued := pool_queued c; pool_running := pool_running c;
     m_currentPlaceholderSize := m_currentPlaceholderSize c;
     posted := posted c;
     notifications := notifications c ++ [n] |}.

Definition with_posted (l : list Notification) (c : ThumbnailCache)
  : ThumbnailCache :=
  {| m_cache := m_cache c; m_pendingRequests := m_pendingRequests c;
     pool_queued := pool_queued c; pool_running := pool_running c;
     m_currentPlaceholderSize := m_currentPlaceholderSize c;
     posted := l;
     notifications := notifications c |}.

(** [QMetaObject::invokeMethod(this, [...]() { emit n; },
    Qt::QueuedConnection)]: the lambda is queued for the event loop of
    the owning thread; nothing is emitted by the call itself. *)
Definition post (n : Notification) (c : ThumbnailCache) : ThumbnailCache :=
  with_posted (posted c ++ [n]) c.

Definition with_cache (q : QCache.t) (c : ThumbnailCache) : ThumbnailCache :=
  {| m_cache := q; m_pendingRequests := m_pendingRequests c;
     pool_queued := pool_queued c; pool_running := pool_running c;
     m_currentPlaceholderSize := m_currentPlaceholderSize c;
     posted := posted c;
     notifications := notifications c |}.

Definition with_pending (s : gset Z) (c : ThumbnailCache) : ThumbnailCache :=
  {| m_cache := m_cache c; m_pendingRequests := s;
     pool_queued := pool_queued c; pool_running := pool_running c;
     m_currentPlaceholderSize := m_currentPlaceholderSize c;
     posted := posted c;
     notifications := notifications c |}.

Definition with_pool (queued running : list ThumbnailLoadTask)
    (c : ThumbnailCache) : ThumbnailCache :=
  {| m_cache := m_cache c; m_pendingRequests := m_pendingRequests c;
     pool_queued := queued; pool_running := running;
     m_currentPlaceholderSize := m_currentPlaceholderSize c;
     posted := posted c;
     notifications := notifications c |}.

Section with_files.

(** [QFileInfo::exists(path)], and whether [QImage(path)] decodes. *)
Context (file_exists : string → bool) (decodes : string → bool).

(** The placeholder of [getThumbnail] is a function of the size. *)
Definition getThumbnail (mediaId : Z) (thumbnailPath : string)
    (targetSize : Z) (c : ThumbnailCache) : ThumbnailCache * option Pixmap :=
  let key := cacheKey mediaId targetSize in
  match QCache.object key (m_cache c) with
  | (q, Some cached) => (with_cache q c, Some cached)
  | (_, None) =>
      ({| m_cache := m_cache c; m_pendingRequests := m_pendingRequests c;
          pool_queued := pool_queued c; pool_running := pool_running c;
          m_currentPlaceholderSize := targetSize;
          posted := posted c;
          notifications := notifications c |}, None)
  end.

Definition requestThumbnail (mediaId : Z) (thumbnailPath : string)
    (targetSize : Z) (c : ThumbnailCache) : ThumbnailCache :=
  let key := cacheKey mediaId targetSize in
  if QCache.contains key (m_cache c) then
    match QCache.object key (m_cache c) with
    | (q, Some cached) =>
        post (thumbnailLoaded mediaId cached) (with_cache q c)
    | (_, None) => c
    end
  else if bool_decide (mediaId ∈ m_pendingRequests c) then c
  else if QString.isEmpty thumbnailPath || negb (file_exists thumbnailPath)
  then post (thumbnailFailed mediaId) c
  else
    with_pool
      (pool_queued c ++ [{| task_mediaId := mediaId;
                            task_path := thumbnailPath;
                            task_targetSize := targetSize |}])
      (pool_running c)
      (with_pending ({[mediaId]} ∪ m_pendingRequests c) c).

Definition cancelPendingRequests (c : ThumbnailCache) : ThumbnailCache :=
  with_pool [] (pool_running c) (with_pending ∅ c).

Definition cancelRequest (mediaId : Z) (c : ThumbnailCache) : ThumbnailCache :=
  with_pending (m_pendingRequests c ∖ {[mediaId]}) c.

Definition clear (c : ThumbnailCache) : ThumbnailCache :=
  with_cache (QCache.clear (m_cache c)) c.

Definition onThumbnailLoaded (mediaId targetSize : Z) (pixmap : Pixmap)
    (c : ThumbnailCache) : ThumbnailCache :=
  let key := cacheKey mediaId targetSize in
  if negb (bool_decide (mediaId ∈ m_pendingRequests c)) then c
  else
    let c1 := with_pending (m_pendingRequests c ∖ {[mediaId]}) c in
    if negb (isNull pixmap)
    then emit (thumbnailLoaded mediaId pixmap)
           (with_cache (QCache.insert key pixmap (m_cache c1)).1 c1)
    else emit (thumbnailFailed mediaId) c1.

(** "Cache statistics". *)
Definition cacheCount (c : ThumbnailCache) : Z :=
  Z.of_nat (length (QCache.entries (m_cache c))).
Definition pendingCount (c : ThumbnailCache) : Z :=
  Z.of_nat (size (m_pendingRequests c)).

(** The pixmap computed by [ThumbnailLoadTask::run]. *)
Definition task_result (t : ThumbnailLoadTask) : Pixmap :=
  if negb (QString.isEmpty (task_path t)) && file_exists (task_path t)
     && decodes (task_path t)
  then Rendered (task_path t) (task_targetSize t)
  else NullPixmap.

(** What can happen to a cache: calls of its public methods from the
    owning thread, the pool starting a queued task, a started task
    finishing, whose queued callback then runs [onThumbnailLoaded] on
    the owning thread, and the event loop of the owning thread running
    the oldest lambda posted by [requestThumbnail].  Posted lambdas run
    in the order they were posted; when a task's callback runs relative
    to them depends on when the task finishes and is left open. *)
Inductive Event :=
| CallGetThumbnail (mediaId : Z) (thumbnailPath : string) (targetSize : Z)
| CallRequestThumbnail (mediaId : Z) (thumbnailPath : string) (targetSize : Z)
| CallCancelPendingRequests
| CallCancelRequest (mediaId : Z)
| CallClear
| TaskStarts (i : nat)
| TaskDelivers (i : nat)
| PostedLambdaRuns.

Definition step (e : Event) (c : ThumbnailCache) : ThumbnailCache :=
  match e with
  | CallGetThumbnail m p s => (getThumbnail m p s c).1
  | CallRequestThumbnail m p s => requestThumbnail m p s c
  | CallCancelPendingRequests => cancelPendingRequests c
  | CallCancelRequest m => cancelRequest m c
  | CallClear => clear c
  | TaskStarts i =>
      match pool_queued c !! i with
      | Some t =>
          with_pool (delete i (pool_queued c)) (pool_running c ++ [t]) c
      | None => c
      end
  | TaskDelivers i =>
      match pool_running c !! i with
      | Some t =>
          onThumbnailLoaded (task_mediaId t) (task_targetSize t)
            (task_result t)
            (with_pool (pool_queued c) (delete i (pool_running c)) c)
      | None => c
      end
  | PostedLambdaRuns =>
      match posted c with
      | n :: rest => emit n (with_posted rest c)
      | [] => c
      end
  end.

Definition run (trace : list Event) (c : ThumbnailCache) : ThumbnailCache :=
  foldl (λ c e, step e c) c trace.

End with_files.

End ThumbnailCacheOps.

(** ** ui/GalleryModel.cpp *)

(** The members of the model; the store and the thumbnail cache it
    points to are passed to the functions that use them. *)
Record GalleryModel := mkGalleryModel {
  m_records : list MediaRecord;
  m_idToRow : gmap Z Z;
  m_selectedIds : gset Z;
  m_filterTags : list string;
  m_searchText : string;
  m_tagsMatchAll : bool;
  m_rootDir : string;
  m_totalCount : Z;
  m_thumbnailSize : Z;
  m_tagsCache : gmap Z (list string)
}.

Module GalleryModelOps.

(** The constructor, with the default member initialisers. *)
Definition new : GalleryModel :=
  {| m_records := []; m_idToRow := ∅; m_selectedIds := ∅;
     m_filterTags := []; m_searchText := ""; m_tagsMatchAll := true;
     m_rootDir := ""; m_totalCount := 0; m_thumbnailSize := 320;
     m_tagsCache := ∅ |}.

Definition rowCount (g : GalleryModel) : Z :=
  Z.of_nat (length (m_records g)).

(** [for (i = 0; i < m_records.size(); ++i)
       m_idToRow[m_records[i].id] = i;] *)
Definition index_rows (records : list MediaRecord) : gmap Z Z :=
  foldl (λ index ir, <[rec_id ir.2 := Z.of_nat ir.1]> index) ∅
    (imap (λ i r, (i, r)) records).

Definition with_selectedIds (s : gset Z) (g : GalleryModel) : GalleryModel :=
  {| m_records := m_records g; m_idToRow := m_idToRow g;
     m_selectedIds := s; m_filterTags := m_filterTags g;
     m_searchText := m_searchText g; m_tagsMatchAll := m_tagsMatchAll g;
     m_rootDir := m_rootDir g; m_totalCount := m_totalCount g;
     m_thumbnailSize := m_thumbnailSize g; m_tagsCache := m_tagsCache g |}.

Definition with_tagsCache (t : gmap Z (list string)) (g : GalleryModel)
  : GalleryModel :=
  {| m_records := m_records g; m_idToRow := m_idToRow g;
     m_selectedIds := m_selectedIds g; m_filterTags := m_filterTags g;
     m_searchText := m_searchText g; m_tagsMatchAll := m_tagsMatchAll g;
     m_rootDir := m_rootDir g; m_totalCount := m_totalCount g;
     m_thumbnailSize := m_thumbnailSize g; m_tagsCache := t |}.

Section with_paths.

Context (absolutePath : string → string).

(** [refresh]: the pending thumbnail requests are cancelled, and the
    records, the index and the total are replaced by the result of the
    query for the current filter; the selection is kept. *)
Definition refresh (db : Db) (cache : ThumbnailCache) (g : GalleryModel)
  : GalleryModel * ThumbnailCache :=
  let cache' := ThumbnailCacheOps.cancelPendingRequests cache in
  let result :=
    Database.queryMedia absolutePath (m_filterTags g) (m_searchText g)
      10000 0 Database.modified_desc_id_desc (m_rootDir g)
      (m_tagsMatchAll g) db in
  ({| m_records := Database.records result;
      m_idToRow := index_rows (Database.records result);
      m_selectedIds := m_selectedIds g;
      m_filterTags := m_filterTags g;
      m_searchText := m_searchText g;
      m_tagsMatchAll := m_tagsMatchAll g;
      m_rootDir := m_rootDir g;
      m_totalCount := Database.totalCount result;
      m_thumbnailSize := m_thumbnailSize g;
      m_tagsCache := ∅ |},
   cache').

Definition setFilter (tags : list string) (searchText : string)
    (tagsMatchAll : bool) (db : Db) (cache : ThumbnailCache)
    (g : GalleryModel) : GalleryModel * ThumbnailCache :=
  refresh db cache
    {| m_records := m_records g; m_idToRow := m_idToRow g;
       m_selectedIds := m_selectedIds g; m_filterTags := tags;
       m_searchText := searchText; m_tagsMatchAll := tagsMatchAll;
       m_rootDir := m_rootDir g; m_totalCount := m_totalCount g;
       m_thumbnailSize := m_thumbnailSize g;
       m_tagsCache := m_tagsCache g |}.

Definition setRootDir (rootDir : string) (db : Db) (cache : ThumbnailCache)
    (g : GalleryModel) : GalleryModel * ThumbnailCache :=
  refresh db cache
    {| m_records := m_records g; m_idToRow := m_idToRow g;
       m_selectedIds := m_selectedIds g; m_filterTags := m_filterTags g;
       m_searchText := m_searchText g; m_tagsMatchAll := m_tagsMatchAll g;
       m_rootDir := rootDir; m_totalCount := m_totalCount g;
       m_thumbnailSize := m_thumbnailSize g;
       m_tagsCache := m_tagsCache g |}.

End with_paths.

(** [m_idToRow.value(mediaId, -1)]. *)
Definition rowForMediaId (mediaId : Z) (g : GalleryModel) : Z :=
  default (-1) (m_idToRow g !! mediaId).

(** [m_records[row]] for a row of the vector; rows outside it are not
    read by the callers below when the index is that of [refresh]. *)
Definition record_at_row (row : Z) (g : GalleryModel) : option MediaRecord :=
  if bool_decide (0 ≤ row) then m_records g !! Z.to_nat row else None.

Definition getRecord (mediaId : Z) (g : GalleryModel) : option MediaRecord :=
  let row := rowForMediaId mediaId g in
  if bool_decide (0 ≤ row) then record_at_row row g else None.

Definition recordAt (row : Z) (g : GalleryModel) : MediaRecord :=
  if bool_decide (0 ≤ row) && bool_decide (row < rowCount g)
  then default defaultMediaRecord (record_at_row row g)
  else defaultMediaRecord.

Definition select (mediaId : Z) (selected : bool) (g : GalleryModel)
  : GalleryModel :=
  if selected then with_selectedIds ({[mediaId]} ∪ m_selectedIds g) g
  else with_selectedIds (m_selectedIds g ∖ {[mediaId]}) g.

Definition isSelected (mediaId : Z) (g : GalleryModel) : bool :=
  bool_decide (mediaId ∈ m_selectedIds g).

Definition toggleSelection (mediaId : Z) (g : GalleryModel) : GalleryModel :=
  select mediaId (negb (isSelected mediaId g)) g.

(** [for (row = startRow; row <= endRow; ++row)
       m_selectedIds.insert(m_records[row].id);] *)
Definition select_rows (startRow endRow : Z) (g : GalleryModel) : gset Z :=
  foldl (λ s row, match record_at_row row g with
                  | Some r => {[rec_id r]} ∪ s
                  | None => s
                  end)
    (m_selectedIds g) (seqZ startRow (endRow - startRow + 1)).

Definition selectRange (startId endId : Z) (g : GalleryModel) : GalleryModel :=
  let startRow := rowForMediaId startId g in
  let endRow := rowForMediaId endId g in
  if bool_decide (startRow < 0) || bool_decide (endRow < 0) then g
  else
    let '(startRow, endRow) :=
      if bool_decide (endRow < startRow) then (endRow, startRow)
      else (startRow, endRow) in
    with_selectedIds (select_rows startRow endRow g) g.

Definition selectAll (g : GalleryModel) : GalleryModel :=
  with_selectedIds
    (foldl (λ s r, {[rec_id r]} ∪ s) (m_selectedIds g) (m_records g)) g.

Definition clearSelection (g : GalleryModel) : GalleryModel :=
  with_selectedIds ∅ g.

Definition selectedIds (g : GalleryModel) : gset Z := m_selectedIds g.

Definition selectionCount (g : GalleryModel) : Z :=
  Z.of_nat (size (m_selectedIds g)).

(** [data(index, TagsRole)] for the record at a valid index: the tag
    list is read from the store once and then served from
    [m_tagsCache]. *)
Definition data_TagsRole (db : Db) (record : MediaRecord) (g : GalleryModel)
  : GalleryModel * list string :=
  match m_tagsCache g !! rec_id record with
  | Some tags => (g, tags)
  | None =>
      let tags := Database.getMediaTags (rec_id record) db in
      (with_tagsCache (<[rec_id record := tags]> (m_tagsCache g)) g, tags)
  end.

(** The slot connected to [Database::tagsChanged]. *)
Definition onTagsChanged (g : GalleryModel) : GalleryModel :=
  with_tagsCache ∅ g.

End GalleryModelOps.

(** ** Sample data used by the closed examples *)

Module Samples.

Definition media_record (path name hash : string) (size mtime : Z)
    (kind : MediaType) (thumb : string) : MediaRecord :=
  {| rec_id := 0; filePath := Some path; rootDir := Some "/r";
     fileName := Some name;
     sha256 := hash; pHash := ""; width := None; height := None;
     sizeBytes := Some size; capturedTimeUtc := None;
     modifiedTimeUtc := Some mtime; mediaType := kind;
     thumbnailPath := thumb; status := "active"; error := "" |}.

Definition rec_a : MediaRecord :=
  media_record "/r/a.jpg" "a.jpg" "aa" 3 10 Image "/t/aa.jpg".
Definition rec_b : MediaRecord :=
  media_record "/r/b.png" "b.png" "bb" 4 20 Image "/t/bb.jpg".
Definition rec_c : MediaRecord :=
  media_record "/r/c.mp4" "c.mp4" "cc" 5 30 Video "/t/cc.jpg".

(** A new store with the three files indexed, as ids 1, 2 and 3. *)
Definition db_media : Db :=
  (Database.upsertMedia rec_c
     (Database.upsertMedia rec_b
        (Database.upsertMedia rec_a Database.open_new).1).1).1.

(** The rows of the three files in that store. *)
Definition row_a : MediaRow :=
  Database.row_of_record 1 "/r/a.jpg" "/r" "a.jpg" rec_a.

(** A tagged \{x,y\}, B tagged \{x\}, C tagged \{y\}. *)
Definition db_abc : Db :=
  Database.addMediaTags 3 ["y"]
    (Database.addMediaTags 2 ["x"]
       (Database.addMediaTags 1 ["x"; "y"] db_media)).

(** Only A, tagged \{z\}. *)
Definition db_a_z : Db :=
  Database.addMediaTags 1 ["z"]
    (Database.upsertMedia rec_a Database.open_new).1.

Definition same_path (s : string) : string := s.

(** The listing of a directory "/r" with [n] image files. *)
Definition listing (n : Z) : list string :=
  (λ i : Z, "/r/img" +:+ pretty i +:+ ".jpg") <$> seqZ 0 n.

(** A world with the single source file "/r/a.jpg" of 3 bytes,
    modified at time 10, and a thumbnails directory outside "/r". *)
Definition world_one (readable : bool) : World :=
  {| dir_entries := λ _ _, ["/r/a.jpg"];
     fi_size := λ _, 3;
     fi_lastModified := λ _, 10;
     computeSha256 := λ _, if readable then "aa" else "";
     computeImagePHash := λ _, if readable then "00000000000000ff" else "";
     getImageDimensions := λ _, if readable then (100, 100) else (-1, -1);
     getVideoDimensions := λ _, (0, 0);
     getImageCaptureTime := λ _, 0;
     image_thumbnail_ok := λ _, readable;
     video_thumbnail_ok := λ _, false;
     raises := λ _, None;
     cancelled_at := λ _, false |}.

(** The file is a readable, decodable image with digest "aa". *)
Definition world_readable : World := world_one true.

(** The file cannot be opened: no digest, no thumbnail. *)
Definition world_unreadable : World := world_one false.

(** Handling the file throws [std::runtime_error("boom")]. *)
Definition world_throwing : World :=
  {| dir_entries := λ _ _, ["/r/a.jpg"; "/r/b.png"];
     fi_size := λ _, 3;
     fi_lastModified := λ _, 10;
     computeSha256 := λ _, "bb";
     computeImagePHash := λ _, "";
     getImageDimensions := λ _, (100, 100);
     getVideoDimensions := λ _, (0, 0);
     getImageCaptureTime := λ _, 0;
     image_thumbnail_ok := λ _, true;
     video_thumbnail_ok := λ _, false;
     raises := λ path, if String.eqb path "/r/a.jpg" then Some "boom"
                       else None;
     cancelled_at := λ _, false |}.

(** The readable image again, with the thumbnails directory at its
    default place "/r/thumbnails": thumbnail files are listed with the
    sources. *)
Definition world_thumbnails_inside : World :=
  {| dir_entries := λ thumbs _, "/r/a.jpg" :: elements thumbs;
     fi_size := λ _, 3;
     fi_lastModified := λ _, 10;
     computeSha256 := λ path, if String.eqb path "/r/a.jpg" then "aa"
                              else "bb";
     computeImagePHash := λ _, "00000000000000ff";
     getImageDimensions := λ _, (100, 100);
     getVideoDimensions := λ _, (0, 0);
     getImageCaptureTime := λ _, 0;
     image_thumbnail_ok := λ _, true;
     video_thumbnail_ok := λ _, false;
     raises := λ _, None;
     cancelled_at := λ _, false |}.

(** One readable image under "/r/sub", listed by a scan of "/r/sub"
    and by a scan of "/r". *)
Definition world_nested : World :=
  {| dir_entries := λ _ _, ["/r/sub/a.jpg"];
     fi_size := λ _, 3;
     fi_lastModified := λ _, 10;
     computeSha256 := λ _, "aa";
     computeImagePHash := λ _, "00000000000000ff";
     getImageDimensions := λ _, (100, 100);
     getVideoDimensions := λ _, (0, 0);
     getImageCaptureTime := λ _, 0;
     image_thumbnail_ok := λ _, true;
     video_thumbnail_ok := λ _, false;
     raises := λ _, None;
     cancelled_at := λ _, false |}.

(** Every file exists, every thumbnail decodes. *)
Definition always (path : string) : bool := true.

(** The store of A, B, C after a scan of "/r" that found no file. *)
Definition db_abc_deleted : Db :=
  (Database.markMissingFilesDeleted same_path [] "/r" db_abc).1.

(** Two image files; the cancel flag is set while the first one is
    handled. *)
Definition world_cancelled : World :=
  {| dir_entries := λ _ _, ["/r/a.jpg"; "/r/b.png"];
     fi_size := λ _, 3;
     fi_lastModified := λ _, 10;
     computeSha256 := λ path, if String.eqb path "/r/a.jpg" then "aa"
                              else "bb";
     computeImagePHash := λ _, "00000000000000ff";
     getImageDimensions := λ _, (100, 100);
     getVideoDimensions := λ _, (0, 0);
     getImageCaptureTime := λ _, 0;
     image_thumbnail_ok := λ _, true;
     video_thumbnail_ok := λ _, false;
     raises := λ _, None;
     cancelled_at := λ idx, bool_decide (idx = 1%nat) |}.

(** A tagged \{z\}, after a scan of "/r" that found no file. *)
Definition db_a_z_deleted : Db :=
  (Database.markMissingFilesDeleted same_path [] "/r" db_a_z).1.

(** The row of A in that store. *)
Definition row_a_deleted : MediaRow :=
  Database.set_status "deleted" row_a.

End Samples.

(** ** Vocabulary of the statements *)

(** The constraints declared by [initializeSchema]: primary keys and
    [UNIQUE] columns, and rowids above zero. *)
Record wf (db : Db) : Prop := mk_wf {
  wf_media_id : NoDup (id <$> media db);
  wf_media_path : NoDup (file_path <$> media db);
  wf_media_pos : ∀ r, r ∈ media db → 0 < id r;
  wf_tag_id : NoDup (tag_id <$> tags db);
  wf_tag_name : NoDup (tag_name <$> tags db);
  wf_media_tags : NoDup (media_tags db)
}.

(** Row [r] with ['deleted'] in column [status] and every other
    column as it is. *)
Definition marked_deleted (r : MediaRow) : MediaRow :=
  {| id := id r; file_path := file_path r; root_dir := root_dir r;
     file_name := file_name r; col_sha256 := col_sha256 r;
     p_hash := p_hash r; col_width := col_width r;
     col_height := col_height r; size_bytes := size_bytes r;
     captured_time_utc := captured_time_utc r;
     modified_time_utc := modified_time_utc r;
     media_type := media_type r; thumbnail_path := thumbnail_path r;
     col_status := "deleted"; col_error := col_error r |}.

(** The rows the first join of [tagCounts] produces for tag [t]. *)
Definition tag_block (db : Db) (t : TagRow)
  : list (TagRow * option MediaTagRow) :=
  match filter (λ mt, bool_decide (mt_tag_id mt = tag_id t) = true)
          (media_tags db) with
  | [] => [(t, None)]
  | bs => (λ b, (t, Some b)) <$> bs
  end.

(** The number of [media_tags] rows of tag [t]. *)
Definition association_count (db : Db) (t : TagRow) : Z :=
  Z.of_nat (length (filter (λ a, mt_tag_id a = tag_id t) (media_tags db))).

(** The signals about media [m], in emission order, and after them
    those about [m] that are posted and not emitted yet. *)
Definition notifications_for (m : Z) (c : ThumbnailCache) : list Notification :=
  filter (λ n, notification_id n = m) (notifications c ++ posted c).

(** Is the event a call of [requestThumbnail] for media [m]? *)
Definition requests (m : Z) (e : ThumbnailCacheOps.Event) : Prop :=
  match e with
  | ThumbnailCacheOps.CallRequestThumbnail m' _ _ => m' = m
  | _ => False
  end.

(** *** Records as they read back *)

(** The record that reads back after [record] was inserted under id [i]. *)
Definition stored (i : Z) (record : MediaRecord) : MediaRecord :=
  {| rec_id := i; filePath := filePath record; rootDir := rootDir record;
     fileName := fileName record; sha256 := sha256 record;
     pHash := pHash record; width := width record; height := height record;
     sizeBytes := sizeBytes record;
     capturedTimeUtc := capturedTimeUtc record;
     modifiedTimeUtc := modifiedTimeUtc record;
     mediaType := mediaType record; thumbnailPath := thumbnailPath record;
     status := "active"; error := error record |}.

(** The record that reads back after [record] was written over the row
    that read as [old]. *)
Definition updated (old record : MediaRecord) : MediaRecord :=
  {| rec_id := rec_id old; filePath := filePath old; rootDir := rootDir old;
     fileName := fileName old; sha256 := sha256 record;
     pHash := pHash record; width := width record; height := height record;
     sizeBytes := sizeBytes record;
     capturedTimeUtc := capturedTimeUtc record;
     modifiedTimeUtc := modifiedTimeUtc record;
     mediaType := mediaType record; thumbnailPath := thumbnailPath record;
     status := "active"; error := error record |}.

(** Record [r] with another thumbnail path. *)
Definition with_thumbnailPath (thumb : string) (r : MediaRecord) : MediaRecord :=
  {| rec_id := rec_id r; filePath := filePath r; rootDir := rootDir r;
     fileName := fileName r; sha256 := sha256 r;
     pHash := pHash r; width := width r; height := height r;
     sizeBytes := sizeBytes r;
     capturedTimeUtc := capturedTimeUtc r;
     modifiedTimeUtc := modifiedTimeUtc r;
     mediaType := mediaType r; thumbnailPath := thumb;
     status := status r; error := error r |}.

(** *** Tags and reachable stores *)

(** The name of the tag with id [i], if there is one. *)
Definition tag_name_of (i : Z) (db : Db) : option string :=
  tag_name <$> head (filter (λ t, tag_id t = i) (tags db)).

(** Every association refers to a row of table [tags]. *)
Definition tags_exist (db : Db) : Prop :=
  ∀ a, a ∈ media_tags db → mt_tag_id a ∈ tag_id <$> tags db.

(** Is tag row [t] attached to media [mediaId]? *)
Definition carries (mediaId : Z) (db : Db) (t : TagRow) : Prop :=
  {| mt_media_id := mediaId; mt_tag_id := tag_id t |} ∈ media_tags db.

Global Instance carries_dec mediaId db t : Decision (carries mediaId db t).
Proof. unfold carries. apply _. Defined.

(** A call of one of the member functions of [Database] that write to
    the store. *)
Inductive Call :=
| UpsertMedia (record : MediaRecord)
| DeleteMedia (filePath : string)
| UpdateThumbnailPath (filePath thumbnailPath : string)
| MarkMissingFilesDeleted (existingPaths : list string) (rootDir : string)
| UpsertTags (tagNames : list string)
| SetMediaTags (mediaId : Z) (tagNames : list string)
| AddMediaTags (mediaId : Z) (tagNames : list string)
| RemoveMediaTags (mediaId : Z) (tagNames : list string)
| RemoveTagGlobally (tagName : string).

(** The store after the call. *)
Definition call (absolutePath : string → string) (c : Call) (db : Db) : Db :=
  match c with
  | UpsertMedia record => (Database.upsertMedia record db).1
  | DeleteMedia path => (Database.deleteMedia path db).1
  | UpdateThumbnailPath path thumb =>
      (Database.updateThumbnailPath path thumb db).1
  | MarkMissingFilesDeleted paths root =>
      (Database.markMissingFilesDeleted absolutePath paths root db).1
  | UpsertTags names => (Database.upsertTags names db).1
  | SetMediaTags m names => Database.setMediaTags m names db
  | AddMediaTags m names => Database.addMediaTags m names db
  | RemoveMediaTags m names => Database.removeMediaTags m names db
  | RemoveTagGlobally name => (Database.removeTagGlobally name db).1
  end.

(** The store after a sequence of calls, first call first. *)
Definition calls (absolutePath : string → string) (cs : list Call) (db : Db)
  : Db :=
  foldl (λ d c, call absolutePath c d) db cs.

(** What holds of the content of every store the program builds. *)
Record store_ok (db : Db) : Prop := mk_store_ok {
  ok_wf : wf db;
  ok_foreign_keys : foreign_keys db = false;
  ok_tags_exist : tags_exist db;
  ok_tag_names :
    ∀ t, t ∈ tags db →
         QString.isEmpty (tag_name t) = false
         ∧ normalize (tag_name t) = tag_name t;
  ok_status :
    ∀ r, r ∈ media db → col_status r = "active" ∨ col_status r = "deleted";
  ok_media_type :
    ∀ r, r ∈ media db → ∃ kind, media_type r = mediaTypeToString kind
}.

(** *** Query results *)

(** Record [a] may come before record [b] under the default order of
    [queryMedia], "modified_time_utc DESC, id DESC". *)
Definition newest_first (a b : MediaRecord) : Prop :=
  match modifiedTimeUtc a, modifiedTimeUtc b with
  | Some x, Some y => y < x ∨ (x = y ∧ rec_id b ≤ rec_id a)
  | Some _, None => True
  | None, Some _ => False
  | None, None => rec_id b ≤ rec_id a
  end.

(** Is [s] free of the wildcard characters of [LIKE]? *)
Fixpoint no_wildcard (s : string) : bool :=
  match s with
  | EmptyString => true
  | String c s' =>
      negb (Ascii.eqb c "%") && negb (Ascii.eqb c "_") && no_wildcard s'
  end.

(** *** Scans *)

(** Row [r] is still in store [db], with its id, path, root directory
    and file name. *)
Definition persists (r : MediaRow) (db : Db) : Prop :=
  ∃ r', r' ∈ media db ∧ id r' = id r ∧ file_path r' = file_path r
        ∧ root_dir r' = root_dir r ∧ file_name r' = file_name r.


(** Store [db'] has the tag tables and the connection setting of [db]. *)
Definition same_tags (db db' : Db) : Prop :=
  foreign_keys db' = foreign_keys db ∧ tags db' = tags db
  ∧ media_tags db' = media_tags db.

(** The store has an active row for path [f]. *)
Definition active_row (f : string) (db : Db) : Prop :=
  ∃ r, r ∈ media db ∧ file_path r = f ∧ col_status r = "active".

(** *** The thumbnail cache *)

(** An LRU cache of capacity [size] that holds no key twice, no more
    entries than its capacity, and no null pixmap. *)
Definition lru_ok (size : Z) (q : QCache.t) : Prop :=
  QCache.maxCost q = size
  ∧ NoDup (QCache.keys q)
  ∧ Z.of_nat (length (QCache.entries q)) ≤ Z.max 0 size
  ∧ ∀ e, e ∈ QCache.entries q → isNull e.2 = false.

(** What holds of a cache object built with [cacheSize] after any
    sequence of events. *)
Record cache_ok (cacheSize : Z) (c : ThumbnailCache) : Prop := mk_cache_ok {
  ok_lru : lru_ok cacheSize (m_cache c);
  ok_loaded :
    ∀ m p, thumbnailLoaded m p ∈ notifications c ++ posted c →
           isNull p = false;
  ok_pending :
    ∀ m, m ∈ m_pendingRequests c →
         ∃ t, t ∈ pool_queued c ++ pool_running c ∧ task_mediaId t = m
}.

(** *** The gallery model *)

(** The index of the model maps the id of the record at each row to
    that row and holds no other id. *)
Definition row_index_ok (g : GalleryModel) : Prop :=
  (∀ i r, m_records g !! i = Some r →
          m_idToRow g !! rec_id r = Some (Z.of_nat i))
  ∧ ∀ mediaId, mediaId ∉ rec_id <$> m_records g →
               m_idToRow g !! mediaId = None.

(** *** Rescanning *)








(** * Properties *)

(** ** Generic list facts *)

Section list_facts.
Context {A : Type}.

Lemma filter_all_true (P : A → Prop) `{∀ x, Decision (P x)} (l : list A) :
  (∀ x, x ∈ l → P x) → filter P l = l.
Proof.
  induction l as [|x l IH]; intros Hall; [done|].
  rewrite filter_cons_True; [|apply Hall; left].
  f_equal. apply IH. intros y Hy. apply Hall. by right.
Qed.

Lemma filter_none_true (P : A → Prop) `{∀ x, Decision (P x)} (l : list A) :
  (∀ x, x ∈ l → ¬ P x) → filter P l = [].
Proof.
  induction l as [|x l IH]; intros Hnone; [done|].
  rewrite filter_cons_False; [|apply Hnone; left].
  apply IH. intros y Hy. apply Hnone. by right.
Qed.

Lemma fmap_id_on (f : A → A) (l : list A) :
  (∀ x, x ∈ l → f x = x) → f <$> l = l.
Proof.
  induction l as [|x l IH]; intros Hf; [done|]. simpl.
  rewrite Hf; [|left]. f_equal. apply IH. intros y Hy. apply Hf. by right.
Qed.

Lemma fmap_fmap_same {B} (g : A → B) (f : A → A) (l : list A) :
  (∀ x, g (f x) = g x) → g <$> (f <$> l) = g <$> l.
Proof.
  intros Hgf. rewrite <- list_fmap_compose. apply list_fmap_ext.
  intros i x _. apply Hgf.
Qed.

Lemma NoDup_fmap_filter {B} (g : A → B) (P : A → Prop)
    `{∀ x, Decision (P x)} (l : list A) :
  NoDup (g <$> l) → NoDup (g <$> filter P l).
Proof.
  intros Hnd. eapply sublist_NoDup; [exact Hnd|]. apply fmap_sublist. by apply sublist_filter.
Qed.

Lemma NoDup_snoc_fresh (l : list A) (x : A) :
  NoDup l → x ∉ l → NoDup (l ++ [x]).
Proof.
  intros Hnd Hx. apply NoDup_app. split; [done|]. split.
  - intros y Hy Hin. apply list_elem_of_singleton in Hin. by subst.
  - apply NoDup_singleton.
Qed.
End list_facts.

Lemma next_rowid_bound (ids : list Z) (i : Z) : i ∈ ids → i < next_rowid ids.
Proof.
  unfold next_rowid. induction ids as [|j ids IH]; intros Hin.
  - by apply elem_of_nil in Hin.
  - apply elem_of_cons in Hin as [->|Hin]; simpl; [lia|].
    specialize (IH Hin). lia.
Qed.

Lemma next_rowid_fresh (ids : list Z) : next_rowid ids ∉ ids.
Proof. intros Hin. apply next_rowid_bound in Hin. lia. Qed.

Lemma next_rowid_pos (ids : list Z) : 0 < next_rowid ids.
Proof.
  unfold next_rowid. induction ids as [|j ids IH]; simpl; lia.
Qed.

(** ** The store keeps its schema constraints *)

Module DatabaseFacts.
Import Database.

Lemma wf_open_new : wf open_new.
Proof. split; simpl; try apply NoDup_nil_2. intros r Hr. by apply elem_of_nil in Hr. Qed.

Lemma wf_with_media db m :
  wf db → NoDup (id <$> m) → NoDup (file_path <$> m) →
  (∀ r, r ∈ m → 0 < id r) → wf (with_media db m).
Proof. intros [] ???. by split. Qed.

Lemma wf_with_tags db t :
  wf db → NoDup (tag_id <$> t) → NoDup (tag_name <$> t) → wf (with_tags db t).
Proof. intros [] ??. by split. Qed.

Lemma wf_with_media_tags db mt :
  wf db → NoDup mt → wf (with_media_tags db mt).
Proof. intros [] ?. by split. Qed.

(** Rewriting columns other than [id] and [file_path] keeps the media
    constraints. *)
Lemma wf_update_media db (f : MediaRow → MediaRow) :
  (∀ r, id (f r) = id r) → (∀ r, file_path (f r) = file_path r) →
  wf db → wf (with_media db (f <$> media db)).
Proof.
  intros Hid Hpath Hwf. apply wf_with_media; [done|..].
  - rewrite fmap_fmap_same; [apply Hwf|done].
  - rewrite fmap_fmap_same; [apply Hwf|done].
  - intros r' [r [-> Hr]]%list_elem_of_fmap. rewrite Hid. by apply Hwf.
Qed.

Lemma has_path_spec path rows :
  has_path path rows = true ↔ path ∈ file_path <$> rows.
Proof. unfold has_path. apply bool_decide_eq_true. Qed.

(** A record with its three bound members not null is written, and the
    id of the row of its path is returned. *)
Lemma upsertMedia_bound record db path root name :
  filePath record = Some path → rootDir record = Some root →
  fileName record = Some name →
  upsertMedia record db
  = (insert_or_update_row path root name record db,
     default 0
       (select_media_id path
          (insert_or_update_row path root name record db))).
Proof.
  intros Hp Hr Hn. unfold upsertMedia, insert_or_update_media.
  rewrite Hp, Hr, Hn. simpl. by destruct (select_media_id _ _).
Qed.

(** A record with a null path, root or name is refused. *)
Lemma upsertMedia_null record db :
  filePath record = None ∨ rootDir record = None ∨ fileName record = None →
  upsertMedia record db = (db, 0).
Proof.
  unfold upsertMedia, insert_or_update_media.
  intros [->| [H|H]]; [done|..];
    destruct (filePath record); rewrite ?H; try done;
    by destruct (rootDir record).
Qed.

Lemma upsertMedia_cases record db :
  upsertMedia record db = (db, 0)
  ∨ ∃ path root name,
      filePath record = Some path ∧ rootDir record = Some root
      ∧ fileName record = Some name
      ∧ upsertMedia record db
        = (insert_or_update_row path root name record db,
           default 0
             (select_media_id path
                (insert_or_update_row path root name record db))).
Proof.
  destruct (filePath record) as [path|] eqn:Hp;
    [|left; apply upsertMedia_null; by left].
  destruct (rootDir record) as [root|] eqn:Hr;
    [|left; apply upsertMedia_null; right; by left].
  destruct (fileName record) as [name|] eqn:Hn;
    [|left; apply upsertMedia_null; right; by right].
  right. exists path, root, name. split_and!; [done..|].
  by apply upsertMedia_bound.
Qed.

Lemma wf_insert_or_update_row path root name record db :
  wf db → wf (insert_or_update_row path root name record db).
Proof.
  intros Hwf. unfold insert_or_update_row.
  destruct (has_path _ _) eqn:Hp.
  - apply (wf_update_media db
             (λ r, if bool_decide (file_path r = path)
                   then update_on_conflict record r else r));
      [intros r; by case_bool_decide..|done].
  - apply wf_with_media; [done|..].
    + rewrite fmap_app. apply NoDup_snoc_fresh; [apply Hwf|].
      apply next_rowid_fresh.
    + rewrite fmap_app. apply NoDup_snoc_fresh; [apply Hwf|]. simpl.
      intros Hin. apply has_path_spec in Hin. congruence.
    + intros r [Hr|Hr]%elem_of_app; [by apply Hwf|].
      apply list_elem_of_singleton in Hr as ->. simpl. apply next_rowid_pos.
Qed.

Lemma upsertMedia_frame record db :
  foreign_keys (upsertMedia record db).1 = foreign_keys db
  ∧ max_variables (upsertMedia record db).1 = max_variables db
  ∧ tags (upsertMedia record db).1 = tags db
  ∧ media_tags (upsertMedia record db).1 = media_tags db.
Proof.
  destruct (upsertMedia_cases record db)
    as [->|(path & root & name & _ & _ & _ & ->)]; [done|].
  cbn [fst]. unfold insert_or_update_row. by destruct (has_path _ _).
Qed.

Lemma upsertMedia_media record db r' :
  r' ∈ media (upsertMedia record db).1 →
  r' ∈ media db
  ∨ (∃ i path root name, r' = row_of_record i path root name record)
  ∨ (∃ r, r ∈ media db ∧ r' = update_on_conflict record r).
Proof.
  destruct (upsertMedia_cases record db)
    as [->|(path & root & name & _ & _ & _ & ->)]; [by left|].
  cbn [fst]. unfold insert_or_update_row. destruct (has_path _ _); simpl.
  - intros [r [-> Hr]]%list_elem_of_fmap.
    case_bool_decide; [right; right; by exists r|by left].
  - intros [?|Hn%list_elem_of_singleton]%elem_of_app; [by left|].
    right; left. by eexists _, _, _, _.
Qed.

Lemma wf_upsertMedia record db : wf db → wf (upsertMedia record db).1.
Proof.
  intros Hwf.
  destruct (upsertMedia_cases record db)
    as [->|(path & root & name & _ & _ & _ & ->)]; [done|].
  by apply wf_insert_or_update_row.
Qed.

Lemma wf_deleteMedia path db : wf db → wf (deleteMedia path db).1.
Proof.
  intros Hwf. unfold deleteMedia. split; simpl; try apply Hwf.
  - apply NoDup_fmap_filter, Hwf.
  - apply NoDup_fmap_filter, Hwf.
  - intros r [_ Hr]%list_elem_of_filter. by apply Hwf.
  - destruct (foreign_keys db); [apply NoDup_filter|]; apply Hwf.
Qed.

Lemma wf_updateThumbnailPath path thumb db :
  wf db → wf (updateThumbnailPath path thumb db).1.
Proof.
  intros Hwf. unfold updateThumbnailPath. simpl.
  apply (wf_update_media db (λ r, if bool_decide (file_path r = path) then _ else r));
    [intros r; by case_bool_decide..|done].
Qed.

Lemma markMissingFilesDeleted_refused absolutePath paths root db :
  update_prepares paths db = false →
  markMissingFilesDeleted absolutePath paths root db = (db, 0).
Proof. unfold markMissingFilesDeleted. by intros ->. Qed.

Lemma markMissingFilesDeleted_executes absolutePath paths root db :
  update_prepares paths db = true →
  markMissingFilesDeleted absolutePath paths root db
  = (with_media db
       ((λ r, if missing_row absolutePath paths root r
              then set_status "deleted" r else r) <$> media db),
     Z.of_nat
       (length (filter (λ r, missing_row absolutePath paths root r = true)
                  (media db)))).
Proof. unfold markMissingFilesDeleted. by intros ->. Qed.

Lemma markMissingFilesDeleted_media absolutePath paths root db r' :
  r' ∈ media (markMissingFilesDeleted absolutePath paths root db).1 →
  ∃ r, r ∈ media db ∧ (r' = r ∨ r' = set_status "deleted" r).
Proof.
  unfold markMissingFilesDeleted. destruct (update_prepares paths db).
  - cbn [fst with_media media]. intros [r [-> Hr]]%list_elem_of_fmap.
    exists r. split; [done|]. destruct (missing_row _ _ _ _); auto.
  - intros Hr. exists r'. auto.
Qed.

Lemma wf_markMissingFilesDeleted absolutePath paths root db :
  wf db → wf (markMissingFilesDeleted absolutePath paths root db).1.
Proof.
  intros Hwf. unfold markMissingFilesDeleted.
  destruct (update_prepares paths db); [|done]. simpl.
  apply (wf_update_media db (λ r, if missing_row absolutePath paths root r then _ else r));
    [intros r; by destruct (missing_row _ _ _ _)..|done].
Qed.

Lemma wf_insert_tag_do_nothing name db :
  wf db → wf (insert_tag_do_nothing name db).
Proof.
  intros Hwf. unfold insert_tag_do_nothing. case_bool_decide; [done|].
  apply wf_with_tags; [done|..]; rewrite fmap_app;
    (apply NoDup_snoc_fresh; [apply Hwf|]); simpl; [apply next_rowid_fresh|done].
Qed.

Lemma wf_upsertTags names db : wf db → wf (upsertTags names db).1.
Proof.
  revert db. induction names as [|n names IH]; intros db Hwf; simpl; [done|].
  destruct (QString.isEmpty _); [by apply IH|].
  specialize (IH (insert_tag_do_nothing (normalize n) db)
                (wf_insert_tag_do_nothing _ _ Hwf)).
  by destruct (upsertTags names _).
Qed.

Lemma wf_insert_media_tag_ignore m t db :
  wf db → wf (insert_media_tag_ignore m t db).
Proof.
  intros Hwf. unfold insert_media_tag_ignore. case_bool_decide; [done|].
  destruct (_ && _); [done|].
  apply wf_with_media_tags; [done|]. apply NoDup_snoc_fresh; [apply Hwf|done].
Qed.

Lemma wf_insert_media_tags m ids db :
  wf db → wf (insert_media_tags m ids db).
Proof.
  unfold insert_media_tags. revert db.
  induction ids as [|t ids IH]; intros db Hwf; simpl; [done|].
  by apply IH, wf_insert_media_tag_ignore.
Qed.

Lemma wf_addMediaTags m names db : wf db → wf (addMediaTags m names db).
Proof.
  intros Hwf. unfold addMediaTags.
  pose proof (wf_upsertTags names db Hwf) as H1.
  destruct (upsertTags names db). by apply wf_insert_media_tags.
Qed.

Lemma wf_setMediaTags m names db : wf db → wf (setMediaTags m names db).
Proof.
  intros Hwf. unfold setMediaTags.
  pose proof (wf_upsertTags names db Hwf) as H1.
  destruct (upsertTags names db) as [db1 ids]. apply wf_insert_media_tags.
  apply wf_with_media_tags; [done|]. apply NoDup_filter, H1.
Qed.

Lemma wf_delete_media_tag m t db : wf db → wf (delete_media_tag m t db).
Proof. intros Hwf. apply wf_with_media_tags; [done|]. apply NoDup_filter, Hwf. Qed.

Lemma wf_removeMediaTags m names db : wf db → wf (removeMediaTags m names db).
Proof.
  intros Hwf. unfold removeMediaTags. destruct names as [|n names]; [done|].
  destruct (normalized_nonempty _) as [|n0 ns]; [done|].
  generalize (select_tag_ids_in (n0 :: ns) db). intros ids. revert db Hwf.
  induction ids as [|t ids IH]; intros db Hwf; simpl; [done|].
  by apply IH, wf_delete_media_tag.
Qed.

Lemma wf_removeTagGlobally name db : wf db → wf (removeTagGlobally name db).1.
Proof.
  intros Hwf. unfold removeTagGlobally.
  destruct (QString.isEmpty _); [done|].
  destruct (select_tag_id _ _) as [tagId|]; [|done]. simpl.
  assert (wf (with_media_tags db (filter (λ a, mt_tag_id a ≠ tagId) (media_tags db)))) as H1.
  { apply wf_with_media_tags; [done|]. apply NoDup_filter, Hwf. }
  case_bool_decide; [done|].
  apply wf_with_tags; [done|..]; apply NoDup_fmap_filter, Hwf.
Qed.

End DatabaseFacts.

Module TagLifetime.
Import Database.

Lemma foldl_delete_media_tag_tags m ids db :
  tags (foldl (λ d tagId, delete_media_tag m tagId d) db ids) = tags db.
Proof.
  revert db. induction ids as [|t ids IH]; intros db; simpl; [done|].
  by rewrite IH.
Qed.

Lemma foldl_delete_media_tag_rows m ids db :
  media_tags (foldl (λ d tagId, delete_media_tag m tagId d) db ids)
  = filter (λ a, ¬ (mt_media_id a = m ∧ mt_tag_id a ∈ ids)) (media_tags db).
Proof.
  revert db. induction ids as [|t ids IH]; intros db; simpl.
  - symmetry. apply filter_all_true. intros a _ [_ Hin].
    by apply elem_of_nil in Hin.
  - rewrite IH. simpl. rewrite list_filter_filter.
    apply list_filter_iff. intros a. rewrite elem_of_cons. tauto.
Qed.

Lemma select_tag_ids_in_nil db : select_tag_ids_in [] db = [].
Proof.
  unfold select_tag_ids_in. rewrite filter_none_true; [done|].
  intros t _. apply not_elem_of_nil.
Qed.

Lemma removeMediaTags_tags m names db :
  tags (removeMediaTags m names db) = tags db.
Proof.
  unfold removeMediaTags. destruct names as [|n names]; [done|].
  destruct (normalized_nonempty (n :: names)); [done|].
  apply foldl_delete_media_tag_tags.
Qed.

Lemma removeMediaTags_media_tags m names db :
  media_tags (removeMediaTags m names db)
  = filter (λ a, ¬ (mt_media_id a = m
                    ∧ mt_tag_id a
                      ∈ select_tag_ids_in (normalized_nonempty names) db))
      (media_tags db).
Proof.
  assert (∀ l : list MediaTagRow,
            l = filter (λ a, ¬ (mt_media_id a = m
                                ∧ mt_tag_id a ∈ select_tag_ids_in [] db)) l)
    as Hnil.
  { intros l. symmetry. apply filter_all_true. intros a _ [_ Hin].
    rewrite select_tag_ids_in_nil in Hin. by apply elem_of_nil in Hin. }
  unfold removeMediaTags. destruct names as [|n names]; [apply Hnil|].
  destruct (normalized_nonempty (n :: names)) eqn:E; [apply Hnil|].
  apply foldl_delete_media_tag_rows.
Qed.

(** C1, as the code has it: [removeMediaTags] deletes exactly the
    association rows of the given media whose tag is named, after
    normalisation, in the argument, and leaves table [tags] as it is;
    [allTags] therefore returns the same list before and after, also
    when the last association of a tag was removed. *)
Theorem removeMediaTags_keeps_tag_rows (mediaId : Z) (tagNames : list string)
    (db : Db) :
  tags (removeMediaTags mediaId tagNames db) = tags db
  ∧ allTags (removeMediaTags mediaId tagNames db) = allTags db
  ∧ media_tags (removeMediaTags mediaId tagNames db)
    = filter (λ a, ¬ (mt_media_id a = mediaId
                      ∧ mt_tag_id a
                        ∈ select_tag_ids_in (normalized_nonempty tagNames) db))
        (media_tags db).
Proof.
  split; [apply removeMediaTags_tags|]. split.
  - unfold allTags. by rewrite removeMediaTags_tags.
  - apply removeMediaTags_media_tags.
Qed.

(** C1 fails as stated: A is the only media tagged "z"; after
    [removeMediaTags(A, {"z"})] no association is left, and "z" is
    still listed by [allTags]. *)
Lemma last_association_removed_tag_still_listed :
  getMediaTags 1 Samples.db_a_z = ["z"]
  ∧ media_tags (removeMediaTags 1 ["z"] Samples.db_a_z) = []
  ∧ allTags (removeMediaTags 1 ["z"] Samples.db_a_z) = ["z"].
Proof. vm_compute. done. Qed.

(** Tag rows are only ever appended by the operations that add tags. *)
Lemma upsertTags_tags_prefix names db :
  tags db `prefix_of` tags (upsertTags names db).1.
Proof.
  revert db. induction names as [|n names IH]; intros db; simpl; [done|].
  destruct (QString.isEmpty _); [apply IH|].
  specialize (IH (insert_tag_do_nothing (normalize n) db)).
  destruct (upsertTags names _) as [db2 ids]. simpl in *.
  etrans; [|exact IH]. unfold insert_tag_do_nothing.
  case_bool_decide; [done|]. simpl. by apply prefix_app_r.
Qed.

Lemma insert_media_tags_tags m ids db :
  tags (insert_media_tags m ids db) = tags db.
Proof.
  unfold insert_media_tags. revert db.
  induction ids as [|t ids IH]; intros db; simpl; [done|].
  rewrite IH. unfold insert_media_tag_ignore.
  case_bool_decide; [done|]. by destruct (_ && _).
Qed.

Lemma addMediaTags_tags_prefix m names db :
  tags db `prefix_of` tags (addMediaTags m names db).
Proof.
  unfold addMediaTags. pose proof (upsertTags_tags_prefix names db) as H.
  destruct (upsertTags names db). by rewrite insert_media_tags_tags.
Qed.

Lemma setMediaTags_tags_prefix m names db :
  tags db `prefix_of` tags (setMediaTags m names db).
Proof.
  unfold setMediaTags. pose proof (upsertTags_tags_prefix names db) as H.
  destruct (upsertTags names db). by rewrite insert_media_tags_tags.
Qed.

(** The one operation that deletes a tag row: [removeTagGlobally]
    removes every association of the tag and then the row itself. *)
Lemma removeTagGlobally_deletes_row name db tagId :
  select_tag_id (normalize name) db = Some tagId →
  QString.isEmpty (normalize name) = false →
  (tagId ∉ tag_id <$> tags (removeTagGlobally name db).1)
  ∧ (tagId ∉ mt_tag_id <$> media_tags (removeTagGlobally name db).1).
Proof.
  intros Hsel Hne. unfold removeTagGlobally. rewrite Hne, Hsel.
  assert (tagId ∉ (mt_tag_id <$> filter (λ a, mt_tag_id a ≠ tagId) (media_tags db)))
    as Hgone.
  { intros [a [-> [Ha _]%list_elem_of_filter]]%list_elem_of_fmap. done. }
  simpl. case_bool_decide as Hin; [done|]. simpl. split; [|done].
  intros [t [-> [Ht _]%list_elem_of_filter]]%list_elem_of_fmap. done.
Qed.

End TagLifetime.

Module ForeignKeys.
Import Database.

(** The program never issues [PRAGMA foreign_keys]: the setting of a
    connection is the one it was opened with. *)
Lemma open_new_foreign_keys : foreign_keys open_new = false.
Proof. reflexivity. Qed.

Lemma deleteMedia_without_cascade path db :
  foreign_keys db = false →
  media_tags (deleteMedia path db).1 = media_tags db.
Proof. intros Hfk. unfold deleteMedia. simpl. by rewrite Hfk. Qed.

(** What the schema's [ON DELETE CASCADE] does on a connection that
    enforces foreign keys. *)
Lemma deleteMedia_with_cascade path db r a :
  foreign_keys db = true →
  r ∈ media db → file_path r = path →
  a ∈ media_tags (deleteMedia path db).1 → mt_media_id a ≠ id r.
Proof.
  intros Hfk Hr Hp. unfold deleteMedia. simpl. rewrite Hfk.
  intros [Hnot _]%list_elem_of_filter Heq. apply Hnot. rewrite Heq.
  apply list_elem_of_fmap_2. apply list_elem_of_filter. done.
Qed.

(** C3 at the failing input: A is tagged "x" (media id 1, tag id 1);
    after [deleteMedia("/r/a.jpg")] the media table is empty and the
    [media_tags] row (1, 1) is still there, referencing no media row. *)
Theorem deleteMedia_leaves_association :
  let db := addMediaTags 1 ["x"] (upsertMedia Samples.rec_a open_new).1 in
  let db' := (deleteMedia "/r/a.jpg" db).1 in
  (deleteMedia "/r/a.jpg" db).2 = true
  ∧ media db' = []
  ∧ media_tags db' = [{| mt_media_id := 1; mt_tag_id := 1 |}].
Proof. vm_compute. done. Qed.

(** The row left behind is picked up by the next file indexed: the new
    row gets rowid 1 again and appears tagged "x". *)
Lemma stale_association_attaches_to_new_media :
  let db := addMediaTags 1 ["x"] (upsertMedia Samples.rec_a open_new).1 in
  let db' := (deleteMedia "/r/a.jpg" db).1 in
  let db'' := (upsertMedia Samples.rec_b db').1 in
  let newId := (upsertMedia Samples.rec_b db').2 in
  newId = 1 ∧ getMediaTags newId db'' = ["x"].
Proof. vm_compute. done. Qed.

End ForeignKeys.

Module SoftDelete.
Import Database.

Section with_paths.
Context (absolutePath : string → string).

Lemma missing_row_spec paths root r :
  missing_row absolutePath paths root r = true
  ↔ root_dir r = absolutePath root ∧ col_status r = "active"
    ∧ file_path r ∉ paths.
Proof.
  unfold missing_row. destruct paths as [|p paths].
  - rewrite andb_true_iff, !String.eqb_eq. split; [|tauto].
    intros [??]. split_and!; [done..|apply not_elem_of_nil].
  - rewrite !andb_true_iff, !String.eqb_eq, negb_true_iff,
      bool_decide_eq_false. tauto.
Qed.

Lemma update_prepares_false paths db :
  update_prepares paths db = false
  ↔ paths ≠ [] ∧ max_variables db < 1 + Z.of_nat (length paths).
Proof.
  unfold update_prepares. destruct paths as [|p paths].
  - split; [done|]. by intros [? _].
  - rewrite bool_decide_eq_false. split; [|intros [_ ?]; lia].
    intros ?. split; [done|lia].
Qed.

Lemma update_prepares_true paths db :
  update_prepares paths db = true
  ↔ paths = [] ∨ 1 + Z.of_nat (length paths) ≤ max_variables db.
Proof.
  unfold update_prepares. destruct paths as [|p paths].
  - split; [by left|done].
  - rewrite bool_decide_eq_true. split; [by right|]. by intros [?|?].
Qed.

(** When the statement executes - no observed path, or no more host
    parameters than the connection allows - [markMissingFilesDeleted]
    sets [status='deleted'] on exactly the rows that are active, have
    [root_dir] equal to the (absolute) root directory and whose path is
    not among the observed paths; every other row and the other tables
    are unchanged, and the result counts those rows. *)
Lemma markMissingFilesDeleted_within_limit (existingPaths : list string)
    (rootDir : string) (db : Db) :
  existingPaths = []
  ∨ 1 + Z.of_nat (length existingPaths) ≤ max_variables db →
  let db' := (markMissingFilesDeleted absolutePath existingPaths rootDir db).1 in
  media db'
  = (λ r, if bool_decide (root_dir r = absolutePath rootDir
                          ∧ col_status r = "active"
                          ∧ file_path r ∉ existingPaths)
          then marked_deleted r else r) <$> media db
  ∧ tags db' = tags db
  ∧ media_tags db' = media_tags db
  ∧ (markMissingFilesDeleted absolutePath existingPaths rootDir db).2
    = Z.of_nat
        (length (filter (λ r, root_dir r = absolutePath rootDir
                              ∧ col_status r = "active"
                              ∧ file_path r ∉ existingPaths) (media db))).
Proof.
  intros Hok%update_prepares_true.
  rewrite (DatabaseFacts.markMissingFilesDeleted_executes _ _ _ _ Hok).
  simpl. split_and!; [|done|done|].
  - apply list_fmap_ext. intros _ r _.
    destruct (missing_row _ _ _ r) eqn:E.
    + apply missing_row_spec in E. by rewrite bool_decide_eq_true_2.
    + rewrite bool_decide_eq_false_2; [done|].
      intros H. apply missing_row_spec in H. congruence.
  - do 2 f_equal. apply list_filter_iff. intros r. apply missing_row_spec.
Qed.

(** A list that needs more host parameters than the connection allows:
    the statement is refused, nothing is soft-deleted and the result
    is 0. *)
Lemma markMissingFilesDeleted_above_limit (existingPaths : list string)
    (rootDir : string) (db : Db) :
  max_variables db < 1 + Z.of_nat (length existingPaths) →
  existingPaths ≠ [] →
  markMissingFilesDeleted absolutePath existingPaths rootDir db = (db, 0).
Proof.
  intros Hmax Hne. apply DatabaseFacts.markMissingFilesDeleted_refused.
  by apply update_prepares_false.
Qed.

(** Whether the statement executes or not, only column [status] of
    rows of table [media] can change. *)
Lemma markMissingFilesDeleted_frame (existingPaths : list string)
    (rootDir : string) (db : Db) :
  let db' := (markMissingFilesDeleted absolutePath existingPaths rootDir db).1 in
  tags db' = tags db ∧ media_tags db' = media_tags db
  ∧ foreign_keys db' = foreign_keys db
  ∧ max_variables db' = max_variables db.
Proof.
  unfold markMissingFilesDeleted. by destruct (update_prepares _ _).
Qed.

End with_paths.

Lemma listing_length n : 0 ≤ n → Z.of_nat (length (Samples.listing n)) = n.
Proof.
  intros Hn. unfold Samples.listing. rewrite length_fmap, length_seqZ. lia.
Qed.

Lemma listing_other n : "/r/a.jpg" ∉ Samples.listing n.
Proof.
  unfold Samples.listing. intros (i & Heq & _)%list_elem_of_fmap.
  unfold String.app in Heq. simpl in Heq. discriminate.
Qed.

(** C6 fails for a long list of observed paths: the store holds the
    active row of "/r/a.jpg" under root "/r", the listing has 32766
    other files, so the [UPDATE] needs 32767 host parameters, one more
    than the connection allows; it is refused, the row stays active
    and the result is 0, although the row is active, under the root
    and not among the observed paths. *)
Lemma markMissingFilesDeleted_long_list_deletes_nothing :
  let db := (upsertMedia Samples.rec_a open_new).1 in
  let observed := Samples.listing SQLITE_MAX_VARIABLE_NUMBER in
  (λ r, (file_path r, root_dir r, col_status r)) <$> media db
  = [("/r/a.jpg", "/r", "active")]
  ∧ Z.of_nat (length observed) = 32766
  ∧ ("/r/a.jpg" ∉ observed)
  ∧ markMissingFilesDeleted Samples.same_path observed "/r" db = (db, 0).
Proof.
  cbn zeta. split_and!.
  - by vm_compute.
  - by apply listing_length.
  - apply listing_other.
  - apply markMissingFilesDeleted_above_limit.
    + rewrite listing_length by done. by vm_compute.
    + intros Hnil. pose proof (listing_length SQLITE_MAX_VARIABLE_NUMBER) as H.
      rewrite Hnil in H. by specialize (H ltac:(done)).
Qed.

End SoftDelete.

Module TagQuery.
Import Database.

Lemma remove_dups_length_le {A} `{EqDecision A} (l : list A) :
  (length (remove_dups l) ≤ length l)%nat.
Proof.
  induction l as [|x l IH]; simpl; [done|]. case_decide; simpl; lia.
Qed.

Lemma remove_dups_length_lt {A} `{EqDecision A} (l : list A) :
  ¬ NoDup l → (length (remove_dups l) < length l)%nat.
Proof.
  induction l as [|x l IH]; intros Hdup; simpl.
  - destruct Hdup. apply NoDup_nil_2.
  - case_decide as Hin.
    + pose proof (remove_dups_length_le l). lia.
    + simpl. apply Nat.succ_lt_mono in IH; [lia|].
      intros Hnd. apply Hdup. by apply NoDup_cons.
Qed.

Lemma lookup_twice_not_NoDup {A} (l : list A) (i j : nat) (x : A) :
  i ≠ j → l !! i = Some x → l !! j = Some x → ¬ NoDup l.
Proof.
  intros Hij Hi Hj Hnd. apply Hij.
  by eapply NoDup_lookup.
Qed.

(** At most one tag row per requested name: the tag ids selected for a
    list of names are no more than the distinct names. *)
Lemma select_tag_ids_in_length names db :
  NoDup (tag_name <$> tags db) →
  (length (select_tag_ids_in names db) ≤ length (remove_dups names))%nat.
Proof.
  intros Hnd. unfold select_tag_ids_in.
  rewrite length_fmap, <- (length_fmap tag_name).
  apply submseteq_length, NoDup_submseteq.
  - by apply NoDup_fmap_filter.
  - intros n [t [-> [Ht _]%list_elem_of_filter]]%list_elem_of_fmap.
    by apply elem_of_remove_dups.
Qed.

Lemma count_distinct_tag_id_bound m names db :
  count_distinct_tag_id m (matching_associations names db)
  ≤ Z.of_nat (length (select_tag_ids_in names db)).
Proof.
  unfold count_distinct_tag_id. apply inj_le.
  apply submseteq_length, NoDup_submseteq; [apply NoDup_remove_dups|].
  intros t [a [-> [_ Ha]%list_elem_of_filter]]%elem_of_remove_dups%list_elem_of_fmap.
  unfold matching_associations in Ha. by apply list_elem_of_filter in Ha as [? _].
Qed.

Lemma limit_offset_nil {A} limit offset : @limit_offset A limit offset [] = [].
Proof.
  unfold limit_offset. rewrite drop_nil. case_bool_decide; [done|].
  apply take_nil.
Qed.


Section with_paths.
Context (absolutePath : string → string).

(** C10: with [matchAll] and two requested tags that normalise to the
    same name, the required count is the length of the list, which no
    group of associations reaches; the query returns no record and
    total count 0 whatever the store holds. *)
Theorem queryMedia_matchAll_duplicate_tag (requiredTags : list string)
    (searchText : string) (limit offset : Z)
    (orderBy : MediaRow → MediaRow → bool) (rootDir : string) (db : Db)
    (i j : nat) (a b : string) :
  wf db →
  i ≠ j → requiredTags !! i = Some a → requiredTags !! j = Some b →
  normalize a = normalize b →
  queryMedia absolutePath requiredTags searchText limit offset orderBy
    rootDir true db
  = {| records := []; totalCount := 0 |}.
Proof.
  intros Hwf Hij Hi Hj Hab.
  assert (¬ NoDup (normalize <$> requiredTags)) as Hdup.
  { apply (lookup_twice_not_NoDup _ i j (normalize a)); [done|..];
      rewrite list_lookup_fmap; [by rewrite Hi|by rewrite Hj, Hab]. }
  assert (∀ r, query_where absolutePath requiredTags searchText rootDir
                 true db r = false) as Hwhere.
  { intros r. unfold query_where.
    destruct requiredTags as [|t0 rest]; [by rewrite lookup_nil in Hi|].
    set (names := normalize <$> t0 :: rest) in *.
    rewrite (bool_decide_eq_false_2 (id r ∈ _)).
    { by rewrite andb_false_r. }
    unfold select_media_ids_match_all.
    intros [Hcount _]%list_elem_of_filter.
    pose proof (count_distinct_tag_id_bound (id r) names db).
    pose proof (select_tag_ids_in_length names db (wf_tag_name _ Hwf)).
    pose proof (remove_dups_length_lt names Hdup). lia. }
  unfold queryMedia. rewrite filter_none_true.
  - change (merge_sort (order_by orderBy) []) with (@nil MediaRow).
    by rewrite limit_offset_nil.
  - intros r _. rewrite Hwhere. done.
Qed.








End with_paths.

(** The example of C4, evaluated: A, B, C have ids 1, 2, 3. *)
Lemma queryMedia_example_and_or :
  rec_id <$> records (queryMedia Samples.same_path ["x"; "y"] "" 200 0
                        modified_desc_id_desc "" true Samples.db_abc)
  = [1]
  ∧ totalCount (queryMedia Samples.same_path ["x"; "y"] "" 200 0
                  modified_desc_id_desc "" true Samples.db_abc) = 1
  ∧ rec_id <$> records (queryMedia Samples.same_path ["x"; "y"] "" 200 0
                          modified_desc_id_desc "" false Samples.db_abc)
    = [3; 2; 1]
  ∧ totalCount (queryMedia Samples.same_path ["x"; "y"] "" 200 0
                  modified_desc_id_desc "" false Samples.db_abc) = 3.
Proof. vm_compute. done. Qed.

End TagQuery.

Module TagCounts.
Import Database.

Lemma filter_unique_key {A B} (f : A → B) (P : A → Prop)
    `{∀ x, Decision (P x)} (k : B) (l : list A) :
  NoDup (f <$> l) → (∀ x, P x → f x = k) → (length (filter P l) ≤ 1)%nat.
Proof.
  intros Hnd Hk. induction l as [|x l IH]; simpl; [lia|].
  apply NoDup_cons in Hnd as [Hx Hnd]. rewrite filter_cons.
  case_decide as HP; [|by apply IH]. simpl.
  rewrite filter_none_true; [done|].
  intros y Hy HPy. apply Hx. rewrite (Hk x HP), <- (Hk y HPy).
  by apply list_elem_of_fmap_2.
Qed.

Lemma filter_fst {A B} (P : A → Prop) (Q : A * B → Prop)
    `{∀ x, Decision (P x)} `{∀ row, Decision (Q row)} (l : list (A * B)) :
  (∀ row, Q row ↔ P row.1) →
  fst <$> filter Q l = filter P (fst <$> l).
Proof.
  intros HPQ. induction l as [|x l IH]; [done|].
  rewrite fmap_cons, !filter_cons. specialize (HPQ x).
  destruct (decide (P x.1)), (decide (Q x)); try tauto;
    rewrite ?fmap_cons; by rewrite IH.
Qed.

Lemma left_join_cons {A B} (on : A → B → bool) a l r :
  left_join on (a :: l) r
  = match filter (λ b, on a b = true) r with
    | [] => [(a, None)]
    | bs => (λ b, (a, Some b)) <$> bs
    end ++ left_join on l r.
Proof. reflexivity. Qed.

(** A left join against a table in which each left row has at most one
    partner returns each left row exactly once. *)
Lemma left_join_fst_unique {A B} (on : A → B → bool) l r :
  (∀ a, a ∈ l → (length (filter (λ b, on a b = true) r) ≤ 1)%nat) →
  fst <$> left_join on l r = l.
Proof.
  induction l as [|a l IH]; intros Hone; [done|].
  rewrite left_join_cons, fmap_app, IH by (intros; apply Hone; by right).
  specialize (Hone a (ltac:(left))).
  destruct (filter _ r) as [|b [|b' bs]]; simpl in *; [done|done|lia].
Qed.

Lemma tag_block_fst db t tm : tm ∈ tag_block db t → tm.1 = t.
Proof.
  unfold tag_block. destruct (filter _ _) as [|b bs].
  - by intros ->%list_elem_of_singleton.
  - by intros [? [-> _]]%list_elem_of_fmap.
Qed.

Lemma tag_block_nonempty db t : tag_block db t ≠ [].
Proof. unfold tag_block. by destruct (filter _ _). Qed.

Lemma tag_block_count db t :
  Z.of_nat (length (filter (λ tm, is_Some tm.2) (tag_block db t)))
  = association_count db t.
Proof.
  unfold tag_block, association_count.
  rewrite (list_filter_iff _ (λ a, mt_tag_id a = tag_id t))
    by (intros; apply bool_decide_eq_true).
  destruct (filter _ (media_tags db)) as [|b bs]; [done|].
  rewrite filter_all_true, length_fmap; [done|].
  intros tm [? [-> _]]%list_elem_of_fmap. by eexists.
Qed.

Lemma first_join_blocks db :
  left_join (λ t mt, bool_decide (mt_tag_id mt = tag_id t))
    (tags db) (media_tags db)
  = tags db ≫= tag_block db.
Proof. reflexivity. Qed.

Lemma filter_blocks_other db g ts :
  g ∉ (tag_id <$> ts) →
  filter (λ tm, tag_id tm.1 = g) (ts ≫= tag_block db) = [].
Proof.
  intros Hg. apply filter_none_true.
  intros tm [t [Htm Ht]]%list_elem_of_bind Heq. apply Hg.
  rewrite (tag_block_fst _ _ _ Htm) in Heq. subst g.
  by apply list_elem_of_fmap_2.
Qed.

Lemma filter_blocks_tag db ts t :
  NoDup (tag_id <$> ts) → t ∈ ts →
  filter (λ tm, tag_id tm.1 = tag_id t) (ts ≫= tag_block db)
  = tag_block db t.
Proof.
  induction ts as [|t0 ts IH]; intros Hnd Ht; [by apply elem_of_nil in Ht|].
  apply NoDup_cons in Hnd as [Ht0 Hnd].
  rewrite bind_cons, filter_app.
  destruct (decide (t = t0)) as [->|Hne].
  - rewrite filter_blocks_other by done.
    rewrite filter_all_true, app_nil_r; [done|].
    intros tm Htm. by rewrite (tag_block_fst _ _ _ Htm).
  - apply elem_of_cons in Ht as [?|Ht]; [done|].
    rewrite IH by done. rewrite filter_none_true; [done|].
    intros tm Htm Heq. rewrite (tag_block_fst _ _ _ Htm) in Heq.
    apply Ht0. rewrite Heq. by apply list_elem_of_fmap_2.
Qed.

Lemma remove_dups_constant_prefix {A} `{EqDecision A} (x : A) (l1 l2 : list A) :
  l1 ≠ [] → (∀ y, y ∈ l1 → y = x) → x ∉ l2 →
  remove_dups (l1 ++ l2) = x :: remove_dups l2.
Proof.
  induction l1 as [|y l1 IH]; intros Hne Hall Hx; [done|].
  assert (y = x) as -> by (apply Hall; left).
  destruct l1 as [|z l1]; simpl; case_decide as Hin.
  - done.
  - done.
  - apply IH; [done| |done]. intros ??. apply Hall. by right.
  - exfalso. apply Hin.
    assert (z = x) as -> by (apply Hall; right; left). left.
Qed.

Lemma groups_of_blocks db ts :
  NoDup (tag_id <$> ts) →
  remove_dups ((λ tm, tag_id tm.1) <$> (ts ≫= tag_block db)) = tag_id <$> ts.
Proof.
  induction ts as [|t ts IH]; intros Hnd; [done|].
  apply NoDup_cons in Hnd as [Ht Hnd].
  rewrite bind_cons, fmap_app.
  rewrite (remove_dups_constant_prefix (tag_id t)).
  - by rewrite IH.
  - pose proof (tag_block_nonempty db t). by destruct (tag_block db t).
  - intros g [tm [-> Htm]]%list_elem_of_fmap.
    by rewrite (tag_block_fst _ _ _ Htm).
  - intros [tm [Hg [t' [Htm Ht']]%list_elem_of_bind]]%list_elem_of_fmap.
    apply Ht. rewrite Hg, (tag_block_fst _ _ _ Htm).
    by apply list_elem_of_fmap_2.
Qed.

(** The second join adds nothing: [media.id] is a key, so each row of
    the first join has at most one partner. *)
Lemma tagCounts_join_fst db :
  NoDup (id <$> media db) →
  fst <$> tagCounts_join db = tags db ≫= tag_block db.
Proof.
  intros Hnd. unfold tagCounts_join. rewrite left_join_fst_unique; [done|].
  intros [t [mt|]] _; simpl.
  - apply (filter_unique_key id _ (mt_media_id mt)); [done|]. simpl.
    intros m [Hm _]%andb_true_iff. by apply bool_decide_eq_true in Hm.
  - rewrite filter_none_true; [simpl; lia|]. by intros m _.
Qed.

Lemma omap_fmap_all_Some {A B C} (f : B → option C) (h : A → B) (g : A → C)
    (l : list A) :
  (∀ x, x ∈ l → f (h x) = Some (g x)) → omap f (h <$> l) = g <$> l.
Proof.
  induction l as [|x l IH]; intros Hf; [done|].
  rewrite !fmap_cons.
  change (omap f (h x :: (h <$> l)))
    with (match f (h x) with
          | Some y => y :: omap f (h <$> l)
          | None => omap f (h <$> l)
          end).
  rewrite Hf by left. rewrite IH; [done|]. intros; apply Hf; by right.
Qed.

Lemma tagCounts_group_of_tag db t :
  wf db → t ∈ tags db →
  tagCounts_group (tagCounts_join db) (tag_id t)
  = Some (tag_name t, association_count db t).
Proof.
  intros Hwf Ht.
  pose proof (tagCounts_join_fst db (wf_media_id _ Hwf)) as Hfst.
  assert (fst <$> filter (λ row, tag_id row.1.1 = tag_id t) (tagCounts_join db)
          = tag_block db t) as Hgrp.
  { rewrite (filter_fst (λ tm : TagRow * option MediaTagRow,
                           tag_id tm.1 = tag_id t)
               (λ row : TagRow * option MediaTagRow * option MediaRow,
                  tag_id row.1.1 = tag_id t)) by done.
    rewrite Hfst. apply filter_blocks_tag; [apply Hwf|done]. }
  unfold tagCounts_group.
  assert (length (filter (λ row : TagRow * option MediaTagRow * option MediaRow,
                            is_Some row.1.2)
                    (filter (λ row, tag_id row.1.1 = tag_id t)
                       (tagCounts_join db)))
          = length (filter (λ tm, is_Some tm.2) (tag_block db t))) as Hlen.
  { rewrite <- Hgrp.
    rewrite <- (filter_fst (λ tm : TagRow * option MediaTagRow,
                              is_Some tm.2)
                  (λ row : TagRow * option MediaTagRow * option MediaRow,
                     is_Some row.1.2)) by done.
    by rewrite length_fmap. }
  cbv zeta. rewrite Hlen, tag_block_count.
  destruct (filter (λ row, tag_id row.1.1 = tag_id t) (tagCounts_join db))
    as [|row grp] eqn:E.
  - pose proof (tag_block_nonempty db t). by rewrite <- Hgrp in *.
  - do 3 f_equal. apply (tag_block_fst db t). rewrite <- Hgrp. left.
Qed.

Lemma tagCounts_unsorted db :
  wf db →
  omap (tagCounts_group (tagCounts_join db))
    (remove_dups ((λ row, tag_id row.1.1) <$> tagCounts_join db))
  = (λ t, (tag_name t, association_count db t)) <$> tags db.
Proof.
  intros Hwf.
  pose proof (tagCounts_join_fst db (wf_media_id _ Hwf)) as Hfst.
  assert ((λ row : TagRow * option MediaTagRow * option MediaRow,
             tag_id row.1.1) <$> tagCounts_join db
          = (λ tm, tag_id tm.1) <$> (tags db ≫= tag_block db)) as ->.
  { rewrite <- Hfst, <- list_fmap_compose. done. }
  rewrite groups_of_blocks by apply Hwf.
  apply omap_fmap_all_Some. intros t Ht.
  by apply tagCounts_group_of_tag.
Qed.

Lemma tagCounts_characterised db :
  wf db →
  tagCounts db
  = merge_sort (order_by by_name_asc)
      ((λ t, (tag_name t, association_count db t)) <$> tags db).
Proof. intros Hwf. unfold tagCounts. by rewrite tagCounts_unsorted. Qed.

(** C9: the count reported for a tag is the number of its [media_tags]
    rows, whatever the status of the media they point to; marking files
    deleted leaves every count as it was. *)
Theorem tagCounts_ignores_status (db : Db) :
  wf db →
  tagCounts db
  = merge_sort (order_by by_name_asc)
      ((λ t, (tag_name t,
              Z.of_nat (length (filter (λ a, mt_tag_id a = tag_id t)
                                  (media_tags db))))) <$> tags db)
  ∧ ∀ absolutePath existingPaths rootDir,
      tagCounts (markMissingFilesDeleted absolutePath existingPaths
                   rootDir db).1
      = tagCounts db.
Proof.
  intros Hwf. split; [by apply tagCounts_characterised|].
  intros abs paths root.
  rewrite !tagCounts_characterised;
    [|done|by apply DatabaseFacts.wf_markMissingFilesDeleted].
  destruct (SoftDelete.markMissingFilesDeleted_frame abs paths root db)
    as (Ht & Hmt & _).
  unfold association_count. by rewrite Ht, Hmt.
Qed.

End TagCounts.

(** ** Witnesses for the store theorems *)

Module StoreWitnesses.
Import Database.

Lemma wf_db_abc : wf Samples.db_abc.
Proof.
  unfold Samples.db_abc, Samples.db_media.
  do 3 apply DatabaseFacts.wf_addMediaTags.
  do 3 apply DatabaseFacts.wf_upsertMedia.
  apply DatabaseFacts.wf_open_new.
Qed.

Lemma wf_db_abc_deleted : wf Samples.db_abc_deleted.
Proof. apply DatabaseFacts.wf_markMissingFilesDeleted, wf_db_abc. Qed.

Lemma tagCounts_after_soft_delete :
  col_status <$> media Samples.db_abc_deleted
  = ["deleted"; "deleted"; "deleted"]
  ∧ tagCounts Samples.db_abc_deleted = [("x", 2); ("y", 2)].
Proof. vm_compute. done. Qed.

Lemma queryMedia_matchAll_duplicate_tag_witness :
  wf Samples.db_abc
  ∧ (0 ≠ 1)%nat
  ∧ ["x"; " X "] !! 0%nat = Some "x"
  ∧ ["x"; " X "] !! 1%nat = Some " X "
  ∧ normalize "x" = normalize " X "
  ∧ queryMedia Samples.same_path ["x"; " X "] "" 200 0
      modified_desc_id_desc "" true Samples.db_abc
    = {| records := []; totalCount := 0 |}.
Proof.
  split_and!; [apply wf_db_abc|done|reflexivity|reflexivity|reflexivity|].
  apply (TagQuery.queryMedia_matchAll_duplicate_tag Samples.same_path
           ["x"; " X "] "" 200 0 modified_desc_id_desc "" Samples.db_abc
           0 1 "x" " X ");
    [apply wf_db_abc|done|reflexivity|reflexivity|reflexivity].
Defined.



Lemma tagCounts_ignores_status_witness :
  wf Samples.db_abc_deleted
  ∧ tagCounts Samples.db_abc_deleted
    = merge_sort (order_by by_name_asc)
        ((λ t, (tag_name t,
                Z.of_nat
                  (length
                     (filter (λ a, mt_tag_id a = tag_id t)
                        (media_tags Samples.db_abc_deleted)))))
           <$> tags Samples.db_abc_deleted).
Proof.
  split; [exact wf_db_abc_deleted|].
  exact (proj1 (TagCounts.tagCounts_ignores_status Samples.db_abc_deleted
                  wf_db_abc_deleted)).
Defined.

End StoreWitnesses.

(** ** The thumbnail cache *)

Module CacheFacts.
Import ThumbnailCacheOps.

Lemma without_subseteq key es e : e ∈ QCache.without key es → e ∈ es.
Proof. unfold QCache.without. by intros [_ ?]%list_elem_of_filter. Qed.

Lemma trim_subseteq n es e : e ∈ QCache.trim n es → e ∈ es.
Proof.
  unfold QCache.trim. case_bool_decide; [done|].
  intros Hin. by eapply subseteq_take.
Qed.

Lemma object_keys key q k :
  k ∈ QCache.keys (QCache.object key q).1 ↔ k ∈ QCache.keys q.
Proof.
  unfold QCache.object, QCache.lookup.
  destruct (head (filter _ _)) as [[k' p]|] eqn:E; simpl; [|done].
  apply head_Some_elem_of, list_elem_of_filter in E as [Hk He].
  simpl in Hk. subst k'. unfold QCache.keys. simpl. rewrite elem_of_cons.
  rewrite !list_elem_of_fmap. split.
  - intros [->|[e [-> Hin%without_subseteq]]]; [by exists (key, p)|by exists e].
  - intros [e [-> Hin]]. destruct (decide (e.1 = key)); [by left|right].
    exists e. split; [done|]. by apply list_elem_of_filter.
Qed.

Lemma insert_keys key p q k :
  k ∈ QCache.keys (QCache.insert key p q).1 → k = key ∨ k ∈ QCache.keys q.
Proof.
  unfold QCache.insert, QCache.keys. case_bool_decide; simpl.
  - intros [e [-> Hin%without_subseteq]]%list_elem_of_fmap. right.
    by apply list_elem_of_fmap_2.
  - intros [->|[e [-> Hin%without_subseteq%trim_subseteq]]%list_elem_of_fmap]%elem_of_cons;
      [by left|right]. by apply list_elem_of_fmap_2.
Qed.

(** *** Coalescing *)

Section coalescing.
Context (file_exists : string → bool).

Local Abbreviation requestThumbnail :=
  (ThumbnailCacheOps.requestThumbnail file_exists).

Lemma requestThumbnail_while_pending m p s c :
  m ∈ m_pendingRequests c →
  pool_queued (requestThumbnail m p s c) = pool_queued c
  ∧ pool_running (requestThumbnail m p s c) = pool_running c
  ∧ m_pendingRequests (requestThumbnail m p s c) = m_pendingRequests c.
Proof.
  intros Hp. unfold requestThumbnail.
  destruct (QCache.contains _ _).
  - by destruct (QCache.object _ _) as [q [cached|]].
  - by rewrite bool_decide_eq_true_2.
Qed.

(** C8: when a call of [requestThumbnail] marks [mediaId] pending, it
    enqueues one decode task, and a second call for the same id and
    size made while the id is still pending changes nothing: the two
    calls enqueue exactly one task. *)
Theorem requestThumbnail_coalesces (c : ThumbnailCache) (mediaId : Z)
    (thumbnailPath thumbnailPath' : string) (targetSize : Z) :
  mediaId ∉ m_pendingRequests c →
  mediaId ∈ m_pendingRequests (requestThumbnail mediaId thumbnailPath
                                 targetSize c) →
  pool_queued (requestThumbnail mediaId thumbnailPath targetSize c)
  = pool_queued c ++ [{| task_mediaId := mediaId;
                         task_path := thumbnailPath;
                         task_targetSize := targetSize |}]
  ∧ requestThumbnail mediaId thumbnailPath' targetSize
      (requestThumbnail mediaId thumbnailPath targetSize c)
    = requestThumbnail mediaId thumbnailPath targetSize c.
Proof.
  intros Hnot.
  assert (∀ p, ThumbnailCacheOps.requestThumbnail file_exists mediaId p
                 targetSize c
               = if QCache.contains (cacheKey mediaId targetSize) (m_cache c)
                 then match QCache.object (cacheKey mediaId targetSize)
                              (m_cache c) with
                      | (q, Some cached) =>
                          post (thumbnailLoaded mediaId cached)
                            (with_cache q c)
                      | (_, None) => c
                      end
                 else if QString.isEmpty p || negb (file_exists p)
                 then post (thumbnailFailed mediaId) c
                 else with_pool
                        (pool_queued c ++ [{| task_mediaId := mediaId;
                                              task_path := p;
                                              task_targetSize := targetSize |}])
                        (pool_running c)
                        (with_pending ({[mediaId]} ∪ m_pendingRequests c) c))
    as Hreq.
  { intros p. unfold requestThumbnail.
    by rewrite (bool_decide_eq_false_2 (mediaId ∈ _)). }
  rewrite !Hreq.
  destruct (QCache.contains _ (m_cache c)) eqn:Hc.
  { destruct (QCache.object _ _) as [q [cached|]]; simpl; intros; done. }
  destruct (_ || _); [simpl; intros; done|]. intros _. split; [done|].
  unfold ThumbnailCacheOps.requestThumbnail. simpl. rewrite Hc.
  rewrite bool_decide_eq_true_2; [done|].
  apply elem_of_union_l. by apply elem_of_singleton.
Qed.

End coalescing.

(** *** Cancellation *)

Section cancellation.
Context (file_exists : string → bool) (decodes : string → bool).

Local Abbreviation step := (ThumbnailCacheOps.step file_exists decodes).
Local Abbreviation run := (ThumbnailCacheOps.run file_exists decodes).

Lemma onThumbnailLoaded_not_pending m s pix c :
  m ∉ m_pendingRequests c → onThumbnailLoaded m s pix c = c.
Proof.
  intros Hm. unfold onThumbnailLoaded.
  by rewrite bool_decide_eq_false_2.
Qed.

Lemma filter_emit {A} (P : A → Prop) `{∀ x, Decision (P x)}
    (emitted queued : list A) (n : A) :
  ¬ P n →
  filter P ((emitted ++ [n]) ++ queued) = filter P (emitted ++ queued).
Proof.
  intros Hn. rewrite !filter_app, filter_cons_False by done.
  by rewrite filter_nil, app_nil_r.
Qed.

Lemma filter_post {A} (P : A → Prop) `{∀ x, Decision (P x)}
    (emitted queued : list A) (n : A) :
  ¬ P n →
  filter P (emitted ++ queued ++ [n]) = filter P (emitted ++ queued).
Proof.
  intros Hn. rewrite !filter_app, filter_cons_False by done.
  by rewrite filter_nil, app_nil_r.
Qed.

(** What a delivery for another id can change. *)
Lemma onThumbnailLoaded_other m m' s pix c :
  m ≠ m' →
  (m ∈ m_pendingRequests (onThumbnailLoaded m' s pix c)
   → m ∈ m_pendingRequests c)
  ∧ notifications_for m (onThumbnailLoaded m' s pix c)
    = notifications_for m c
  ∧ ∀ k, k ∈ QCache.keys (m_cache (onThumbnailLoaded m' s pix c)) →
         k.1 = m → k ∈ QCache.keys (m_cache c).
Proof.
  intros Hne. unfold onThumbnailLoaded, notifications_for.
  destruct (bool_decide (m' ∈ m_pendingRequests c)); simpl; [|done].
  destruct (isNull pix); simpl.
  - split_and!; [by intros [? _]%elem_of_difference| |done].
    apply filter_emit. simpl. done.
  - split_and!; [by intros [? _]%elem_of_difference| |].
    + apply filter_emit. simpl. done.
    + intros k [->|Hk]%insert_keys Hm; [|done]. simpl in Hm. done.
Qed.

(** One event that is not a new request for [m] keeps [m] not
    pending, adds no signal about [m] to those emitted or posted, and
    adds no cache entry of [m]. *)
Lemma step_keeps_cancelled m e c :
  ¬ requests m e → m ∉ m_pendingRequests c →
  (m ∉ m_pendingRequests (step e c))
  ∧ notifications_for m (step e c) = notifications_for m c
  ∧ ∀ k, k ∈ QCache.keys (m_cache (step e c)) → k.1 = m →
         k ∈ QCache.keys (m_cache c).
Proof.
  intros He Hm. destruct e as [m' p s|m' p s| |m'| |i|i|]; simpl in *.
  - unfold getThumbnail.
    pose proof (object_keys (cacheKey m' s) (m_cache c)) as Hobj.
    destruct (QCache.object _ _) as [q [cached|]]; simpl in *;
      split_and!; try done. intros k Hk _. by apply Hobj.
  - unfold requestThumbnail, notifications_for.
    pose proof (object_keys (cacheKey m' s) (m_cache c)) as Hobj.
    destruct (QCache.contains _ _).
    { destruct (QCache.object _ _) as [q [cached|]]; simpl in *;
        split_and!; try done.
      - apply filter_post. simpl. done.
      - intros k Hk _. by apply Hobj. }
    case_bool_decide; [done|].
    destruct (_ || _); simpl.
    + split_and!; [done| |done]. apply filter_post. simpl. done.
    + split_and!; [|done|done].
      intros [?%elem_of_singleton|?]%elem_of_union; [by apply He|done].
  - split_and!; [apply not_elem_of_empty|done|done].
  - split_and!; [by intros [? _]%elem_of_difference|done|done].
  - split_and!; [done|done|]. intros k Hk. by apply elem_of_nil in Hk.
  - by destruct (pool_queued c !! i).
  - destruct (pool_running c !! i) as [t|]; [|done].
    destruct (decide (task_mediaId t = m)) as [<-|Hne].
    + by rewrite onThumbnailLoaded_not_pending.
    + pose proof (onThumbnailLoaded_other m (task_mediaId t)
                    (task_targetSize t) (task_result file_exists decodes t)
                    (with_pool (pool_queued c) (delete i (pool_running c)) c)
                    (ltac:(done))) as (H1 & H2 & H3).
      split_and!; [|done|done]. intros Hin. by apply Hm, H1.
  - destruct (posted c) as [|n rest] eqn:Hposted; [done|].
    split_and!; [done| |done].
    unfold notifications_for. simpl. rewrite Hposted.
    by rewrite <- app_assoc.
Qed.

Lemma run_keeps_cancelled m trace c :
  Forall (λ e, ¬ requests m e) trace → m ∉ m_pendingRequests c →
  (m ∉ m_pendingRequests (run trace c))
  ∧ notifications_for m (run trace c) = notifications_for m c
  ∧ ∀ k, k ∈ QCache.keys (m_cache (run trace c)) → k.1 = m →
         k ∈ QCache.keys (m_cache c).
Proof.
  intros Htrace. revert c.
  induction Htrace as [|e trace He _ IH]; intros c Hm; [done|].
  destruct (step_keeps_cancelled m e c He Hm) as (H1 & H2 & H3).
  destruct (IH (step e c) H1) as (I1 & I2 & I3).
  split_and!; [done|by rewrite <- H2|]. intros k Hk Hkm. auto.
Qed.

(** What cancelling does achieve: once [m] is cancelled by
    [cancelRequest(m)] or [cancelPendingRequests()], then as long as
    [requestThumbnail] is not called again for [m], no cache entry of
    [m] is added and the only signals about [m] still to come are
    those posted before - whatever else happens: other requests, tasks
    starting and finishing, including the cancelled one - and a
    delivery for [m] leaves the cache object exactly as it is. *)
Lemma cancellation_without_new_request (c : ThumbnailCache) (m : Z)
    (trace : list Event) :
  Forall (λ e, ¬ requests m e) trace →
  (notifications_for m (run trace (cancelRequest m c))
   = notifications_for m c
   ∧ (∀ k, k ∈ QCache.keys (m_cache (run trace (cancelRequest m c))) →
           k.1 = m → k ∈ QCache.keys (m_cache c))
   ∧ ∀ s pix, onThumbnailLoaded m s pix (run trace (cancelRequest m c))
              = run trace (cancelRequest m c))
  ∧ (notifications_for m (run trace (cancelPendingRequests c))
     = notifications_for m c
     ∧ (∀ k, k ∈ QCache.keys
                   (m_cache (run trace (cancelPendingRequests c))) →
             k.1 = m → k ∈ QCache.keys (m_cache c))
     ∧ ∀ s pix,
         onThumbnailLoaded m s pix (run trace (cancelPendingRequests c))
         = run trace (cancelPendingRequests c)).
Proof.
  intros Htrace. split.
  - destruct (run_keeps_cancelled m trace (cancelRequest m c) Htrace)
      as (H1 & H2 & H3).
    { simpl. intros [_ Hm]%elem_of_difference. apply Hm.
      by apply elem_of_singleton. }
    split_and!; [done|done|].
    intros s pix. by apply onThumbnailLoaded_not_pending.
  - destruct (run_keeps_cancelled m trace (cancelPendingRequests c) Htrace)
      as (H1 & H2 & H3); [simpl; apply not_elem_of_empty|].
    split_and!; [done|done|].
    intros s pix. by apply onThumbnailLoaded_not_pending.
Qed.

End cancellation.

(** C7 fails on the code: the request for media 1 at size 128 is
    cancelled while its task runs, media 1 is requested again at size
    256, and the first task then finishes.  The test under "Check if
    request was cancelled" finds id 1 pending - for the new request -
    so the pixmap of the cancelled request is inserted into the cache
    and [thumbnailLoaded] is emitted for it. *)
Lemma cancelled_request_delivered_after_new_request :
  let trace :=
    [CallRequestThumbnail 1 "/t/aa.jpg" 128; TaskStarts 0;
     CallCancelRequest 1; CallRequestThumbnail 1 "/t/aa.jpg" 256;
     TaskDelivers 0] in
  let c := run Samples.always Samples.always trace (new 500) in
  notifications c = [thumbnailLoaded 1 (Rendered "/t/aa.jpg" 128)]
  ∧ QCache.keys (m_cache c) = [cacheKey 1 128]
  ∧ pool_queued c = [{| task_mediaId := 1; task_path := "/t/aa.jpg";
                        task_targetSize := 256 |}].
Proof. vm_compute. done. Qed.

(** ... and the result of the new request is the one that is dropped. *)
Lemma new_request_dropped_instead :
  let trace :=
    [CallRequestThumbnail 1 "/t/aa.jpg" 128; TaskStarts 0;
     CallCancelRequest 1; CallRequestThumbnail 1 "/t/aa.jpg" 256;
     TaskDelivers 0; TaskStarts 0; TaskDelivers 0] in
  let c := run Samples.always Samples.always trace (new 500) in
  notifications c = [thumbnailLoaded 1 (Rendered "/t/aa.jpg" 128)]
  ∧ QCache.keys (m_cache c) = [cacheKey 1 128].
Proof. vm_compute. done. Qed.

(** A failure posted by an earlier call is emitted when the event
    loop gets to it, also after the id was cancelled. *)
Lemma posted_failure_emitted_after_cancel :
  let trace :=
    [CallRequestThumbnail 1 "" 128; CallRequestThumbnail 1 "/t/aa.jpg" 128;
     CallCancelRequest 1] in
  let c := run Samples.always Samples.always trace (new 500) in
  notifications c = [] ∧ posted c = [thumbnailFailed 1]
  ∧ notifications
      (run Samples.always Samples.always [PostedLambdaRuns] c)
    = [thumbnailFailed 1].
Proof. vm_compute. done. Qed.

Lemma requestThumbnail_coalesces_witness :
  (1 ∉ m_pendingRequests (new 500))
  ∧ 1 ∈ m_pendingRequests (requestThumbnail Samples.always 1 "/t/aa.jpg" 128 (new 500))
  ∧ requestThumbnail Samples.always 1 "/t/aa.jpg" 128
      (requestThumbnail Samples.always 1 "/t/aa.jpg" 128 (new 500))
    = requestThumbnail Samples.always 1 "/t/aa.jpg" 128 (new 500).
Proof.
  assert (1 ∉ m_pendingRequests (new 500)) as H1
    by (simpl; apply not_elem_of_empty).
  assert (1 ∈ m_pendingRequests
                (requestThumbnail Samples.always 1 "/t/aa.jpg" 128 (new 500))) as H2
    by (apply elem_of_union_l; by apply elem_of_singleton).
  split_and!; [exact H1|exact H2|].
  apply (requestThumbnail_coalesces Samples.always (new 500) 1 "/t/aa.jpg"
           "/t/aa.jpg" 128 H1 H2).

Defined.

End CacheFacts.

(** ** The scanner *)

Module ScannerFacts.
Import Database Scanner.

(** *** What one store write can touch *)




Lemma upsertMedia_keeps_other record db r :
  r ∈ media db → filePath record ≠ Some (file_path r) →
  r ∈ media (upsertMedia record db).1.
Proof.
  intros Hr Hne.
  destruct (DatabaseFacts.upsertMedia_cases record db)
    as [->|(path & root & name & Hp & _ & _ & ->)]; [done|].
  cbn [fst]. unfold insert_or_update_row. destruct (has_path _ _); simpl.
  - apply list_elem_of_fmap. exists r. split; [|done].
    rewrite bool_decide_eq_false_2; [done|]. intros Heq. apply Hne.
    by rewrite Hp, Heq.
  - apply elem_of_app. by left.
Qed.

(** The row an upsert leaves for its path. *)
Lemma insert_or_update_row_row path root name record db :
  ∃ r, r ∈ media (insert_or_update_row path root name record db)
       ∧ file_path r = path
       ∧ col_sha256 r = QString.nullIfEmpty (sha256 record)
       ∧ media_type r = mediaTypeToString (mediaType record)
       ∧ col_status r = "active"
       ∧ col_error r = QString.nullIfEmpty (error record).
Proof.
  unfold insert_or_update_row. destruct (has_path _ _) eqn:Hp; simpl.
  - apply DatabaseFacts.has_path_spec in Hp as [r0 [Hp Hr0]]%list_elem_of_fmap.
    exists (update_on_conflict record r0). split; [|done].
    apply list_elem_of_fmap. exists r0. split; [|done].
    by rewrite bool_decide_eq_true_2.
  - eexists. split; [apply elem_of_app; right; by apply list_elem_of_singleton|].
    done.
Qed.

Lemma upsertMedia_row record db path root name :
  filePath record = Some path → rootDir record = Some root →
  fileName record = Some name →
  ∃ r, r ∈ media (upsertMedia record db).1
       ∧ file_path r = path
       ∧ col_sha256 r = QString.nullIfEmpty (sha256 record)
       ∧ media_type r = mediaTypeToString (mediaType record)
       ∧ col_status r = "active"
       ∧ col_error r = QString.nullIfEmpty (error record).
Proof.
  intros Hp Hr Hn.
  rewrite (DatabaseFacts.upsertMedia_bound record db path root name)
    by done.
  apply insert_or_update_row_row.
Qed.


Lemma updateThumbnailPath_keeps_other path thumb db r :
  r ∈ media db → file_path r ≠ path →
  r ∈ media (updateThumbnailPath path thumb db).1.
Proof.
  intros Hr Hne. unfold updateThumbnailPath. simpl.
  apply list_elem_of_fmap. exists r. split; [|done].
  by rewrite bool_decide_eq_false_2.
Qed.

Section worker.
Context (absolutePath : string → string) (w : World).

Local Abbreviation process_file := (Scanner.process_file w).
Local Abbreviation process_loop := (Scanner.process_loop w).
Local Abbreviation process := (Scanner.process absolutePath w).
Local Abbreviation listMediaFiles := (Scanner.listMediaFiles absolutePath w).

(** *** One iteration *)

Lemma full_record_filePath root tdir f thumbs :
  filePath (full_record w root tdir f thumbs) = Some f
  ∧ rootDir (full_record w root tdir f thumbs) = Some root
  ∧ fileName (full_record w root tdir f thumbs) = Some (fi_fileName f).
Proof.
  unfold full_record.
  by destruct (extract_media _ _ _ _) as [[[[? [? ?]] ?] ?] ?].
Qed.


(** The store after one iteration, by cases. *)
Lemma process_file_db root tdir snap f st :
  st_db (process_file root tdir snap f st) = st_db st
  ∨ (∃ thumb, st_db (process_file root tdir snap f st)
              = (updateThumbnailPath f thumb (st_db st)).1)
  ∨ (∃ record, filePath record = Some f
               ∧ rootDir record = Some root
               ∧ fileName record = Some (fi_fileName f)
               ∧ st_db (process_file root tdir snap f st)
                 = (upsertMedia record (st_db st)).1).
Proof.
  assert (∃ record, filePath record = Some f
            ∧ rootDir record = Some root
            ∧ fileName record = Some (fi_fileName f)
            ∧ st_db (process_full w root tdir f st)
              = (upsertMedia record (st_db st)).1) as Hfull.
  { eexists.
    destruct (full_record_filePath root tdir f (st_thumbs st))
      as (H1 & H2 & H3).
    split_and!; [exact H1|exact H2|exact H3|reflexivity]. }
  unfold Scanner.process_file. destruct (raises w f).
  { right; right. eexists. split_and!; [| | |reflexivity]; done. }
  destruct (snap !! f) as [prev|]; [|by right; right].
  destruct (unchanged_with_hash _ _ _); [|by right; right].
  destruct (_ && _); [by left|].
  unfold process_refresh.
  destruct (if isImageFile f then _ else _) as [thumbs created].
  destruct (_ && _); [right; left; by eexists|by left].
Qed.


Lemma process_file_keeps_other root tdir snap f st r :
  r ∈ media (st_db st) → file_path r ≠ f →
  r ∈ media (st_db (process_file root tdir snap f st)).
Proof.
  intros Hr Hne.
  destruct (process_file_db root tdir snap f st)
    as [->|[[thumb ->]|(record & Hp & _ & _ & ->)]]; [done|..].
  - by apply updateThumbnailPath_keeps_other.
  - apply upsertMedia_keeps_other; [done|]. congruence.
Qed.

(** *** The loop *)

Lemma process_loop_cons root tdir snap idx f rest st :
  cancelled_at w idx = false →
  process_loop root tdir snap idx (f :: rest) st
  = process_loop root tdir snap (S idx) rest
      (process_file root tdir snap f st).
Proof. intros Hc. simpl. by rewrite Hc. Qed.

(** An invariant of the store kept by every iteration is kept by the
    loop, cancelled or not. *)
Lemma process_loop_invariant (I : Db → Prop) root tdir snap files :
  (∀ f st, f ∈ files → I (st_db st) →
           I (st_db (process_file root tdir snap f st))) →
  ∀ idx st, I (st_db st) →
            I (st_db (process_loop root tdir snap idx files st)).
Proof.
  induction files as [|f rest IH]; intros Hstep idx st HI; [done|].
  simpl. destruct (cancelled_at w idx); [done|].
  apply IH.
  - intros f' st' Hf'. apply Hstep. by right.
  - apply Hstep; [left|done].
Qed.

Lemma process_loop_keeps_other root tdir snap files idx st r :
  r ∈ media (st_db st) → file_path r ∉ files →
  r ∈ media (st_db (process_loop root tdir snap idx files st)).
Proof.
  intros Hr Hnot.
  apply (process_loop_invariant (λ db, r ∈ media db)); [|done].
  intros f st' Hf Hin. apply process_file_keeps_other; [done|].
  intros Heq. apply Hnot. by rewrite Heq.
Qed.

(** *** Counting *)

Lemma process_file_scanned root tdir snap f st :
  scanned (st_result (process_file root tdir snap f st))
  = scanned (st_result st) + 1.
Proof.
  unfold Scanner.process_file. destruct (raises w f); [done|].
  assert (scanned (st_result (process_full w root tdir f st))
          = scanned (st_result st) + 1) as Hfull.
  { unfold process_full. simpl. by case_bool_decide. }
  destruct (snap !! f) as [prev|]; [|done].
  destruct (unchanged_with_hash _ _ _); [|done].
  destruct (_ && _); [done|].
  unfold process_refresh.
  by destruct (if isImageFile f then _ else _) as [thumbs created].
Qed.

Lemma process_file_errors root tdir snap f st :
  errors (st_result (process_file root tdir snap f st))
  = errors (st_result st)
    + match raises w f with Some _ => 1 | None => 0 end.
Proof.
  unfold Scanner.process_file. destruct (raises w f); [done|].
  assert (errors (st_result (process_full w root tdir f st))
          = errors (st_result st) + 0) as Hfull.
  { unfold process_full. simpl. case_bool_decide; simpl; lia. }
  destruct (snap !! f) as [prev|]; [|done].
  destruct (unchanged_with_hash _ _ _); [|done].
  destruct (_ && _); [simpl; lia|].
  unfold process_refresh.
  destruct (if isImageFile f then _ else _) as [thumbs created].
  simpl. lia.
Qed.

Lemma process_loop_counts root tdir snap files idx st :
  (∀ i, cancelled_at w i = false) →
  scanned (st_result (process_loop root tdir snap idx files st))
  = scanned (st_result st) + Z.of_nat (length files)
  ∧ errors (st_result (process_loop root tdir snap idx files st))
    = errors (st_result st)
      + Z.of_nat (length (filter (λ f, is_Some (raises w f)) files)).
Proof.
  intros Hc. revert idx st.
  induction files as [|f rest IH]; intros idx st.
  - simpl. lia.
  - rewrite process_loop_cons by done.
    destruct (IH (S idx) (process_file root tdir snap f st)) as [-> ->].
    rewrite process_file_scanned, process_file_errors, filter_cons.
    destruct (decide (is_Some (raises w f))) as [Hd|Hd];
      destruct (raises w f) eqn:E.
    + rewrite !length_cons. lia.
    + by destruct Hd.
    + destruct Hd. by eexists.
    + rewrite !length_cons. lia.
Qed.

(** The error record of a file that threw is still there at the end
    of the loop. *)
Lemma process_loop_error_row root tdir snap files idx st f what :
  NoDup files → (∀ i, cancelled_at w i = false) →
  f ∈ files → raises w f = Some what →
  ∃ r, r ∈ media (st_db (process_loop root tdir snap idx files st))
       ∧ file_path r = f
       ∧ media_type r = mediaTypeToString (typeFromExtension (dot_ext f))
       ∧ col_status r = "active"
       ∧ col_error r = QString.nullIfEmpty what.
Proof.
  intros Hnd Hc. revert idx st.
  induction files as [|f0 rest IH]; intros idx st Hf Hraise;
    [by apply elem_of_nil in Hf|].
  apply NoDup_cons in Hnd as [Hf0 Hnd].
  rewrite process_loop_cons by done.
  apply elem_of_cons in Hf as [->|Hf]; [|by apply IH].
  unfold Scanner.process_file at 1. rewrite Hraise.
  unfold process_error at 1.
  match goal with
  | |- context [upsertMedia ?rec (st_db st)] =>
      destruct (upsertMedia_row rec (st_db st) f0 root (fi_fileName f0)
                  eq_refl eq_refl eq_refl)
        as (r & Hr & Hp & _ & Hk & Hs & He)
  end.
  simpl in Hp, Hk, Hs, He. exists r. split; [|done].
  apply process_loop_keeps_other; [exact Hr|by rewrite Hp].
Qed.

(** C5, as the code has it: a file whose handling throws does not
    stop the scan.  Without cancellation every listed file is counted
    as scanned, the error count is the number of files that threw,
    and each of them is in the store with the media kind of its
    extension and the exception's message as error text.  (A file
    that only cannot be opened throws nothing and is not among
    them.) *)
Theorem scan_isolates_throwing_files (rootDir thumbnailsDir : string)
    (db : Db) (thumbs : gset string) :
  NoDup (listMediaFiles (worker_rootDir absolutePath rootDir) thumbs) →
  (∀ i, cancelled_at w i = false) →
  scanned (st_result (process rootDir thumbnailsDir db thumbs))
  = Z.of_nat
      (length (listMediaFiles (worker_rootDir absolutePath rootDir) thumbs))
  ∧ errors (st_result (process rootDir thumbnailsDir db thumbs))
    = Z.of_nat
        (length (filter (λ f, is_Some (raises w f))
                   (listMediaFiles (worker_rootDir absolutePath rootDir)
                      thumbs)))
  ∧ ∀ f what,
      f ∈ listMediaFiles (worker_rootDir absolutePath rootDir) thumbs →
      raises w f = Some what →
      ∃ r, r ∈ media (st_db (process rootDir thumbnailsDir db thumbs))
           ∧ file_path r = f
           ∧ media_type r
             = mediaTypeToString (typeFromExtension (dot_ext f))
           ∧ col_status r = "active"
           ∧ col_error r = QString.nullIfEmpty what.
Proof.
  intros Hnd Hc. unfold Scanner.process.
  match goal with
  | |- context [Scanner.process_loop w ?root ?tdir ?snap 0 ?files ?st] =>
      pose proof (process_loop_counts root tdir snap files 0 st Hc)
        as [Hs He];
      pose proof (λ f what,
                    process_loop_error_row root tdir snap files 0 st
                      f what Hnd Hc) as Hrow
  end.
  split_and!; [by rewrite Hs|by rewrite He|done].
Qed.

(** *** Rescanning *)

(** After a soft-delete pass that executed, every active row of the
    root is a listed file ... *)
Lemma markMissing_listed files root db r :
  update_prepares files db = true →
  r ∈ media (markMissingFilesDeleted absolutePath files root db).1 →
  root_dir r = absolutePath root → col_status r = "active" →
  file_path r ∈ files.
Proof.
  intros Hok.
  rewrite (DatabaseFacts.markMissingFilesDeleted_executes _ _ _ _ Hok).
  cbn [fst with_media media].
  intros [r0 [-> Hr0]]%list_elem_of_fmap.
  destruct (missing_row absolutePath files root r0) eqn:E; [done|].
  intros Hroot Hact. destruct (decide (file_path r0 ∈ files)); [done|].
  assert (missing_row absolutePath files root r0 = true) as E'
    by (by apply SoftDelete.missing_row_spec).
  congruence.
Qed.




End worker.

(** *** Closed examples *)

(** C5 fails as stated for a file that cannot be opened: the scan of
    the single unreadable "/r/a.jpg" ends with no error counted, and
    the file is recorded as added, with no hash and no error message. *)
Lemma unreadable_file_is_not_an_error :
  let st := Scanner.process Samples.same_path Samples.world_unreadable
              "/r" "/t" open_new ∅ in
  st_result st = {| scanned := 1; addedOrUpdated := 1; errors := 0 |}
  ∧ (λ r, (file_path r, media_type r, col_sha256 r, col_error r))
      <$> media (st_db st)
    = [("/r/a.jpg", "image", None, None)].
Proof. vm_compute. done. Qed.


(** With the thumbnails directory at its default place inside the
    root, the thumbnail written by the first run is listed by the
    second run and indexed as a new media file. *)
Lemma rescan_indexes_own_thumbnails :
  let st1 := Scanner.process Samples.same_path
               Samples.world_thumbnails_inside "/r" "" open_new ∅ in
  let st2 := Scanner.process Samples.same_path
               Samples.world_thumbnails_inside "/r" ""
               (st_db st1) (st_thumbs st1) in
  file_path <$> media (st_db st1) = ["/r/a.jpg"]
  ∧ st_result st2 = {| scanned := 2; addedOrUpdated := 1; errors := 0 |}
  ∧ file_path <$> media (st_db st2) = ["/r/a.jpg"; "/r/thumbnails/aa.jpg"].
Proof. vm_compute. done. Qed.

(** A file indexed by a scan of "/r/sub" keeps that root in its row:
    [ON CONFLICT] leaves [root_dir] alone.  The snapshot of root "/r"
    never has it, and every scan of "/r" processes it in full. *)
Lemma rescan_of_file_indexed_under_other_root :
  let st0 := Scanner.process Samples.same_path Samples.world_nested
               "/r/sub" "/t" open_new ∅ in
  let st1 := Scanner.process Samples.same_path Samples.world_nested
               "/r" "/t" (st_db st0) (st_thumbs st0) in
  let st2 := Scanner.process Samples.same_path Samples.world_nested
               "/r" "/t" (st_db st1) (st_thumbs st1) in
  (λ r, (file_path r, root_dir r)) <$> media (st_db st1)
  = [("/r/sub/a.jpg", "/r/sub")]
  ∧ st_result st2 = {| scanned := 1; addedOrUpdated := 1; errors := 0 |}.
Proof. vm_compute. done. Qed.

End ScannerFacts.

Module ScannerWitnesses.
Import Database Scanner.

Lemma scan_isolates_throwing_files_witness :
  NoDup (listMediaFiles Samples.same_path Samples.world_throwing
           (worker_rootDir Samples.same_path "/r") ∅)
  ∧ (∀ i, cancelled_at Samples.world_throwing i = false)
  ∧ scanned (st_result (process Samples.same_path Samples.world_throwing
                          "/r" "/t" open_new ∅))
    = Z.of_nat
        (length (listMediaFiles Samples.same_path Samples.world_throwing
                   (worker_rootDir Samples.same_path "/r") ∅)).
Proof.
  assert (NoDup (listMediaFiles Samples.same_path Samples.world_throwing
                   (worker_rootDir Samples.same_path "/r") ∅)) as Hnd.
  { apply (bool_decide_unpack _). vm_compute. exact I. }
  assert (∀ i, cancelled_at Samples.world_throwing i = false) as Hc
    by reflexivity.
  split_and!; [exact Hnd|exact Hc|].
  exact (proj1 (ScannerFacts.scan_isolates_throwing_files
                  Samples.same_path Samples.world_throwing "/r" "/t"
                  open_new ∅ Hnd Hc)).
Defined.

(** The scan of the throwing world, evaluated: "/r/a.jpg" throws and
    is recorded with kind and message, "/r/b.png" is indexed. *)
Lemma scan_with_one_throwing_file :
  let st := process Samples.same_path Samples.world_throwing
              "/r" "/t" open_new ∅ in
  st_result st = {| scanned := 2; addedOrUpdated := 1; errors := 1 |}
  ∧ (λ r, (file_path r, media_type r, col_sha256 r, col_error r))
      <$> media (st_db st)
    = [("/r/a.jpg", "image", None, Some "boom");
       ("/r/b.png", "image", Some "bb", None)].
Proof. vm_compute. done. Qed.

End ScannerWitnesses.

(** ** Thumbnails and schema constraints through a scan *)

Module FirstScan.
Import Database Scanner.

Lemma snapshot_fold_other (rows : list MediaRow)
    (m0 : gmap string SnapshotEntry) (p : string) :
  p ∉ (file_path <$> rows) →
  foldl (λ result r, <[file_path r := entry_of_row r]> result) m0 rows !! p
  = m0 !! p.
Proof.
  revert m0. induction rows as [|r rows IH]; intros m0 Hp; [done|].
  simpl. rewrite fmap_cons in Hp. apply not_elem_of_cons in Hp as [Hne Hp].
  rewrite IH by done. by rewrite lookup_insert_ne.
Qed.

Lemma snapshot_fold_lookup (rows : list MediaRow)
    (m0 : gmap string SnapshotEntry) (r : MediaRow) :
  NoDup (file_path <$> rows) → r ∈ rows →
  foldl (λ result r, <[file_path r := entry_of_row r]> result) m0 rows
    !! file_path r
  = Some (entry_of_row r).
Proof.
  revert m0. induction rows as [|r0 rows IH]; intros m0 Hnd Hr;
    [by apply elem_of_nil in Hr|].
  rewrite fmap_cons in Hnd. apply NoDup_cons in Hnd as [Hr0 Hnd]. simpl.
  apply elem_of_cons in Hr as [->|Hr]; [|by apply IH].
  rewrite snapshot_fold_other by done. apply lookup_insert_eq.
Qed.

(** The snapshot has the entry of every active row of the root. *)
Lemma existingMediaMapForRoot_lookup absolutePath rootDir db r :
  wf db → r ∈ media db →
  root_dir r = absolutePath rootDir → col_status r = "active" →
  existingMediaMapForRoot absolutePath rootDir db !! file_path r
  = Some (entry_of_row r).
Proof.
  intros Hwf Hr Hroot Hact. unfold existingMediaMapForRoot.
  apply snapshot_fold_lookup.
  - apply NoDup_fmap_filter, Hwf.
  - by apply list_elem_of_filter.
Qed.

Lemma existingMediaMapForRoot_None absolutePath rootDir db p :
  p ∉ (file_path <$> media db) →
  existingMediaMapForRoot absolutePath rootDir db !! p = None.
Proof.
  intros Hp. unfold existingMediaMapForRoot.
  rewrite snapshot_fold_other; [apply lookup_empty|].
  intros [r [-> [_ Hr]%list_elem_of_filter]]%list_elem_of_fmap.
  apply Hp. by apply list_elem_of_fmap_2.
Qed.



Section worker.
Context (absolutePath : string → string) (w : World).

Local Abbreviation process_file := (Scanner.process_file w).
Local Abbreviation process_loop := (Scanner.process_loop w).
Local Abbreviation process := (Scanner.process absolutePath w).
Local Abbreviation listMediaFiles := (Scanner.listMediaFiles absolutePath w).

(** *** Thumbnails are only ever added *)

Lemma extract_media_thumbs_mono tp f thumbs :
  thumbs ⊆ (extract_media w tp f thumbs).1.2.
Proof.
  unfold extract_media, createImageThumbnail, createVideoThumbnail.
  destruct (typeFromExtension _); simpl; [| |done..].
  - destruct (file_exists _ _); [done|].
    destruct (image_thumbnail_ok w f); simpl; [apply union_subseteq_r|done].
  - destruct (file_exists _ _); [done|].
    destruct (video_thumbnail_ok w f); simpl; [apply union_subseteq_r|done].
Qed.

Lemma process_file_thumbs_mono root tdir snap f st :
  st_thumbs st ⊆ st_thumbs (process_file root tdir snap f st).
Proof.
  unfold Scanner.process_file. destruct (raises w f); [done|].
  assert (st_thumbs st ⊆ st_thumbs (process_full w root tdir f st)) as Hfull
    by apply extract_media_thumbs_mono.
  destruct (snap !! f) as [prev|]; [|done].
  destruct (unchanged_with_hash _ _ _); [|done].
  destruct (_ && _); [done|].
  unfold process_refresh, createImageThumbnail, createVideoThumbnail.
  destruct (isImageFile f).
  - destruct (image_thumbnail_ok w f); simpl; [apply union_subseteq_r|done].
  - destruct (isVideoFile f); [|done].
    destruct (video_thumbnail_ok w f); simpl; [apply union_subseteq_r|done].
Qed.

Lemma process_loop_thumbs_mono root tdir snap files idx st :
  st_thumbs st ⊆ st_thumbs (process_loop root tdir snap idx files st).
Proof.
  revert idx st. induction files as [|f rest IH]; intros idx st; [done|].
  simpl. destruct (cancelled_at w idx); [done|].
  etrans; [apply (process_file_thumbs_mono root tdir snap f)|apply IH].
Qed.

(** *** The schema constraints survive a scan *)

Lemma wf_process_file root tdir snap f st :
  wf (st_db st) → wf (st_db (process_file root tdir snap f st)).
Proof.
  intros Hwf.
  destruct (ScannerFacts.process_file_db w root tdir snap f st)
    as [->|[[thumb ->]|(record & _ & _ & _ & ->)]]; [done|..].
  - by apply DatabaseFacts.wf_updateThumbnailPath.
  - by apply DatabaseFacts.wf_upsertMedia.
Qed.

Lemma wf_process rootDir thumbnailsDir db thumbs :
  wf db → wf (st_db (process rootDir thumbnailsDir db thumbs)).
Proof.
  intros Hwf. unfold Scanner.process.
  apply (ScannerFacts.process_loop_invariant w wf).
  - intros f st _. apply wf_process_file.
  - simpl. by apply DatabaseFacts.wf_markMissingFilesDeleted.
Qed.

Lemma markMissing_paths files root db :
  file_path <$> media (markMissingFilesDeleted absolutePath files root db).1
  = file_path <$> media db.
Proof.
  unfold markMissingFilesDeleted.
  destruct (update_prepares files db); [|done]. simpl.
  apply fmap_fmap_same. intros r. by destruct (missing_row _ _ _ _).
Qed.

End worker.

End FirstScan.

(** ** Normalised names *)

Module StringFacts.
Import QString.

Local Open Scope string_scope.

Lemma app_cons (c : ascii) (s t : string) :
  String c s +:+ t = String c (s +:+ t).
Proof. reflexivity. Qed.

Lemma app_nil_l (s : string) : "" +:+ s = s.
Proof. reflexivity. Qed.

Lemma app_assoc_s (a b c : string) : (a +:+ b) +:+ c = a +:+ (b +:+ c).
Proof.
  induction a as [|x a IH]; [done|]. by rewrite !app_cons, IH.
Qed.

Lemma rev_app_acc (s acc : string) :
  String.rev_app s acc = String.rev s +:+ acc.
Proof.
  unfold String.rev. revert acc.
  induction s as [|c s IH]; intros acc; [done|]. simpl.
  rewrite (IH (String c acc)), (IH (String c "")).
  by rewrite app_assoc_s.
Qed.

Lemma rev_cons (c : ascii) (s : string) :
  String.rev (String c s) = String.rev s +:+ String c "".
Proof. unfold String.rev at 1. simpl. apply rev_app_acc. Qed.

Lemma rev_snoc (s : string) (c : ascii) :
  String.rev (s +:+ String c "") = String c (String.rev s).
Proof.
  induction s as [|d s IH]; [done|].
  rewrite app_cons, !rev_cons, IH. done.
Qed.

Lemma rev_involutive (s : string) : String.rev (String.rev s) = s.
Proof.
  induction s as [|c s IH]; [done|]. by rewrite rev_cons, rev_snoc, IH.
Qed.

Lemma trim_front_idemp (s : string) : trim_front (trim_front s) = trim_front s.
Proof.
  induction s as [|c s IH]; [done|]. simpl.
  destruct (Ascii.is_space c) eqn:E; [done|]. simpl. by rewrite E.
Qed.

Lemma trim_front_snoc (s : string) (c : ascii) :
  trim_front (s +:+ String c "")
  = match trim_front s with
    | "" => if Ascii.is_space c then "" else String c ""
    | y => y +:+ String c ""
    end.
Proof.
  induction s as [|d s IH]; [done|].
  rewrite app_cons. simpl. by destruct (Ascii.is_space d).
Qed.

(** Dropping trailing white space, one character at a time. *)
Lemma trim_back_cons (c : ascii) (x : string) :
  String.rev (trim_front (String.rev (String c x)))
  = match String.rev (trim_front (String.rev x)) with
    | "" => if Ascii.is_space c then "" else String c ""
    | y => String c y
    end.
Proof.
  rewrite rev_cons, trim_front_snoc.
  destruct (trim_front (String.rev x)) as [|d y] eqn:E.
  - by destruct (Ascii.is_space c).
  - rewrite rev_snoc.
    destruct (String.rev (String d y)) eqn:E'; [|done].
    apply (f_equal String.rev) in E'. by rewrite rev_involutive in E'.
Qed.

Lemma trim_back_idemp (x : string) :
  String.rev (trim_front (String.rev
     (String.rev (trim_front (String.rev x)))))
  = String.rev (trim_front (String.rev x)).
Proof.
  induction x as [|c x IH]; [done|].
  rewrite trim_back_cons.
  destruct (String.rev (trim_front (String.rev x))) as [|d y] eqn:E.
  - destruct (Ascii.is_space c) eqn:Ec; [done|].
    rewrite trim_back_cons. simpl. by rewrite Ec.
  - by rewrite trim_back_cons, IH.
Qed.

Lemma trim_back_keeps_front (x : string) :
  trim_front x = x →
  trim_front (String.rev (trim_front (String.rev x)))
  = String.rev (trim_front (String.rev x)).
Proof.
  destruct x as [|c x]; [done|]. simpl.
  destruct (Ascii.is_space c) eqn:Ec.
  - intros Heq. exfalso.
    assert (∀ s, String.length (trim_front s) ≤ String.length s)%nat as Hlen.
    { induction s as [|d s IH]; simpl; [lia|].
      destruct (Ascii.is_space d); simpl; lia. }
    specialize (Hlen x). rewrite Heq in Hlen. simpl in Hlen. lia.
  - intros _. rewrite trim_back_cons.
    destruct (String.rev (trim_front (String.rev x)));
      rewrite ?Ec; simpl; by rewrite Ec.
Qed.

Lemma trimmed_idemp (s : string) : trimmed (trimmed s) = trimmed s.
Proof.
  unfold trimmed.
  rewrite (trim_back_keeps_front (trim_front s)) by apply trim_front_idemp.
  apply trim_back_idemp.
Qed.

Lemma is_space_lower_char (c : ascii) :
  Ascii.is_space (lower_char c) = Ascii.is_space c.
Proof. by destruct c as [[] [] [] [] [] [] [] []]. Qed.

Lemma lower_char_idemp (c : ascii) : lower_char (lower_char c) = lower_char c.
Proof. by destruct c as [[] [] [] [] [] [] [] []]. Qed.

Lemma toLower_idemp (s : string) : toLower (toLower s) = toLower s.
Proof.
  induction s as [|c s IH]; [done|]. simpl. by rewrite lower_char_idemp, IH.
Qed.

Lemma toLower_trim_front (s : string) :
  toLower (trim_front s) = trim_front (toLower s).
Proof.
  induction s as [|c s IH]; [done|]. simpl.
  rewrite is_space_lower_char. by destruct (Ascii.is_space c).
Qed.

Lemma toLower_trim_back (x : string) :
  toLower (String.rev (trim_front (String.rev x)))
  = String.rev (trim_front (String.rev (toLower x))).
Proof.
  induction x as [|c x IH]; [done|].
  change (toLower (String c x)) with (String (lower_char c) (toLower x)).
  rewrite !trim_back_cons, <- IH, is_space_lower_char.
  destruct (String.rev (trim_front (String.rev x))); [|done].
  simpl. by destruct (Ascii.is_space c).
Qed.

Lemma toLower_trimmed (s : string) : toLower (trimmed s) = trimmed (toLower s).
Proof. unfold trimmed. by rewrite toLower_trim_back, toLower_trim_front. Qed.

Lemma normalize_normalize (s : string) : normalize (normalize s) = normalize s.
Proof.
  unfold normalize.
  by rewrite <- toLower_trimmed, toLower_idemp, trimmed_idemp.
Qed.

(** X11: the tag normalisation is idempotent: a normalised name has no
    white space at either end and no upper-case ASCII letter, so
    normalising it again returns it unchanged. *)
Theorem normalize_idempotent (s : string) :
  normalize (normalize s) = normalize s
  ∧ trimmed (normalize s) = normalize s
  ∧ toLower (normalize s) = normalize s.
Proof.
  split_and!; [apply normalize_normalize|..]; unfold normalize.
  - by rewrite <- toLower_trimmed, trimmed_idemp.
  - apply toLower_idemp.
Qed.

End StringFacts.

(** ** Media rows: writing and reading back *)

Module MediaRows.
Import Database.

Lemma ofVariant_nullIfEmpty (s : string) :
  QString.ofVariant (QString.nullIfEmpty s) = s.
Proof. by destruct s. Qed.

Lemma stringToMediaType_mediaTypeToString (t : MediaType) :
  stringToMediaType (mediaTypeToString t) = t.
Proof. by destruct t. Qed.

Lemma record_of_row_of_record (i : Z) (path root name : string)
    (record : MediaRecord) :
  filePath record = Some path → rootDir record = Some root →
  fileName record = Some name →
  record_of_row (row_of_record i path root name record) = stored i record.
Proof.
  intros Hp Hr Hn. unfold record_of_row, row_of_record, stored. simpl.
  by rewrite !ofVariant_nullIfEmpty, stringToMediaType_mediaTypeToString,
    Hp, Hr, Hn.
Qed.

Lemma record_of_update_on_conflict (record : MediaRecord) (r : MediaRow) :
  record_of_row (update_on_conflict record r)
  = updated (record_of_row r) record.
Proof.
  unfold record_of_row, update_on_conflict, updated. simpl.
  by rewrite !ofVariant_nullIfEmpty, stringToMediaType_mediaTypeToString.
Qed.

Lemma head_filter_fmap {A} (P : A → Prop) `{∀ x, Decision (P x)}
    (f : A → A) (l : list A) :
  (∀ x, P (f x) ↔ P x) →
  head (filter P (f <$> l)) = f <$> head (filter P l).
Proof.
  intros Hf. induction l as [|x l IH]; [done|].
  rewrite fmap_cons, !filter_cons.
  destruct (decide (P x)) as [Hx|Hx].
  - rewrite decide_True by by apply Hf. done.
  - rewrite decide_False by by rewrite Hf. done.
Qed.

Lemma filter_fmap_other {A} (P Q : A → Prop) `{∀ x, Decision (P x)}
    `{∀ x, Decision (Q x)} (f : A → A) (l : list A) :
  (∀ x, P x → ¬ Q x) → (∀ x, P (f x) ↔ P x) →
  filter P ((λ x, if bool_decide (Q x) then f x else x) <$> l) = filter P l.
Proof.
  intros HPQ Hf. induction l as [|x l IH]; [done|].
  rewrite fmap_cons, !filter_cons, IH.
  case_bool_decide as HQ.
  - assert (¬ P x) as HnP by (intros HP; by apply (HPQ x)).
    assert (¬ P (f x)) as HnPf by (by rewrite Hf).
    by rewrite (decide_False _ _ HnP), (decide_False _ _ HnPf).
  - done.
Qed.

(** X1: a record with a null path, root directory or file name is
    refused: [upsertMedia] returns 0 and stores nothing, whether or not
    the store holds a row of that path.  A record with the three
    members set, under a path the store does not hold yet, gets a new
    id above zero; it then reads back by that id and by its path
    exactly as written, with the id filled in and status 'active' (a
    valid record when its path is not empty), and every other path
    reads as before. *)
Theorem upsertMedia_new_path_reads_back (record : MediaRecord) (db : Db) :
  (filePath record = None ∨ rootDir record = None ∨ fileName record = None →
   upsertMedia record db = (db, 0))
  ∧ ∀ path root name,
      filePath record = Some path → rootDir record = Some root →
      fileName record = Some name →
      path ∉ file_path <$> media db →
      let db' := (upsertMedia record db).1 in
      let i := (upsertMedia record db).2 in
      0 < i
      ∧ (i ∉ id <$> media db)
      ∧ getMedia i db' = Some (stored i record)
      ∧ getMediaByPath path db' = Some (stored i record)
      ∧ isValid (stored i record) = negb (QString.isEmpty path)
      ∧ ∀ p, p ≠ path → getMediaByPath p db' = getMediaByPath p db.
Proof.
  split; [apply DatabaseFacts.upsertMedia_null|].
  intros path root name Hpath Hroot Hname Hnew.
  rewrite (DatabaseFacts.upsertMedia_bound record db path root name)
    by done.
  cbn [fst snd]. unfold insert_or_update_row.
  rewrite (bool_decide_eq_false_2 _ Hnew : has_path _ _ = false).
  set (i := next_rowid (id <$> media db)).
  set (row := row_of_record i path root name record).
  assert (filter (λ r, file_path r = path) (media db ++ [row]) = [row])
    as Hfp.
  { rewrite filter_app, filter_none_true.
    - by rewrite filter_cons_True.
    - intros r Hr Hp. apply Hnew. rewrite <- Hp.
      by apply list_elem_of_fmap_2. }
  assert (filter (λ r, id r = i) (media db ++ [row]) = [row]) as Hid.
  { rewrite filter_app, filter_none_true.
    - by rewrite filter_cons_True.
    - intros r Hr Hi. apply (next_rowid_fresh (id <$> media db)).
      fold i. rewrite <- Hi. by apply list_elem_of_fmap_2. }
  unfold select_media_id, getMedia, getMediaByPath. cbn [media with_media].
  rewrite Hfp. cbn [head fmap option_fmap option_map default].
  unfold Datatypes.id.
  change (id row) with i. rewrite Hid. cbn [head fmap option_fmap option_map].
  unfold row. rewrite (record_of_row_of_record i path root name) by done.
  split_and!; [apply next_rowid_pos|apply next_rowid_fresh|done|done| |].
  { unfold isValid. cbn [rec_id filePath stored]. rewrite Hpath.
    by rewrite bool_decide_eq_true_2 by apply next_rowid_pos. }
  intros p Hne. rewrite filter_app.
  rewrite (filter_cons_False _ (row_of_record i path root name record))
    by (simpl; congruence).
  by rewrite filter_nil, app_nil_r.
Qed.

(** X2: storing a record with path, root directory and file name set
    under a path the store already holds returns the id of the row of
    that path and keeps the row's id, root directory and file name; the
    other columns are replaced by the record's and status becomes
    'active'.  No row is added, other paths read as before, and tags
    and associations are untouched. *)
Theorem upsertMedia_existing_path_updates (record old : MediaRecord)
    (db : Db) (path root name : string) :
  filePath record = Some path → rootDir record = Some root →
  fileName record = Some name →
  getMediaByPath path db = Some old →
  let db' := (upsertMedia record db).1 in
  (upsertMedia record db).2 = rec_id old
  ∧ getMediaByPath path db' = Some (updated old record)
  ∧ length (media db') = length (media db)
  ∧ (∀ p, p ≠ path → getMediaByPath p db' = getMediaByPath p db)
  ∧ tags db' = tags db
  ∧ media_tags db' = media_tags db.
Proof.
  intros Hpath Hroot Hname Hold.
  rewrite (DatabaseFacts.upsertMedia_bound record db path root name)
    by done.
  cbn [fst snd]. unfold insert_or_update_row.
  assert (has_path path (media db) = true) as ->.
  { apply DatabaseFacts.has_path_spec. unfold getMediaByPath in Hold.
    destruct (head _) as [r|] eqn:Hh; [|done].
    apply head_Some_elem_of, list_elem_of_filter in Hh as [Hp Hr].
    rewrite <- Hp. by apply list_elem_of_fmap_2. }
  unfold getMediaByPath in *. unfold select_media_id. cbn [media with_media].
  set (f := λ r, if bool_decide (file_path r = path)
                 then update_on_conflict record r else r).
  assert (∀ p r, file_path (f r) = p ↔ file_path r = p) as Hf.
  { intros p r. unfold f. by case_bool_decide. }
  rewrite (head_filter_fmap _ f) by apply Hf.
  destruct (head (filter _ (media db))) as [r|] eqn:Hh; [|done].
  pose proof Hh as Hr.
  apply head_Some_elem_of, list_elem_of_filter in Hr as [Hp Hr].
  injection Hold as <-. cbn [fmap option_fmap option_map default].
  assert (f r = update_on_conflict record r) as ->.
  { unfold f. by rewrite bool_decide_eq_true_2. }
  rewrite record_of_update_on_conflict.
  split_and!; [done|done|by rewrite length_fmap| |done|done].
  intros p Hne. f_equal. f_equal.
  apply (filter_fmap_other _ (λ r, file_path r = path)).
  - intros x -> Hx. by apply Hne.
  - done.
Qed.

(** X3: deleting by path reports whether a row was there; afterwards
    the path reads as absent and every other path reads as before.
    Deleting a path the store does not hold returns false and changes
    nothing. *)
Theorem deleteMedia_removes_only_that_path (path : string) (db : Db) :
  let db' := (deleteMedia path db).1 in
  ((deleteMedia path db).2 = true ↔ path ∈ file_path <$> media db)
  ∧ getMediaByPath path db' = None
  ∧ (∀ p, p ≠ path → getMediaByPath p db' = getMediaByPath p db)
  ∧ ((deleteMedia path db).2 = false → db' = db)
  ∧ tags db' = tags db.
Proof.
  unfold deleteMedia, getMediaByPath. cbn [fst snd media tags].
  split_and!.
  - rewrite bool_decide_eq_true. split.
    + intros Hlen.
      destruct (filter _ (media db)) as [|r l] eqn:Hf; [simpl in Hlen; lia|].
      assert (r ∈ filter (λ r, file_path r = path) (media db)) as Hr
        by (rewrite Hf; left).
      apply list_elem_of_filter in Hr as [<- Hr]. by apply list_elem_of_fmap_2.
    + intros [r [-> Hr]]%list_elem_of_fmap.
      assert (r ∈ filter (λ r', file_path r' = file_path r) (media db)) as Hin
        by by apply list_elem_of_filter.
      destruct (filter _ (media db)); [by apply elem_of_nil in Hin|].
      simpl. lia.
  - rewrite list_filter_filter, filter_none_true; [done|].
    intros r _ [? ?]. done.
  - intros p Hne. rewrite list_filter_filter. do 2 f_equal.
    apply list_filter_iff. intros r. split; [by intros [? ?]|].
    intros ->. done.
  - intros Hfalse%bool_decide_eq_false.
    assert (filter (λ r, file_path r = path) (media db) = []) as Hnil.
    { destruct (filter _ (media db)); [done|]. simpl in Hfalse. lia. }
    rewrite Hnil.
    assert (filter (λ r, file_path r ≠ path) (media db) = media db) as ->.
    { apply filter_all_true. intros r Hr Hp.
      assert (r ∈ filter (λ r, file_path r = path) (media db)) as Hin
        by by apply list_elem_of_filter.
      rewrite Hnil in Hin. by apply elem_of_nil in Hin. }
    assert ((if foreign_keys db
             then filter (λ a, mt_media_id a ∉ id <$> []) (media_tags db)
             else media_tags db) = media_tags db) as ->.
    { destruct (foreign_keys db); [|done].
      apply filter_all_true. intros a _. apply not_elem_of_nil. }
    by destruct db.
  - done.
Qed.

(** X4: [updateThumbnailPath] reports success whether or not a row has
    the path.  The row of the path, if any, then reads back with the
    new thumbnail path and is otherwise unchanged; all other paths read
    as before, and for an unknown path the store is unchanged. *)
Theorem updateThumbnailPath_changes_one_column (path thumb : string)
    (db : Db) :
  let db' := (updateThumbnailPath path thumb db).1 in
  (updateThumbnailPath path thumb db).2 = true
  ∧ getMediaByPath path db'
    = with_thumbnailPath thumb <$> getMediaByPath path db
  ∧ (∀ p, p ≠ path → getMediaByPath p db' = getMediaByPath p db)
  ∧ (path ∉ file_path <$> media db → db' = db)
  ∧ tags db' = tags db
  ∧ media_tags db' = media_tags db.
Proof.
  unfold updateThumbnailPath, getMediaByPath.
  cbn [fst snd media tags media_tags with_media].
  split_and!; [done| | | |done|done].
  - rewrite head_filter_fmap by (intros r; by case_bool_decide).
    destruct (head _) as [r|] eqn:Hh; [|done].
    apply head_Some_elem_of, list_elem_of_filter in Hh as [Hp Hr].
    cbn [fmap option_fmap option_map]. f_equal.
    rewrite bool_decide_eq_true_2 by done.
    unfold record_of_row, with_thumbnailPath. simpl.
    by rewrite ofVariant_nullIfEmpty.
  - intros p Hne. do 2 f_equal.
    apply (filter_fmap_other _ (λ r, file_path r = path)
             (λ r, {| id := id r; file_path := file_path r;
                      root_dir := root_dir r; file_name := file_name r;
                      col_sha256 := col_sha256 r; p_hash := p_hash r;
                      col_width := col_width r; col_height := col_height r;
                      size_bytes := size_bytes r;
                      captured_time_utc := captured_time_utc r;
                      modified_time_utc := modified_time_utc r;
                      media_type := media_type r;
                      thumbnail_path := QString.nullIfEmpty thumb;
                      col_status := col_status r;
                      col_error := col_error r |})).
    + intros x -> Hx. by apply Hne.
    + done.
  - intros Hnew.
    rewrite fmap_id_on; [by destruct db|].
    intros r Hr. rewrite bool_decide_eq_false_2; [done|].
    intros Hp. apply Hnew. rewrite <- Hp. by apply list_elem_of_fmap_2.
Qed.

End MediaRows.

Module MediaRowsWitnesses.
Import Database.

Lemma upsertMedia_new_path_reads_back_witness :
  upsertMedia defaultMediaRecord open_new = (open_new, 0)
  ∧ ("/r/a.jpg" ∉ file_path <$> media open_new)
  ∧ getMediaByPath "/r/a.jpg" (upsertMedia Samples.rec_a open_new).1
    = Some (stored 1 Samples.rec_a).
Proof.
  assert ("/r/a.jpg" ∉ file_path <$> media open_new) as H
    by apply not_elem_of_nil.
  split_and!; [|exact H|].
  - exact (proj1 (MediaRows.upsertMedia_new_path_reads_back
                    defaultMediaRecord open_new) (or_introl eq_refl)).
  - exact (proj1 (proj2 (proj2 (proj2
             (proj2 (MediaRows.upsertMedia_new_path_reads_back
                       Samples.rec_a open_new)
                "/r/a.jpg" "/r" "a.jpg" eq_refl eq_refl eq_refl H))))).
Defined.

Lemma upsertMedia_existing_path_updates_witness :
  getMediaByPath "/r/a.jpg" (upsertMedia Samples.rec_a open_new).1
  = Some (stored 1 Samples.rec_a)
  ∧ (upsertMedia Samples.rec_a (upsertMedia Samples.rec_a open_new).1).2
    = 1.
Proof.
  assert (getMediaByPath "/r/a.jpg" (upsertMedia Samples.rec_a open_new).1
          = Some (stored 1 Samples.rec_a)) as H by reflexivity.
  split; [exact H|].
  exact (proj1 (MediaRows.upsertMedia_existing_path_updates
                  Samples.rec_a (stored 1 Samples.rec_a)
                  (upsertMedia Samples.rec_a open_new).1
                  "/r/a.jpg" "/r" "a.jpg" eq_refl eq_refl eq_refl H)).
Defined.

End MediaRowsWitnesses.

(** ** Tags of a media: set, add, remove, list *)

Module TagOps.
Import Database.

(** *** Sorted lists of names *)

Lemma StronglySorted_filter {A} (R : relation A) (P : A → Prop)
    `{∀ x, Decision (P x)} (l : list A) :
  StronglySorted R l → StronglySorted R (filter P l).
Proof.
  induction 1 as [|x l Hs IH Hall]; [constructor|].
  rewrite filter_cons. case_decide; [|done].
  constructor; [done|].
  apply Forall_forall. intros y [_ Hy]%list_elem_of_filter.
  by eapply Forall_forall in Hall.
Qed.

Lemma Sorted_le_filter (P : string → Prop) `{∀ x, Decision (P x)}
    (l : list string) :
  Sorted String.le l → Sorted String.le (filter P l).
Proof.
  intros Hs. apply StronglySorted_Sorted, StronglySorted_filter.
  by apply Sorted_StronglySorted; [apply _|].
Qed.

(** Two ascending lists without duplicates that hold the same names are
    the same list. *)
Lemma sorted_names_ext (l1 l2 : list string) :
  Sorted String.le l1 → Sorted String.le l2 → NoDup l1 → NoDup l2 →
  (∀ n, n ∈ l1 ↔ n ∈ l2) → l1 = l2.
Proof.
  intros Hs1 Hs2 Hn1 Hn2 Hiff.
  apply (Sorted_unique String.le); [done|done|].
  by apply NoDup_Permutation.
Qed.

Lemma merge_sort_names_ext (l1 l2 : list string) :
  NoDup l1 → NoDup l2 → (∀ n, n ∈ l1 ↔ n ∈ l2) →
  merge_sort String.le l1 = merge_sort String.le l2.
Proof.
  intros Hn1 Hn2 Hiff.
  apply sorted_names_ext; try apply (Sorted_merge_sort String.le).
  - by rewrite merge_sort_Permutation.
  - by rewrite merge_sort_Permutation.
  - intros n. by rewrite !merge_sort_Permutation.
Qed.

(** *** The join of [getMediaTags] *)

Lemma filter_eq_singleton {A} `{EqDecision A} (P : A → Prop)
    `{∀ x, Decision (P x)} (x : A) (l : list A) :
  NoDup l → (∀ y, P y ↔ y = x) →
  filter P l = if bool_decide (x ∈ l) then [x] else [].
Proof.
  intros Hnd HP. induction l as [|y l IH]; [done|].
  apply NoDup_cons in Hnd as [Hy Hnd]. rewrite filter_cons.
  destruct (decide (P y)) as [Hp|Hp].
  - apply HP in Hp as ->.
    rewrite bool_decide_eq_true_2 by left.
    rewrite IH by done. by rewrite bool_decide_eq_false_2.
  - rewrite IH by done.
    assert (y ≠ x) by (intros ->; by apply Hp, HP).
    case_bool_decide as H1; case_bool_decide as H2; try done.
    + destruct H2. by right.
    + apply elem_of_cons in H2 as [?|?]; congruence.
Qed.

Lemma getMediaTags_as_filter mediaId db :
  NoDup (media_tags db) →
  getMediaTags mediaId db
  = merge_sort String.le
      (tag_name <$> filter (carries mediaId db) (tags db)).
Proof.
  intros Hnd. unfold getMediaTags. f_equal.
  induction (tags db) as [|t ts IH]; [done|].
  rewrite bind_cons, IH, filter_cons.
  rewrite (filter_eq_singleton _
             {| mt_media_id := mediaId; mt_tag_id := tag_id t |}); [|done|].
  - unfold carries at 2.
    destruct (decide _) as [Hin|Hin].
    + by rewrite bool_decide_eq_true_2.
    + by rewrite bool_decide_eq_false_2.
  - intros [m i]. simpl. split; [by intros [-> ->]|].
    by intros [= -> ->].
Qed.

Lemma elem_of_getMediaTags mediaId db n :
  NoDup (media_tags db) →
  n ∈ getMediaTags mediaId db
  ↔ ∃ t, t ∈ tags db ∧ tag_name t = n ∧ carries mediaId db t.
Proof.
  intros Hnd. rewrite getMediaTags_as_filter, merge_sort_Permutation by done.
  rewrite list_elem_of_fmap. split.
  - intros [t [-> [Hc Ht]%list_elem_of_filter]]. by exists t.
  - intros [t (Ht & <- & Hc)]. exists t. split; [done|].
    by apply list_elem_of_filter.
Qed.

Lemma NoDup_getMediaTags mediaId db :
  wf db → NoDup (getMediaTags mediaId db).
Proof.
  intros Hwf. rewrite getMediaTags_as_filter by apply Hwf.
  rewrite merge_sort_Permutation.
  apply NoDup_fmap_filter, Hwf.
Qed.

Lemma Sorted_getMediaTags mediaId db :
  Sorted String.le (getMediaTags mediaId db).
Proof. apply (Sorted_merge_sort String.le). Qed.

(** To compare the tag lists of two well-formed stores it is enough to
    compare their members. *)
Lemma getMediaTags_ext m db m' db' :
  wf db → wf db' →
  (∀ n, n ∈ getMediaTags m db ↔ n ∈ getMediaTags m' db') →
  getMediaTags m db = getMediaTags m' db'.
Proof.
  intros Hwf Hwf' Hiff.
  apply sorted_names_ext;
    auto using Sorted_getMediaTags, NoDup_getMediaTags.
Qed.

(** *** [upsertTags] *)

Lemma normalized_nonempty_cons n names :
  normalized_nonempty (n :: names)
  = if QString.isEmpty (normalize n) then normalized_nonempty names
    else normalize n :: normalized_nonempty names.
Proof.
  unfold normalized_nonempty. rewrite fmap_cons, filter_cons.
  destruct (QString.isEmpty (normalize n)) eqn:E.
  - by rewrite decide_False by congruence.
  - by rewrite decide_True.
Qed.

Lemma upsertTags_cons n names db :
  upsertTags (n :: names) db
  = if QString.isEmpty (normalize n) then upsertTags names db
    else
      let db1 := insert_tag_do_nothing (normalize n) db in
      ((upsertTags names db1).1,
       option_list (select_tag_id (normalize n) db1)
         ++ (upsertTags names db1).2).
Proof.
  simpl. destruct (QString.isEmpty _); [done|].
  by destruct (upsertTags names _).
Qed.

Lemma insert_tag_do_nothing_frame n db :
  foreign_keys (insert_tag_do_nothing n db) = foreign_keys db
  ∧ media (insert_tag_do_nothing n db) = media db
  ∧ media_tags (insert_tag_do_nothing n db) = media_tags db.
Proof. unfold insert_tag_do_nothing. by case_bool_decide. Qed.

Lemma upsertTags_frame names db :
  foreign_keys (upsertTags names db).1 = foreign_keys db
  ∧ media (upsertTags names db).1 = media db
  ∧ media_tags (upsertTags names db).1 = media_tags db.
Proof.
  revert db. induction names as [|n names IH]; intros db; [done|].
  rewrite upsertTags_cons. destruct (QString.isEmpty _); [apply IH|].
  cbn [fst]. destruct (IH (insert_tag_do_nothing (normalize n) db))
    as (-> & -> & ->).
  apply insert_tag_do_nothing_frame.
Qed.

Lemma insert_tag_do_nothing_names n db :
  tag_name <$> tags (insert_tag_do_nothing n db)
  = if bool_decide (n ∈ tag_name <$> tags db) then tag_name <$> tags db
    else (tag_name <$> tags db) ++ [n].
Proof.
  unfold insert_tag_do_nothing. case_bool_decide; [done|].
  simpl. by rewrite fmap_app.
Qed.

(** After the insert the name is in the table, and the lookup that
    follows finds a row with that name. *)
Lemma insert_tag_do_nothing_select n db :
  ∃ i, select_tag_id n (insert_tag_do_nothing n db) = Some i
       ∧ {| tag_id := i; tag_name := n |}
         ∈ tags (insert_tag_do_nothing n db).
Proof.
  assert (n ∈ tag_name <$> tags (insert_tag_do_nothing n db)) as Hin.
  { rewrite insert_tag_do_nothing_names. case_bool_decide; [done|].
    apply elem_of_app. right. left. }
  apply list_elem_of_fmap in Hin as [t [-> Ht]].
  unfold select_tag_id.
  assert (t ∈ filter (λ t', tag_name t' = tag_name t)
                (tags (insert_tag_do_nothing (tag_name t) db))) as Hf
    by by apply list_elem_of_filter.
  destruct (filter _ _) as [|t0 l] eqn:E; [by apply elem_of_nil in Hf|].
  assert (t0 ∈ t0 :: l) as H0 by left.
  rewrite <- E in H0. apply list_elem_of_filter in H0 as [Hn H0].
  exists (tag_id t0). split; [done|].
  assert ({| tag_id := tag_id t0; tag_name := tag_name t |} = t0) as ->
    by (rewrite <- Hn; by destruct t0).
  done.
Qed.

(** The ids returned name, one for one and in order, the normalised
    non-blank names of the argument. *)
Lemma upsertTags_ids names db :
  Forall2 (λ i n, {| tag_id := i; tag_name := n |}
                  ∈ tags (upsertTags names db).1)
    (upsertTags names db).2 (normalized_nonempty names).
Proof.
  revert db. induction names as [|n names IH]; intros db; [constructor|].
  rewrite upsertTags_cons, normalized_nonempty_cons.
  destruct (QString.isEmpty _); [apply IH|]. cbn [fst snd].
  destruct (insert_tag_do_nothing_select (normalize n) db) as (i & -> & Hi).
  simpl. constructor; [|apply IH].
  eapply elem_of_prefix; [exact Hi|].
  apply TagLifetime.upsertTags_tags_prefix.
Qed.

Lemma upsertTags_rows names db t :
  t ∈ tags (upsertTags names db).1 →
  t ∈ tags db ∨ tag_name t ∈ normalized_nonempty names.
Proof.
  revert db. induction names as [|n names IH]; intros db; [by left|].
  rewrite upsertTags_cons, normalized_nonempty_cons.
  destruct (QString.isEmpty _); [apply IH|]. cbn [fst].
  intros [Ht|Ht]%IH; [|right; by right].
  unfold insert_tag_do_nothing in Ht. case_bool_decide; [by left|].
  simpl in Ht. apply elem_of_app in Ht as [?|Ht]; [by left|].
  apply list_elem_of_singleton in Ht as ->. right. left.
Qed.

Lemma upsertTags_blank names db :
  normalized_nonempty names = [] → upsertTags names db = (db, []).
Proof.
  revert db. induction names as [|n names IH]; intros db; [done|].
  rewrite upsertTags_cons, normalized_nonempty_cons.
  destruct (QString.isEmpty _); [apply IH|done].
Qed.

Lemma tag_name_of_row db t :
  NoDup (tag_id <$> tags db) → t ∈ tags db →
  tag_name_of (tag_id t) db = Some (tag_name t).
Proof.
  intros Hnd Ht. unfold tag_name_of.
  assert (t ∈ filter (λ t', tag_id t' = tag_id t) (tags db)) as Hf
    by by apply list_elem_of_filter.
  pose proof (TagCounts.filter_unique_key tag_id
                (λ t', tag_id t' = tag_id t) (tag_id t) (tags db) Hnd) as Hlen.
  destruct (filter _ (tags db)) as [|t0 [|t1 l]].
  - by apply elem_of_nil in Hf.
  - apply list_elem_of_singleton in Hf as ->. done.
  - simpl in Hlen. specialize (Hlen (λ _ H, H)). lia.
Qed.

(** X5: [upsertTags] returns one id per non-blank name, in order, and
    each id is the id of the tag with that normalised name.  Names not
    yet in the table are appended to it; existing tag rows, media and
    associations are untouched, and an argument with no non-blank name
    changes nothing. *)
Theorem upsertTags_returns_ids_of_names (names : list string) (db : Db) :
  wf db →
  let db' := (upsertTags names db).1 in
  (λ i, tag_name_of i db') <$> (upsertTags names db).2
  = Some <$> normalized_nonempty names
  ∧ (∀ n, n ∈ tag_name <$> tags db'
          ↔ n ∈ tag_name <$> tags db ∨ n ∈ normalized_nonempty names)
  ∧ tags db `prefix_of` tags db'
  ∧ media db' = media db
  ∧ media_tags db' = media_tags db
  ∧ (normalized_nonempty names = [] → upsertTags names db = (db, [])).
Proof.
  intros Hwf. cbn zeta.
  pose proof (DatabaseFacts.wf_upsertTags names db Hwf) as Hwf'.
  pose proof (upsertTags_ids names db) as Hids.
  destruct (upsertTags_frame names db) as (_ & Hm & Hmt).
  split_and!; [| |apply TagLifetime.upsertTags_tags_prefix|done|done
              |apply upsertTags_blank].
  - induction Hids as [|i n ids ns Hi _ IH]; [done|].
    rewrite !fmap_cons, IH. f_equal.
    apply (tag_name_of_row _ _ (wf_tag_id _ Hwf') Hi).
  - intros n. split.
    + intros [t [-> Ht]]%list_elem_of_fmap.
      apply upsertTags_rows in Ht as [Ht|Ht]; [left|by right].
      by apply list_elem_of_fmap_2.
    + intros [[t [-> Ht]]%list_elem_of_fmap|Hn].
      * apply list_elem_of_fmap_2.
        eapply elem_of_prefix; [exact Ht|].
        apply TagLifetime.upsertTags_tags_prefix.
      * clear -Hids Hn. induction Hids as [|i n' ids ns Hi _ IH].
        -- by apply elem_of_nil in Hn.
        -- apply elem_of_cons in Hn as [->|Hn]; [|by apply IH].
           apply list_elem_of_fmap.
           by exists {| tag_id := i; tag_name := n' |}.
Qed.

(** *** Inserting associations *)

(** Does the store accept associations of media [m] with the tags
    [ids]?  Without foreign-key enforcement always; with it, when the
    media row and the tag rows exist. *)
Lemma insert_media_tag_ignore_frame m i db :
  foreign_keys (insert_media_tag_ignore m i db) = foreign_keys db
  ∧ media (insert_media_tag_ignore m i db) = media db
  ∧ tags (insert_media_tag_ignore m i db) = tags db.
Proof.
  unfold insert_media_tag_ignore. case_bool_decide; [done|].
  by destruct (_ && _).
Qed.

Lemma insert_media_tags_frame m ids db :
  foreign_keys (insert_media_tags m ids db) = foreign_keys db
  ∧ media (insert_media_tags m ids db) = media db
  ∧ tags (insert_media_tags m ids db) = tags db.
Proof.
  unfold insert_media_tags. revert db.
  induction ids as [|i ids IH]; intros db; [done|]. simpl.
  destruct (IH (insert_media_tag_ignore m i db)) as (-> & -> & ->).
  apply insert_media_tag_ignore_frame.
Qed.

Lemma insert_media_tag_ignore_rows m i db a :
  foreign_keys db = false
  ∨ (m ∈ id <$> media db ∧ i ∈ tag_id <$> tags db) →
  a ∈ media_tags (insert_media_tag_ignore m i db)
  ↔ a ∈ media_tags db ∨ a = {| mt_media_id := m; mt_tag_id := i |}.
Proof.
  intros Hok. unfold insert_media_tag_ignore.
  case_bool_decide as Hin.
  - split; [by left|]. by intros [?| ->].
  - assert (foreign_keys db
            && negb (bool_decide (m ∈ id <$> media db)
                     && bool_decide (i ∈ tag_id <$> tags db)) = false) as ->.
    { destruct Hok as [-> | [Hm Hi]]; [done|].
      rewrite !bool_decide_eq_true_2 by done. simpl. apply andb_false_r. }
    simpl. rewrite elem_of_app, list_elem_of_singleton. done.
Qed.

Lemma insert_media_tags_rows m ids db a :
  foreign_keys db = false
  ∨ (m ∈ id <$> media db ∧ ∀ i, i ∈ ids → i ∈ tag_id <$> tags db) →
  a ∈ media_tags (insert_media_tags m ids db)
  ↔ a ∈ media_tags db ∨ (mt_media_id a = m ∧ mt_tag_id a ∈ ids).
Proof.
  unfold insert_media_tags. revert db.
  induction ids as [|i ids IH]; intros db Hok.
  - simpl. split; [by left|]. intros [?|[_ H]]; [done|].
    by apply elem_of_nil in H.
  - simpl.
    destruct (insert_media_tag_ignore_frame m i db) as (Hfk & Hm & Ht).
    rewrite IH.
    2:{ rewrite Hfk, Hm, Ht. destruct Hok as [?|[? Hall]]; [by left|right].
        split; [done|]. intros j Hj. apply Hall. by right. }
    rewrite insert_media_tag_ignore_rows.
    2:{ destruct Hok as [?|[? Hall]]; [by left|right].
        split; [done|]. apply Hall. left. }
    rewrite elem_of_cons. split.
    + intros [[?| ->]|[? ?]]; [by left|right; split; [done|by left]|].
      right. split; [done|by right].
    + intros [?|[Hm' [Hi|?]]]; [by left; left| |right; by split].
      left. right. destruct a. simpl in *. by subst.
Qed.

(** Inserting the same associations a second time changes nothing. *)
Lemma insert_media_tag_ignore_stable m i db0 db :
  foreign_keys db = foreign_keys db0 → media db = media db0 →
  tags db = tags db0 →
  media_tags (insert_media_tag_ignore m i db0) ⊆ media_tags db →
  insert_media_tag_ignore m i db = db.
Proof.
  intros Hfk Hm Ht Hsub. unfold insert_media_tag_ignore.
  case_bool_decide as Hin; [done|]. rewrite Hfk, Hm, Ht.
  unfold insert_media_tag_ignore in Hsub.
  destruct (foreign_keys db0 && _); [done|]. destruct Hin. apply Hsub.
  case_bool_decide; [done|]. simpl. apply elem_of_app. right. left.
Qed.

Lemma insert_media_tag_ignore_mono m i db :
  media_tags db ⊆ media_tags (insert_media_tag_ignore m i db).
Proof.
  unfold insert_media_tag_ignore. case_bool_decide; [done|].
  destruct (_ && _); [done|]. simpl. intros a Ha. apply elem_of_app. by left.
Qed.

Lemma insert_media_tags_mono m ids db :
  media_tags db ⊆ media_tags (insert_media_tags m ids db).
Proof.
  unfold insert_media_tags. revert db.
  induction ids as [|i ids IH]; intros db; [done|]. simpl.
  etrans; [apply insert_media_tag_ignore_mono|apply IH].
Qed.

Lemma insert_media_tags_stable m ids db0 db :
  foreign_keys db = foreign_keys db0 → media db = media db0 →
  tags db = tags db0 →
  media_tags (insert_media_tags m ids db0) ⊆ media_tags db →
  insert_media_tags m ids db = db.
Proof.
  unfold insert_media_tags. revert db0.
  induction ids as [|i ids IH]; intros db0 Hfk Hm Ht Hsub; [done|].
  simpl in *.
  destruct (insert_media_tag_ignore_frame m i db0) as (Hfk0 & Hm0 & Ht0).
  rewrite (insert_media_tag_ignore_stable m i db0 db); try done.
  - apply (IH (insert_media_tag_ignore m i db0)); [congruence..|done].
  - etrans; [|exact Hsub]. apply (insert_media_tags_mono m ids).
Qed.

(** *** What the tag operations do to the tag list of a media *)

Lemma key_inj {A B} (f : A → B) (l : list A) (x y : A) :
  NoDup (f <$> l) → x ∈ l → y ∈ l → f x = f y → x = y.
Proof.
  intros Hnd Hx Hy Hf. induction l as [|z l IH]; [by apply elem_of_nil in Hx|].
  rewrite fmap_cons in Hnd. apply NoDup_cons in Hnd as [Hz Hnd].
  apply elem_of_cons in Hx as [->|Hx]; apply elem_of_cons in Hy as [->|Hy].
  - done.
  - destruct Hz. rewrite Hf. by apply list_elem_of_fmap_2.
  - destruct Hz. rewrite <- Hf. by apply list_elem_of_fmap_2.
  - by apply IH.
Qed.

Lemma Forall2_elem_of_l {A B} (R : A → B → Prop) l k x :
  Forall2 R l k → x ∈ l → ∃ y, y ∈ k ∧ R x y.
Proof.
  induction 1 as [|a b l k Hab _ IH]; [by intros ?%elem_of_nil|].
  intros [->|Hx]%elem_of_cons.
  - exists b. split; [left|done].
  - destruct (IH Hx) as (y & Hy & HR). exists y. split; [by right|done].
Qed.

Lemma Forall2_elem_of_r {A B} (R : A → B → Prop) l k y :
  Forall2 R l k → y ∈ k → ∃ x, x ∈ l ∧ R x y.
Proof.
  induction 1 as [|a b l k Hab _ IH]; [by intros ?%elem_of_nil|].
  intros [->|Hy]%elem_of_cons.
  - exists a. split; [left|done].
  - destruct (IH Hy) as (x & Hx & HR). exists x. split; [by right|done].
Qed.

(** In the store left by [upsertTags], a tag row has one of the
    returned ids exactly when it has one of the given names. *)
Lemma upsertTags_id_iff_name names db t :
  wf db → t ∈ tags (upsertTags names db).1 →
  tag_id t ∈ (upsertTags names db).2
  ↔ tag_name t ∈ normalized_nonempty names.
Proof.
  intros Hwf Ht.
  pose proof (DatabaseFacts.wf_upsertTags names db Hwf) as Hwf'.
  pose proof (upsertTags_ids names db) as Hids. split.
  - intros Hi. destruct (Forall2_elem_of_l _ _ _ _ Hids Hi) as (n & Hn & Hrow).
    assert ({| tag_id := tag_id t; tag_name := n |} = t) as Heq.
    { by apply (key_inj tag_id _ _ _ (wf_tag_id _ Hwf')). }
    by rewrite <- Heq.
  - intros Hn. destruct (Forall2_elem_of_r _ _ _ _ Hids Hn) as (i & Hi & Hrow).
    assert ({| tag_id := i; tag_name := tag_name t |} = t) as Heq.
    { by apply (key_inj tag_name _ _ _ (wf_tag_name _ Hwf')). }
    by rewrite <- Heq.
Qed.

Lemma upsertTags_ids_exist names db i :
  i ∈ (upsertTags names db).2 → i ∈ tag_id <$> tags (upsertTags names db).1.
Proof.
  intros Hi.
  destruct (Forall2_elem_of_l _ _ _ _ (upsertTags_ids names db) Hi)
    as (n & _ & Hrow).
  apply list_elem_of_fmap. by exists {| tag_id := i; tag_name := n |}.
Qed.

(** A tag row of the extended table that an old association points to
    is an old tag row. *)
Lemma upsertTags_old_row names db t a :
  wf db → tags_exist db → t ∈ tags (upsertTags names db).1 →
  a ∈ media_tags db → mt_tag_id a = tag_id t → t ∈ tags db.
Proof.
  intros Hwf Hex Ht Ha Hid.
  pose proof (DatabaseFacts.wf_upsertTags names db Hwf) as Hwf'.
  apply Hex in Ha. rewrite Hid in Ha.
  apply list_elem_of_fmap in Ha as (t0 & Hid0 & Ht0).
  assert (t0 ∈ tags (upsertTags names db).1) as Ht0'.
  { eapply elem_of_prefix; [exact Ht0|].
    apply TagLifetime.upsertTags_tags_prefix. }
  assert (t = t0) as ->; [|done].
  by apply (key_inj tag_id _ _ _ (wf_tag_id _ Hwf')).
Qed.

Lemma elem_of_sorted_union (l k : list string) (n : string) :
  n ∈ merge_sort String.le (remove_dups (l ++ k)) ↔ n ∈ l ∨ n ∈ k.
Proof.
  by rewrite merge_sort_Permutation, elem_of_remove_dups, elem_of_app.
Qed.

Lemma upsertTags_names_exist names db n :
  n ∈ normalized_nonempty names →
  n ∈ tag_name <$> tags (upsertTags names db).1.
Proof.
  intros Hn.
  destruct (Forall2_elem_of_r _ _ _ _ (upsertTags_ids names db) Hn)
    as (i & _ & Hrow).
  apply list_elem_of_fmap. by exists {| tag_id := i; tag_name := n |}.
Qed.

(** X6: [addMediaTags] makes the tag list of the media the union of
    its former tags and the given names, normalised and without blank
    ones; the tag list of every other media is as before. *)
Theorem addMediaTags_then_getMediaTags (mediaId : Z) (names : list string)
    (db : Db) :
  wf db → tags_exist db →
  foreign_keys db = false ∨ mediaId ∈ id <$> media db →
  getMediaTags mediaId (addMediaTags mediaId names db)
  = merge_sort String.le
      (remove_dups (getMediaTags mediaId db ++ normalized_nonempty names))
  ∧ ∀ other, other ≠ mediaId →
             getMediaTags other (addMediaTags mediaId names db)
             = getMediaTags other db.
Proof.
  intros Hwf Hex Hok.
  pose proof (DatabaseFacts.wf_addMediaTags mediaId names db Hwf) as Hwf2.
  pose proof (upsertTags_id_iff_name names db) as Hids.
  pose proof (upsertTags_old_row names db) as Hold.
  pose proof (upsertTags_ids_exist names db) as Hidex.
  pose proof (upsertTags_names_exist names db) as Hnex.
  pose proof (TagLifetime.upsertTags_tags_prefix names db) as Hpre.
  destruct (upsertTags_frame names db) as (Hfk & Hm & Hmt).
  unfold addMediaTags in *.
  destruct (upsertTags names db) as [db1 ids]. cbn [fst snd] in *.
  destruct (insert_media_tags_frame mediaId ids db1) as (_ & _ & Htags).
  assert (∀ a, a ∈ media_tags (insert_media_tags mediaId ids db1)
               ↔ a ∈ media_tags db
                 ∨ (mt_media_id a = mediaId ∧ mt_tag_id a ∈ ids)) as Hrows.
  { intros a. rewrite insert_media_tags_rows, Hmt; [done|].
    rewrite Hfk, Hm. destruct Hok as [?|?]; [by left|by right]. }
  split.
  - apply sorted_names_ext.
    + apply Sorted_getMediaTags.
    + apply (Sorted_merge_sort String.le).
    + by apply NoDup_getMediaTags.
    + rewrite merge_sort_Permutation. apply NoDup_remove_dups.
    + intros n. rewrite elem_of_sorted_union.
      rewrite !elem_of_getMediaTags by (apply Hwf2 || apply Hwf).
      unfold carries. rewrite Htags. split.
      * intros (t & Ht & <- & [Ha|[_ Hi]]%Hrows).
        -- left. exists t. split_and!; [|done|done].
           by apply (Hold t _ Hwf Hex Ht Ha).
        -- right. simpl in Hi. by apply Hids.
      * intros [(t & Ht & <- & Ha)|Hn].
        -- exists t. split_and!; [by eapply elem_of_prefix|done|].
           apply Hrows. by left.
        -- pose proof (Hnex n Hn) as [t [-> Ht]]%list_elem_of_fmap.
           exists t. split_and!; [done|done|].
           apply Hrows. right. split; [done|]. by apply Hids.
  - intros other Hne. apply getMediaTags_ext; [done|done|].
    intros n. rewrite !elem_of_getMediaTags by (apply Hwf2 || apply Hwf).
    unfold carries. rewrite Htags. split.
    + intros (t & Ht & <- & [Ha|[Hm' _]]%Hrows); [|done].
      exists t. split_and!; [|done|done].
      by apply (Hold t _ Hwf Hex Ht Ha).
    + intros (t & Ht & <- & Ha).
      exists t. split_and!; [by eapply elem_of_prefix|done|].
      apply Hrows. by left.
Qed.

(** X7: [setMediaTags] makes the tag list of the media exactly the
    given names, normalised, without blank ones and without
    duplicates, in ascending order (the empty list clears it); the tag
    list of every other media is as before. *)
Theorem setMediaTags_then_getMediaTags (mediaId : Z) (names : list string)
    (db : Db) :
  wf db → tags_exist db →
  foreign_keys db = false ∨ mediaId ∈ id <$> media db →
  getMediaTags mediaId (setMediaTags mediaId names db)
  = merge_sort String.le (remove_dups (normalized_nonempty names))
  ∧ ∀ other, other ≠ mediaId →
             getMediaTags other (setMediaTags mediaId names db)
             = getMediaTags other db.
Proof.
  intros Hwf Hex Hok.
  pose proof (DatabaseFacts.wf_setMediaTags mediaId names db Hwf) as Hwf2.
  pose proof (upsertTags_id_iff_name names db) as Hids.
  pose proof (upsertTags_old_row names db) as Hold.
  pose proof (upsertTags_ids_exist names db) as Hidex.
  pose proof (upsertTags_names_exist names db) as Hnex.
  pose proof (TagLifetime.upsertTags_tags_prefix names db) as Hpre.
  destruct (upsertTags_frame names db) as (Hfk & Hm & Hmt).
  unfold setMediaTags in *.
  destruct (upsertTags names db) as [db1 ids]. cbn [fst snd] in *.
  set (db1' := with_media_tags db1
                 (filter (λ a, mt_media_id a ≠ mediaId) (media_tags db1)))
    in *.
  destruct (insert_media_tags_frame mediaId ids db1') as (_ & _ & Htags).
  assert (∀ a, a ∈ media_tags (insert_media_tags mediaId ids db1')
               ↔ (a ∈ media_tags db ∧ mt_media_id a ≠ mediaId)
                 ∨ (mt_media_id a = mediaId ∧ mt_tag_id a ∈ ids)) as Hrows.
  { intros a. rewrite insert_media_tags_rows.
    - unfold db1'. cbn [media_tags with_media_tags].
      rewrite list_elem_of_filter, Hmt. tauto.
    - unfold db1'. cbn [foreign_keys media tags with_media_tags].
      rewrite Hfk, Hm. destruct Hok as [?|?]; [by left|by right]. }
  split.
  - apply sorted_names_ext.
    + apply Sorted_getMediaTags.
    + apply (Sorted_merge_sort String.le).
    + by apply NoDup_getMediaTags.
    + rewrite merge_sort_Permutation. apply NoDup_remove_dups.
    + intros n. rewrite merge_sort_Permutation, elem_of_remove_dups.
      rewrite !elem_of_getMediaTags by apply Hwf2.
      unfold carries. rewrite Htags. split.
      * intros (t & Ht & <- & [[_ Hne]|[_ Hi]]%Hrows); [done|].
        simpl in Hi. by apply Hids.
      * intros Hn.
        pose proof (Hnex n Hn) as [t [-> Ht]]%list_elem_of_fmap.
        exists t. split_and!; [done|done|].
        apply Hrows. right. split; [done|]. by apply Hids.
  - intros other Hne. apply getMediaTags_ext; [done|done|].
    intros n. rewrite !elem_of_getMediaTags by (apply Hwf2 || apply Hwf).
    unfold carries. rewrite Htags. split.
    + intros (t & Ht & <- & [[Ha _]|[Hm' _]]%Hrows); [|done].
      exists t. split_and!; [|done|done].
      by apply (Hold t _ Hwf Hex Ht Ha).
    + intros (t & Ht & <- & Ha).
      exists t. split_and!; [by eapply elem_of_prefix|done|].
      apply Hrows. left. by split.
Qed.

(** *** Repeating and removing *)

Lemma head_filter_prefix {A} (P : A → Prop) `{∀ x, Decision (P x)}
    (l k : list A) :
  l `prefix_of` k → is_Some (head (filter P l)) →
  head (filter P k) = head (filter P l).
Proof.
  intros [k' ->] [x Hx]. rewrite filter_app.
  destruct (filter P l); [done|done].
Qed.

(** Once the names are in the table, [upsertTags] returns their ids
    and writes nothing. *)
Lemma upsertTags_stable names db0 db :
  tags (upsertTags names db0).1 `prefix_of` tags db →
  upsertTags names db = (db, (upsertTags names db0).2).
Proof.
  revert db0. induction names as [|n names IH]; intros db0 Hpre; [done|].
  rewrite !upsertTags_cons in *.
  destruct (QString.isEmpty (normalize n)); [by apply IH|].
  cbn [fst snd] in *.
  set (db01 := insert_tag_do_nothing (normalize n) db0) in *.
  assert (tags db01 `prefix_of` tags db) as Hpre1.
  { etrans; [|exact Hpre]. apply TagLifetime.upsertTags_tags_prefix. }
  destruct (insert_tag_do_nothing_select (normalize n) db0)
    as (i & Hsel & Hrow). fold db01 in Hsel, Hrow.
  assert (insert_tag_do_nothing (normalize n) db = db) as Hsame.
  { unfold insert_tag_do_nothing. rewrite bool_decide_eq_true_2; [done|].
    apply list_elem_of_fmap.
    exists {| tag_id := i; tag_name := normalize n |}. split; [done|].
    by eapply elem_of_prefix. }
  rewrite Hsame, (IH db01 Hpre). cbn [fst snd]. do 2 f_equal.
  unfold select_tag_id in *.
  rewrite (head_filter_prefix _ (tags db01) (tags db)); [done|done|].
  destruct (head _); [by eexists|done].
Qed.

(** X8: adding the same tags to the same media a second time changes
    nothing, in whatever state the store is. *)
Theorem addMediaTags_idempotent (mediaId : Z) (names : list string)
    (db : Db) :
  addMediaTags mediaId names (addMediaTags mediaId names db)
  = addMediaTags mediaId names db.
Proof.
  unfold addMediaTags.
  pose proof (upsertTags_stable names db) as Hst.
  destruct (upsertTags names db) as [db1 ids]. cbn [fst snd] in *.
  destruct (insert_media_tags_frame mediaId ids db1) as (Hfk & Hm & Ht).
  rewrite (Hst (insert_media_tags mediaId ids db1)) by by rewrite Ht.
  by apply (insert_media_tags_stable mediaId ids db1).
Qed.



(** *** Removing a tag everywhere *)

Lemma allTags_spec db :
  Sorted String.le (allTags db)
  ∧ (NoDup (tag_name <$> tags db) → NoDup (allTags db))
  ∧ ∀ n, n ∈ allTags db ↔ n ∈ tag_name <$> tags db.
Proof.
  unfold allTags. split_and!.
  - apply (Sorted_merge_sort String.le).
  - by rewrite merge_sort_Permutation.
  - intros n. by rewrite merge_sort_Permutation.
Qed.

Lemma select_tag_id_None name db :
  select_tag_id name db = None → name ∉ tag_name <$> tags db.
Proof.
  unfold select_tag_id. intros Hsel [t [-> Ht]]%list_elem_of_fmap.
  assert (t ∈ filter (λ t', tag_name t' = tag_name t) (tags db)) as Hf
    by by apply list_elem_of_filter.
  destruct (filter _ (tags db)); [by apply elem_of_nil in Hf|done].
Qed.

Lemma select_tag_id_Some name db i :
  select_tag_id name db = Some i →
  {| tag_id := i; tag_name := name |} ∈ tags db.
Proof.
  unfold select_tag_id. intros Hsel.
  destruct (head _) as [t|] eqn:Hh; [|done]. injection Hsel as <-.
  apply head_Some_elem_of, list_elem_of_filter in Hh as [<- Ht].
  by destruct t.
Qed.

Lemma tag_name_of_Some db i n :
  tag_name_of i db = Some n → {| tag_id := i; tag_name := n |} ∈ tags db.
Proof.
  unfold tag_name_of. intros Hsel.
  destruct (head _) as [t|] eqn:Hh; [|done]. injection Hsel as <-.
  apply head_Some_elem_of, list_elem_of_filter in Hh as [<- Ht].
  by destruct t.
Qed.

Lemma removeTagGlobally_unfold name db tagId :
  QString.isEmpty (normalize name) = false →
  select_tag_id (normalize name) db = Some tagId →
  removeTagGlobally name db
  = ({| foreign_keys := foreign_keys db;
        max_variables := max_variables db; media := media db;
        tags := filter (λ t, tag_id t ≠ tagId) (tags db);
        media_tags := filter (λ a, mt_tag_id a ≠ tagId) (media_tags db) |},
     Z.of_nat (length (filter (λ a, mt_tag_id a = tagId) (media_tags db)))).
Proof.
  intros Hne Hsel. unfold removeTagGlobally. rewrite Hne, Hsel.
  rewrite bool_decide_eq_false_2; [done|].
  intros [a [-> [Ha _]%list_elem_of_filter]]%list_elem_of_fmap. done.
Qed.

(** X10: [removeTagGlobally] takes the tag, named after normalisation,
    off every media and out of the list of all tags, leaves every other
    tag where it was, and returns the number of associations the tag
    had.  For a name that is not a tag the store is unchanged and the
    result is 0. *)
Theorem removeTagGlobally_removes_tag_everywhere (name : string) (db : Db) :
  wf db → QString.isEmpty (normalize name) = false →
  let db' := (removeTagGlobally name db).1 in
  (∀ mediaId,
     getMediaTags mediaId db'
     = filter (λ n, n ≠ normalize name) (getMediaTags mediaId db))
  ∧ allTags db' = filter (λ n, n ≠ normalize name) (allTags db)
  ∧ (removeTagGlobally name db).2
    = Z.of_nat
        (length (filter (λ a, tag_name_of (mt_tag_id a) db
                              = Some (normalize name)) (media_tags db)))
  ∧ media db' = media db
  ∧ (normalize name ∉ allTags db → removeTagGlobally name db = (db, 0)).
Proof.
  intros Hwf Hne. cbn zeta.
  pose proof (DatabaseFacts.wf_removeTagGlobally name db Hwf) as Hwf'.
  destruct (select_tag_id (normalize name) db) as [tagId|] eqn:Hsel.
  - pose proof (select_tag_id_Some _ _ _ Hsel) as Ht0.
    rewrite (removeTagGlobally_unfold name db tagId Hne Hsel) in *.
    cbn [fst snd] in *.
    assert (∀ t, t ∈ tags db → tag_id t = tagId ↔ tag_name t = normalize name)
      as Hkey.
    { intros t Ht. split; intros Heq.
      - assert (t = {| tag_id := tagId; tag_name := normalize name |}) as ->
          by by apply (key_inj tag_id _ _ _ (wf_tag_id _ Hwf)).
        done.
      - assert (t = {| tag_id := tagId; tag_name := normalize name |}) as ->
          by by apply (key_inj tag_name _ _ _ (wf_tag_name _ Hwf)).
        done. }
    split_and!; [| | |done|].
    + intros mediaId. apply sorted_names_ext.
      * apply Sorted_getMediaTags.
      * apply Sorted_le_filter, Sorted_getMediaTags.
      * by apply NoDup_getMediaTags.
      * apply NoDup_filter. by apply NoDup_getMediaTags.
      * intros n. rewrite list_elem_of_filter.
        rewrite !elem_of_getMediaTags by (apply Hwf' || apply Hwf).
        unfold carries. cbn [tags media_tags]. split.
        -- intros (t & [Hid Ht]%list_elem_of_filter & <-
                     & [_ Ha]%list_elem_of_filter).
           split; [by rewrite <- Hkey|by exists t].
        -- intros [Hn (t & Ht & <- & Ha)]. rewrite <- Hkey in Hn by done.
           exists t. split_and!; [by apply list_elem_of_filter|done|].
           by apply list_elem_of_filter.
    + apply sorted_names_ext.
      * apply allTags_spec.
      * apply Sorted_le_filter, allTags_spec.
      * apply allTags_spec, Hwf'.
      * apply NoDup_filter, allTags_spec, Hwf.
      * intros n. rewrite list_elem_of_filter.
        rewrite !(proj2 (proj2 (allTags_spec _))). cbn [tags].
        rewrite !list_elem_of_fmap. split.
        -- intros (t & -> & [Hid Ht]%list_elem_of_filter).
           split; [by rewrite <- Hkey|by exists t].
        -- intros [Hn (t & -> & Ht)]. rewrite <- Hkey in Hn by done.
           exists t. split; [done|]. by apply list_elem_of_filter.
    + do 2 f_equal. apply list_filter_iff. intros a. split.
      * intros ->.
        apply (tag_name_of_row db _ (wf_tag_id _ Hwf) Ht0).
      * intros Hn%tag_name_of_Some. by apply (Hkey _ Hn).
    + intros Hnot. destruct Hnot. apply allTags_spec.
      apply list_elem_of_fmap.
      by exists {| tag_id := tagId; tag_name := normalize name |}.
  - pose proof (select_tag_id_None _ _ Hsel) as Hnot.
    assert (removeTagGlobally name db = (db, 0)) as ->.
    { unfold removeTagGlobally. by rewrite Hne, Hsel. }
    cbn [fst snd].
    split_and!; [| | |done|done].
    + intros mediaId. symmetry. apply filter_all_true.
      intros n Hn ->. apply elem_of_getMediaTags in Hn; [|apply Hwf].
      destruct Hn as (t & Ht & Hn & _). apply Hnot.
      rewrite <- Hn. by apply list_elem_of_fmap_2.
    + symmetry. apply filter_all_true.
      intros n Hn ->. by apply allTags_spec in Hn.
    + rewrite filter_none_true; [done|].
      intros a _ Hn%tag_name_of_Some. apply Hnot.
      apply list_elem_of_fmap.
      by exists {| tag_id := mt_tag_id a; tag_name := normalize name |}.
Qed.

End TagOps.

(** ** What every reachable store satisfies *)

Module StoreInvariant.
Import Database.

Section with_paths.
Context (absolutePath : string → string).

Lemma removeMediaTags_frame m names db :
  foreign_keys (removeMediaTags m names db) = foreign_keys db
  ∧ media (removeMediaTags m names db) = media db.
Proof.
  unfold removeMediaTags. destruct names as [|n names]; [done|].
  destruct (normalized_nonempty _); [done|].
  generalize (select_tag_ids_in (s :: l) db). intros ids. revert db.
  induction ids as [|i ids IH]; intros db; [done|]. simpl.
  by destruct (IH (delete_media_tag m i db)) as [-> ->].
Qed.

Lemma setMediaTags_frame m names db :
  foreign_keys (setMediaTags m names db) = foreign_keys db
  ∧ media (setMediaTags m names db) = media db.
Proof.
  unfold setMediaTags. destruct (TagOps.upsertTags_frame names db) as (Hfk & Hm & _).
  destruct (upsertTags names db) as [db1 ids]. cbn [fst] in *.
  destruct (TagOps.insert_media_tags_frame m ids
              (with_media_tags db1
                 (filter (λ a, mt_media_id a ≠ m) (media_tags db1))))
    as (-> & -> & _).
  done.
Qed.

Lemma addMediaTags_frame m names db :
  foreign_keys (addMediaTags m names db) = foreign_keys db
  ∧ media (addMediaTags m names db) = media db.
Proof.
  unfold addMediaTags. destruct (TagOps.upsertTags_frame names db) as (Hfk & Hm & _).
  destruct (upsertTags names db) as [db1 ids]. cbn [fst] in *.
  destruct (TagOps.insert_media_tags_frame m ids db1) as (-> & -> & _).
  done.
Qed.

Lemma removeTagGlobally_frame name db :
  foreign_keys (removeTagGlobally name db).1 = foreign_keys db
  ∧ media (removeTagGlobally name db).1 = media db
  ∧ tags (removeTagGlobally name db).1 ⊆ tags db
  ∧ media_tags (removeTagGlobally name db).1 ⊆ media_tags db.
Proof.
  unfold removeTagGlobally. destruct (QString.isEmpty _); [done|].
  destruct (select_tag_id _ _); [|done]. simpl.
  case_bool_decide; simpl; split_and!; try done.
  - intros a [_ ?]%list_elem_of_filter. done.
  - intros t [_ ?]%list_elem_of_filter. done.
  - intros a [_ ?]%list_elem_of_filter. done.
Qed.

Lemma call_foreign_keys c db :
  foreign_keys (call absolutePath c db) = foreign_keys db.
Proof.
  destruct c; simpl.
  - apply DatabaseFacts.upsertMedia_frame.
  - done.
  - done.
  - apply SoftDelete.markMissingFilesDeleted_frame.
  - apply TagOps.upsertTags_frame.
  - apply setMediaTags_frame.
  - apply addMediaTags_frame.
  - apply removeMediaTags_frame.
  - apply removeTagGlobally_frame.
Qed.

(** A property of media rows that upserts establish and the two
    updates keep holds of every row after the call. *)
Lemma call_media_rows (Q : MediaRow → Prop) c db :
  (∀ i path root name record, Q (row_of_record i path root name record)) →
  (∀ record r, Q (update_on_conflict record r)) →
  (∀ r, Q r → Q (set_status "deleted" r)) →
  (∀ r p, Q r →
     Q {| id := id r; file_path := file_path r; root_dir := root_dir r;
          file_name := file_name r; col_sha256 := col_sha256 r;
          p_hash := p_hash r; col_width := col_width r;
          col_height := col_height r; size_bytes := size_bytes r;
          captured_time_utc := captured_time_utc r;
          modified_time_utc := modified_time_utc r;
          media_type := media_type r; thumbnail_path := p;
          col_status := col_status r; col_error := col_error r |}) →
  (∀ r, r ∈ media db → Q r) →
  ∀ r, r ∈ media (call absolutePath c db) → Q r.
Proof.
  intros Hnew Hupd Hdel Hthumb Hold r'. destruct c; simpl.
  - intros [?|[(i & path & root & name & ->)|(r & Hr & ->)]]
      %DatabaseFacts.upsertMedia_media; auto.
  - intros [_ ?]%list_elem_of_filter. auto.
  - intros [r [-> Hr]]%list_elem_of_fmap. case_bool_decide; auto.
  - intros (r & Hr & [->| ->])%DatabaseFacts.markMissingFilesDeleted_media;
      auto.
  - destruct (TagOps.upsertTags_frame tagNames db) as (_ & -> & _). auto.
  - destruct (setMediaTags_frame mediaId tagNames db) as (_ & ->). auto.
  - destruct (addMediaTags_frame mediaId tagNames db) as (_ & ->). auto.
  - destruct (removeMediaTags_frame mediaId tagNames db) as (_ & ->). auto.
  - destruct (removeTagGlobally_frame tagName db) as (_ & -> & _). auto.
Qed.

Lemma call_tag_rows c db t :
  t ∈ tags (call absolutePath c db) →
  t ∈ tags db
  ∨ ∃ s, tag_name t = normalize s ∧ QString.isEmpty (normalize s) = false.
Proof.
  assert (∀ names d, t ∈ tags (upsertTags names d).1 →
            t ∈ tags d
            ∨ ∃ s, tag_name t = normalize s
                   ∧ QString.isEmpty (normalize s) = false) as Hup.
  { intros names d [?|Hn]%TagOps.upsertTags_rows; [by left|right].
    unfold normalized_nonempty in Hn.
    apply list_elem_of_filter in Hn as [He [s [Hs _]]%list_elem_of_fmap].
    exists s. split; [done|by rewrite <- Hs]. }
  destruct c; simpl.
  - destruct (DatabaseFacts.upsertMedia_frame record db) as (_ & _ & -> & _).
    by left.
  - by left.
  - by left.
  - match goal with
    | |- context [markMissingFilesDeleted _ ?paths ?root db] =>
        destruct (SoftDelete.markMissingFilesDeleted_frame absolutePath
                    paths root db) as (-> & _)
    end.
    by left.
  - apply Hup.
  - unfold setMediaTags. specialize (Hup tagNames db).
    destruct (upsertTags tagNames db) as [db1 ids].
    destruct (TagOps.insert_media_tags_frame mediaId ids
                (with_media_tags db1
                   (filter (λ a, mt_media_id a ≠ mediaId) (media_tags db1))))
      as (_ & _ & ->).
    apply Hup.
  - unfold addMediaTags. specialize (Hup tagNames db).
    destruct (upsertTags tagNames db) as [db1 ids].
    destruct (TagOps.insert_media_tags_frame mediaId ids db1) as (_ & _ & ->).
    apply Hup.
  - rewrite TagLifetime.removeMediaTags_tags. by left.
  - intros Ht. left. by apply (removeTagGlobally_frame tagName db).
Qed.

Lemma call_tags_exist c db :
  wf db → foreign_keys db = false → tags_exist db →
  tags_exist (call absolutePath c db).
Proof.
  intros Hwf Hfk Hex.
  assert (∀ names, tags_exist (upsertTags names db).1) as Hup.
  { intros names a. destruct (TagOps.upsertTags_frame names db) as (_ & _ & ->).
    intros Ha%Hex. apply list_elem_of_fmap in Ha as (t & -> & Ht).
    apply list_elem_of_fmap_2. eapply elem_of_prefix; [exact Ht|].
    apply TagLifetime.upsertTags_tags_prefix. }
  destruct c; simpl.
  - destruct (DatabaseFacts.upsertMedia_frame record db)
      as (_ & _ & Ht & Hmt).
    unfold tags_exist. by rewrite Ht, Hmt.
  - unfold deleteMedia. rewrite Hfk. done.
  - done.
  - match goal with
    | |- context [markMissingFilesDeleted _ ?paths ?root db] =>
        destruct (SoftDelete.markMissingFilesDeleted_frame absolutePath
                    paths root db) as (Ht & Hmt & _)
    end.
    unfold tags_exist. by rewrite Ht, Hmt.
  - apply Hup.
  - unfold setMediaTags. specialize (Hup tagNames).
    pose proof (TagOps.upsertTags_ids_exist tagNames db) as Hids.
    destruct (TagOps.upsertTags_frame tagNames db) as (Hfk1 & _ & _).
    destruct (upsertTags tagNames db) as [db1 ids]. cbn [fst snd] in *.
    set (db1' := with_media_tags db1 _).
    destruct (TagOps.insert_media_tags_frame mediaId ids db1')
      as (_ & _ & Htags).
    intros a. rewrite Htags, TagOps.insert_media_tags_rows.
    + intros [[_ Ha]%list_elem_of_filter|[_ Hi]]; [by apply Hup|by apply Hids].
    + left. unfold db1'. simpl. congruence.
  - unfold addMediaTags. specialize (Hup tagNames).
    pose proof (TagOps.upsertTags_ids_exist tagNames db) as Hids.
    destruct (TagOps.upsertTags_frame tagNames db) as (Hfk1 & _ & _).
    destruct (upsertTags tagNames db) as [db1 ids]. cbn [fst snd] in *.
    destruct (TagOps.insert_media_tags_frame mediaId ids db1)
      as (_ & _ & Htags).
    intros a. rewrite Htags, TagOps.insert_media_tags_rows.
    + intros [Ha|[_ Hi]]; [by apply Hup|by apply Hids].
    + left. congruence.
  - intros a. rewrite TagLifetime.removeMediaTags_tags,
      TagLifetime.removeMediaTags_media_tags.
    intros [_ Ha]%list_elem_of_filter. by apply Hex.
  - unfold removeTagGlobally. destruct (QString.isEmpty _); [done|].
    destruct (select_tag_id _ _) as [tagId|]; [|done]. simpl.
    rewrite bool_decide_eq_false_2.
    2:{ intros [a [-> [Ha _]%list_elem_of_filter]]%list_elem_of_fmap. done. }
    intros a. simpl. intros [Hne Ha]%list_elem_of_filter.
    apply Hex, list_elem_of_fmap in Ha as (t & Hid & Ht).
    apply list_elem_of_fmap. exists t. split; [done|].
    apply list_elem_of_filter. split; [congruence|done].
Qed.

Lemma call_wf c db : wf db → wf (call absolutePath c db).
Proof.
  intros Hwf. destruct c; simpl.
  - by apply DatabaseFacts.wf_upsertMedia.
  - by apply DatabaseFacts.wf_deleteMedia.
  - by apply DatabaseFacts.wf_updateThumbnailPath.
  - by apply DatabaseFacts.wf_markMissingFilesDeleted.
  - by apply DatabaseFacts.wf_upsertTags.
  - by apply DatabaseFacts.wf_setMediaTags.
  - by apply DatabaseFacts.wf_addMediaTags.
  - by apply DatabaseFacts.wf_removeMediaTags.
  - by apply DatabaseFacts.wf_removeTagGlobally.
Qed.

Lemma call_store_ok c db : store_ok db → store_ok (call absolutePath c db).
Proof.
  intros [Hwf Hfk Hex Hnames Hstatus Htype]. split.
  - by apply call_wf.
  - by rewrite call_foreign_keys.
  - by apply call_tags_exist.
  - intros t [Ht|(s & -> & Hne)]%call_tag_rows; [by apply Hnames|].
    split; [done|apply StringFacts.normalize_normalize].
  - apply (call_media_rows
             (λ r, col_status r = "active" ∨ col_status r = "deleted"));
      simpl; auto.
  - apply (call_media_rows (λ r, ∃ kind, media_type r = mediaTypeToString kind));
      simpl; eauto.
Qed.

Lemma store_ok_open_new : store_ok open_new.
Proof.
  split; [apply DatabaseFacts.wf_open_new|done|..];
    intros ? Hin; by apply elem_of_nil in Hin.
Qed.

Lemma calls_store_ok cs db : store_ok db → store_ok (calls absolutePath cs db).
Proof.
  unfold calls. revert db. induction cs as [|c cs IH]; intros db Hok; [done|].
  simpl. by apply IH, call_store_ok.
Qed.

(** X12: whatever sequence of writing calls is made on a new store,
    the store keeps the uniqueness constraints of its schema (ids,
    paths, tag names, associations), every association refers to an
    existing tag, and foreign-key enforcement stays off. *)
Theorem reachable_store_keeps_constraints (cs : list Call) :
  let db := calls absolutePath cs open_new in
  wf db ∧ tags_exist db ∧ foreign_keys db = false.
Proof.
  destruct (calls_store_ok cs open_new store_ok_open_new). done.
Qed.

(** X13: in every store built by writing calls from a new one, tag
    names are non-empty and in normal form, the status of a media row is
    'active' or 'deleted', and its media type is one of the four type
    names. *)
Theorem reachable_store_content (cs : list Call) :
  let db := calls absolutePath cs open_new in
  (∀ t, t ∈ tags db →
        QString.isEmpty (tag_name t) = false
        ∧ normalize (tag_name t) = tag_name t)
  ∧ (∀ r, r ∈ media db →
          col_status r = "active" ∨ col_status r = "deleted")
  ∧ (∀ r, r ∈ media db →
          media_type r ∈ ["image"; "video"; "audio"; "unknown"]).
Proof.
  destruct (calls_store_ok cs open_new store_ok_open_new)
    as [_ _ _ Hn Hs Ht].
  split_and!; [done|done|].
  intros r [kind ->]%Ht.
  destruct kind; simpl;
    [left|right; left|right; right; left|right; right; right; left].
Qed.

End with_paths.
End StoreInvariant.

(** ** Queries *)

Module Queries.
Import Database.


Lemma limit_offset_length {A} (limit offset : Z) (l : list A) :
  (length (limit_offset limit offset l) ≤ length l)%nat
  ∧ (0 ≤ limit → Z.of_nat (length (limit_offset limit offset l)) ≤ limit).
Proof.
  unfold limit_offset. case_bool_decide.
  - rewrite length_drop. split; lia.
  - rewrite length_take, length_drop. split; lia.
Qed.


Lemma limit_offset_sublist {A} (limit offset : Z) (l : list A) :
  limit_offset limit offset l `sublist_of` l.
Proof.
  unfold limit_offset. case_bool_decide.
  - apply sublist_drop.
  - etrans; [apply sublist_take|apply sublist_drop].
Qed.

Lemma StronglySorted_sublist {A} (R : relation A) (l k : list A) :
  l `sublist_of` k → StronglySorted R k → StronglySorted R l.
Proof.
  induction 1 as [|x l k Hsub IH|x l k Hsub IH]; intros Hs.
  - constructor.
  - apply StronglySorted_inv in Hs as [Hs Hall]. constructor; [by apply IH|].
    apply Forall_forall. intros y Hy.
    eapply Forall_forall in Hall; [exact Hall|].
    by eapply elem_of_sublist.
  - apply StronglySorted_inv in Hs as [Hs _]. by apply IH.
Qed.

Lemma StronglySorted_fmap {A B} (R : relation A) (S : relation B)
    (f : A → B) (l : list A) :
  (∀ x y, R x y → S (f x) (f y)) →
  StronglySorted R l → StronglySorted S (f <$> l).
Proof.
  intros HRS. induction 1 as [|x l Hs IH Hall]; [constructor|].
  rewrite fmap_cons. constructor; [done|].
  apply Forall_fmap. eapply Forall_impl; [exact Hall|]. intros y. apply HRS.
Qed.

Global Instance modified_desc_id_desc_total :
  Total (order_by modified_desc_id_desc).
Proof.
  intros a b. unfold order_by, modified_desc_id_desc.
  destruct (modified_time_utc a) as [x|], (modified_time_utc b) as [y|];
    rewrite ?orb_true_iff, ?andb_true_iff, ?bool_decide_eq_true;
    try (by left); try (by right); lia.
Qed.

Global Instance modified_desc_id_desc_trans :
  Transitive (order_by modified_desc_id_desc).
Proof.
  intros a b c. unfold order_by, modified_desc_id_desc.
  destruct (modified_time_utc a) as [x|], (modified_time_utc b) as [y|],
    (modified_time_utc c) as [z|];
    rewrite ?orb_true_iff, ?andb_true_iff, ?bool_decide_eq_true;
    try done; lia.
Qed.

Lemma newest_first_of_rows (a b : MediaRow) :
  order_by modified_desc_id_desc a b →
  newest_first (record_of_row a) (record_of_row b).
Proof.
  unfold order_by, modified_desc_id_desc, newest_first. simpl.
  destruct (modified_time_utc a) as [x|], (modified_time_utc b) as [y|];
    rewrite ?orb_true_iff, ?andb_true_iff, ?bool_decide_eq_true;
    try done.
Qed.

Section with_paths.
Context (absolutePath : string → string).


(** X15: under the default order the records come newest first: each
    record has a later modification time than every record after it, or
    the same time and a larger id; records without a modification time
    come last, by descending id. *)
Theorem queryMedia_newest_first (requiredTags : list string)
    (searchText : string) (limit offset : Z) (rootDir : string)
    (tagsMatchAll : bool) (db : Db) :
  StronglySorted newest_first
    (records (queryMedia absolutePath requiredTags searchText limit offset
                modified_desc_id_desc rootDir tagsMatchAll db)).
Proof.
  unfold queryMedia. cbn [records].
  apply (StronglySorted_fmap (order_by modified_desc_id_desc));
    [apply newest_first_of_rows|].
  eapply StronglySorted_sublist; [apply limit_offset_sublist|].
  apply (StronglySorted_merge_sort (order_by modified_desc_id_desc)).
Qed.

(** X17: after a soft-delete pass for [rootDir] whose statement
    executed (no observed path, or no more host parameters than the
    connection allows), a query restricted to that root returns only
    files among the observed paths; when there was none, it returns
    nothing. *)
Theorem queryMedia_after_markMissingFilesDeleted (existingPaths : list string)
    (requiredTags : list string) (searchText : string) (limit offset : Z)
    (orderBy : MediaRow → MediaRow → bool) (rootDir : string)
    (tagsMatchAll : bool) (db : Db) :
  QString.isEmpty rootDir = false →
  existingPaths = []
  ∨ 1 + Z.of_nat (length existingPaths) ≤ max_variables db →
  let result :=
    queryMedia absolutePath requiredTags searchText limit offset orderBy
      rootDir tagsMatchAll
      (markMissingFilesDeleted absolutePath existingPaths rootDir db).1 in
  (∀ r, r ∈ records result →
        ∃ path, filePath r = Some path ∧ path ∈ existingPaths)
  ∧ (existingPaths = [] → records result = [] ∧ totalCount result = 0).
Proof.
  intros Hroot Hok%SoftDelete.update_prepares_true.
  cbn zeta. unfold queryMedia. cbn [records totalCount].
  set (db' := (markMissingFilesDeleted absolutePath existingPaths rootDir db).1).
  set (selected := filter _ (media db')).
  assert (∀ row, row ∈ selected → file_path row ∈ existingPaths) as Hsel.
  { intros row [Hw Hrow]%list_elem_of_filter.
    unfold query_where in Hw. rewrite Hroot, !andb_true_iff in Hw.
    destruct Hw as [[[Hact%String.eqb_eq _] _] Hrd%String.eqb_eq].
    by apply (ScannerFacts.markMissing_listed absolutePath existingPaths
                rootDir db row Hok). }
  assert (existingPaths = [] → selected = []) as Hnil.
  { intros ->. destruct selected as [|row l] eqn:E; [done|].
    specialize (Hsel row ltac:(left)). by apply elem_of_nil in Hsel. }
  split.
  - intros r [row [-> Hrow]]%list_elem_of_fmap.
    eapply elem_of_sublist in Hrow; [|apply limit_offset_sublist].
    rewrite merge_sort_Permutation in Hrow.
    exists (file_path row). split; [done|]. by apply Hsel.
  - intros Hp. rewrite (Hnil Hp). split; [|done].
    change (merge_sort (order_by orderBy) []) with (@nil MediaRow).
    by rewrite TagQuery.limit_offset_nil.
Qed.

(** An entry of the snapshot comes from an active row of the root. *)
Lemma existingMediaMapForRoot_Some (rootDir : string) (db : Db) path entry :
  wf db →
  existingMediaMapForRoot absolutePath rootDir db !! path = Some entry →
  ∃ r, r ∈ media db ∧ file_path r = path
       ∧ root_dir r = absolutePath rootDir ∧ col_status r = "active"
       ∧ entry_of_row r = entry.
Proof.
  intros Hwf Hlook. unfold existingMediaMapForRoot in Hlook.
  set (rows := filter _ (media db)) in Hlook.
  destruct (decide (path ∈ file_path <$> rows)) as [Hin|Hnot].
  - apply list_elem_of_fmap in Hin as (r & -> & Hr).
    rewrite FirstScan.snapshot_fold_lookup in Hlook;
      [|apply NoDup_fmap_filter, Hwf|done].
    injection Hlook as <-.
    apply list_elem_of_filter in Hr as [[? ?] ?]. by exists r.
  - rewrite FirstScan.snapshot_fold_other in Hlook by done.
    by rewrite lookup_empty in Hlook.
Qed.

(** X18: the snapshot used for incremental scanning has an entry
    for a path exactly when an active row of the root has that path,
    and the entry holds that row's size, modified time, thumbnail path,
    hash and media type. *)
Theorem existingMediaMapForRoot_is_active_rows (rootDir : string) (db : Db) :
  wf db →
  ∀ path entry,
    existingMediaMapForRoot absolutePath rootDir db !! path = Some entry
    ↔ ∃ r, r ∈ media db ∧ file_path r = path
           ∧ root_dir r = absolutePath rootDir ∧ col_status r = "active"
           ∧ e_size_bytes entry = size_bytes r
           ∧ e_modified_time_utc entry = modified_time_utc r
           ∧ e_thumbnail_path entry = thumbnail_path r
           ∧ e_sha256 entry = col_sha256 r
           ∧ e_media_type entry = media_type r.
Proof.
  intros Hwf path entry. split.
  - intros (r & Hr & Hp & Hroot & Hact & <-)%existingMediaMapForRoot_Some;
      [|done].
    by exists r.
  - intros (r & Hr & <- & Hroot & Hact & H1 & H2 & H3 & H4 & H5).
    rewrite FirstScan.existingMediaMapForRoot_lookup by done.
    f_equal. destruct entry. simpl in *. unfold entry_of_row. congruence.
Qed.

End with_paths.

Global Instance by_name_asc_total : Total (order_by by_name_asc).
Proof.
  intros a b. unfold order_by, by_name_asc.
  rewrite !bool_decide_eq_true. apply (total String.le).
Qed.

(** X19: [tagCounts] lists the same names as [allTags], each once and
    in the same order, so the two tag lists of the interface agree;
    [untaggedCount] is the number of active media whose tag list is
    empty. *)
Theorem tagCounts_names_are_allTags (db : Db) :
  wf db → tags_exist db →
  (tagCounts db).*1 = allTags db
  ∧ untaggedCount db
    = Z.of_nat
        (length (filter (λ r, col_status r = "active"
                              ∧ getMediaTags (id r) db = []) (media db))).
Proof.
  intros Hwf Hex. split.
  - rewrite TagCounts.tagCounts_characterised by done.
    set (pairs := (λ t, (tag_name t, association_count db t)) <$> tags db).
    assert (pairs.*1 = tag_name <$> tags db) as Hnames.
    { unfold pairs. rewrite <- list_fmap_compose. done. }
    apply (Sorted_unique String.le).
    + apply StronglySorted_Sorted.
      apply (StronglySorted_fmap (order_by by_name_asc)).
      * intros x y Hxy. by apply bool_decide_eq_true in Hxy.
      * apply Sorted_StronglySorted.
        -- intros x y z. unfold order_by, by_name_asc.
           rewrite !bool_decide_eq_true. apply transitivity.
        -- apply (Sorted_merge_sort (order_by by_name_asc)).
    + apply TagOps.allTags_spec.
    + unfold allTags.
      by rewrite !merge_sort_Permutation, Hnames.
  - unfold untaggedCount. do 2 f_equal. apply list_filter_iff. intros r.
    split; intros [Hact Htag]; (split; [done|]).
    + rewrite TagOps.getMediaTags_as_filter by apply Hwf.
      rewrite filter_none_true; [done|].
      intros t _ Hc. apply Htag. unfold carries in Hc.
      apply list_elem_of_fmap.
      by exists {| mt_media_id := id r; mt_tag_id := tag_id t |}.
    + intros [a [Hid Ha]]%list_elem_of_fmap.
      pose proof (Hex a Ha) as [t [Ht Htin]]%list_elem_of_fmap.
      assert (tag_name t ∈ getMediaTags (id r) db) as Hin.
      { apply TagOps.elem_of_getMediaTags; [apply Hwf|].
        exists t. split_and!; [done|done|].
        unfold carries. rewrite Hid, <- Ht. by destruct a. }
      rewrite Htag in Hin. by apply elem_of_nil in Hin.
Qed.

End Queries.
(** ** LIKE with the pattern built by [queryMedia] *)

Module LikeFacts.
Import Database QString.

Local Ltac app_norm :=
  rewrite ?StringFacts.app_cons, ?StringFacts.app_nil_l in *.

Lemma sql_like_percent_unfold (rest text : string) :
  sql_like (String "%" rest) text
  = sql_like rest text
    || match text with
       | EmptyString => false
       | String _ text' => sql_like (String "%" rest) text'
       end.
Proof. by destruct text. Qed.

Lemma sql_like_percent (rest text : string) :
  sql_like (String "%" rest) text = true
  ↔ ∃ pre post, text = pre +:+ post ∧ sql_like rest post = true.
Proof.
  induction text as [|d text IH]; rewrite sql_like_percent_unfold.
  - rewrite orb_false_r. split.
    + intros H. by exists "", "".
    + intros (pre & post & Heq & H). destruct pre; app_norm; [|done].
      by subst.
  - rewrite orb_true_iff, IH. split.
    + intros [H|(pre & post & -> & H)].
      * by exists "", (String d text).
      * by exists (String d pre), post.
    + intros (pre & post & Heq & H). destruct pre as [|c pre]; app_norm.
      * left. by subst.
      * right. injection Heq as _ ->. by exists pre, post.
Qed.

Lemma sql_like_plain (s rest text : string) :
  no_wildcard s = true →
  sql_like (s +:+ rest) text = true
  ↔ ∃ mid post, text = mid +:+ post ∧ toLower mid = toLower s
                ∧ sql_like rest post = true.
Proof.
  revert text. induction s as [|c s IH]; intros text Hs.
  - app_norm. split.
    + intros H. by exists "", text.
    + intros (mid & post & -> & Hm & H). by destruct mid.
  - simpl in Hs. rewrite !andb_true_iff, !negb_true_iff in Hs.
    destruct Hs as [[Hc1 Hc2] Hs].
    rewrite StringFacts.app_cons. simpl. rewrite Hc1, Hc2.
    destruct text as [|d text].
    + split; [done|]. intros (mid & post & Heq & Hm & _).
      destruct mid; app_norm; done.
    + rewrite andb_true_iff, IH by done. split.
      * intros [Hcd%Ascii.eqb_eq (mid & post & -> & Hm & H)].
        exists (String d mid), post. split_and!; [done| |done].
        simpl. by rewrite Hm, Hcd.
      * intros (mid & post & Heq & Hm & H).
        destruct mid as [|d' mid]; [done|]. app_norm.
        injection Heq as -> ->. simpl in Hm. injection Hm as Hd Hm.
        split; [by apply Ascii.eqb_eq|]. by exists mid, post.
Qed.

Lemma sql_like_any (text : string) : sql_like "%" text = true.
Proof.
  apply sql_like_percent. exists text, "".
  split; [|done]. induction text as [|c t IH]; [done|].
  by rewrite StringFacts.app_cons, <- IH.
Qed.

(** X16: the search text of [queryMedia] is matched as a substring of
    the file name without regard to ASCII case, provided it contains no
    [%] and no [_].  Those two are not escaped: a lone "_" matches every
    non-empty name. *)
Theorem search_is_substring_match (searchText name : string) :
  no_wildcard searchText = true →
  (sql_like ("%" +:+ searchText +:+ "%") name = true
   ↔ ∃ pre mid post,
       name = pre +:+ mid +:+ post ∧ toLower mid = toLower searchText)
  ∧ (sql_like ("%" +:+ "_" +:+ "%") name = true ↔ name ≠ "").
Proof.
  intros Hs. split.
  - change ("%" +:+ searchText +:+ "%")
      with (String "%" (searchText +:+ "%")).
    rewrite sql_like_percent. split.
    + intros (pre & rest & -> & (mid & post & -> & Hm & _)%sql_like_plain);
        [|done].
      by exists pre, mid, post.
    + intros (pre & mid & post & -> & Hm). exists pre, (mid +:+ post).
      split; [done|]. apply sql_like_plain; [done|].
      exists mid, post. split_and!; [done|done|apply sql_like_any].
  - change ("%" +:+ "_" +:+ "%") with (String "%" (String "_" "%")).
    rewrite sql_like_percent. split.
    + intros (pre & post & -> & H). destruct post; [done|].
      destruct pre; app_norm; done.
    + intros Hne. destruct name as [|c name]; [done|].
      exists "", (String c name). split; [done|]. simpl. apply sql_like_any.
Qed.

End LikeFacts.

(** ** Witnesses for the tag and query theorems *)

Module TagWitnesses.
Import Database.

(** The sample store is built by writing calls from a new store. *)
Lemma store_ok_db_abc : store_ok Samples.db_abc.
Proof.
  change Samples.db_abc
    with (calls Samples.same_path
            [UpsertMedia Samples.rec_a; UpsertMedia Samples.rec_b;
             UpsertMedia Samples.rec_c; AddMediaTags 1 ["x"; "y"];
             AddMediaTags 2 ["x"]; AddMediaTags 3 ["y"]] open_new).
  apply StoreInvariant.calls_store_ok, StoreInvariant.store_ok_open_new.
Qed.

Lemma upsertTags_returns_ids_of_names_witness :
  wf Samples.db_abc
  ∧ (λ i, tag_name_of i (upsertTags ["x"; " New "; ""] Samples.db_abc).1)
      <$> (upsertTags ["x"; " New "; ""] Samples.db_abc).2
    = Some <$> normalized_nonempty ["x"; " New "; ""].
Proof.
  split; [exact (ok_wf _ store_ok_db_abc)|].
  exact (proj1 (TagOps.upsertTags_returns_ids_of_names
                  ["x"; " New "; ""] Samples.db_abc
                  (ok_wf _ store_ok_db_abc))).
Defined.

Lemma addMediaTags_then_getMediaTags_witness :
  wf Samples.db_abc ∧ tags_exist Samples.db_abc
  ∧ (foreign_keys Samples.db_abc = false
     ∨ 2 ∈ id <$> media Samples.db_abc)
  ∧ getMediaTags 2 (addMediaTags 2 [" Y "] Samples.db_abc)
    = merge_sort String.le
        (remove_dups (getMediaTags 2 Samples.db_abc
                      ++ normalized_nonempty [" Y "])).
Proof.
  split_and!; [exact (ok_wf _ store_ok_db_abc)
              |exact (ok_tags_exist _ store_ok_db_abc)
              |left; reflexivity|].
  exact (proj1 (TagOps.addMediaTags_then_getMediaTags 2 [" Y "]
                  Samples.db_abc (ok_wf _ store_ok_db_abc)
                  (ok_tags_exist _ store_ok_db_abc)
                  (or_introl eq_refl))).
Defined.

Lemma setMediaTags_then_getMediaTags_witness :
  wf Samples.db_abc ∧ tags_exist Samples.db_abc
  ∧ (foreign_keys Samples.db_abc = false
     ∨ 1 ∈ id <$> media Samples.db_abc)
  ∧ getMediaTags 1 (setMediaTags 1 ["z"; "Z "] Samples.db_abc)
    = merge_sort String.le (remove_dups (normalized_nonempty ["z"; "Z "])).
Proof.
  split_and!; [exact (ok_wf _ store_ok_db_abc)
              |exact (ok_tags_exist _ store_ok_db_abc)
              |left; reflexivity|].
  exact (proj1 (TagOps.setMediaTags_then_getMediaTags 1 ["z"; "Z "]
                  Samples.db_abc (ok_wf _ store_ok_db_abc)
                  (ok_tags_exist _ store_ok_db_abc)
                  (or_introl eq_refl))).
Defined.


Lemma removeTagGlobally_removes_tag_everywhere_witness :
  wf Samples.db_abc
  ∧ QString.isEmpty (normalize " X") = false
  ∧ allTags (removeTagGlobally " X" Samples.db_abc).1
    = filter (λ n, n ≠ normalize " X") (allTags Samples.db_abc).
Proof.
  split_and!; [exact (ok_wf _ store_ok_db_abc)|reflexivity|].
  exact (proj1 (proj2 (TagOps.removeTagGlobally_removes_tag_everywhere " X"
                         Samples.db_abc (ok_wf _ store_ok_db_abc)
                         eq_refl))).
Defined.

Lemma search_is_substring_match_witness :
  no_wildcard "Ab" = true
  ∧ (sql_like ("%" +:+ "Ab" +:+ "%") "cab.jpg" = true
     ↔ ∃ pre mid post,
         "cab.jpg" = pre +:+ mid +:+ post
         ∧ QString.toLower mid = QString.toLower "Ab").
Proof.
  split; [reflexivity|].
  exact (proj1 (LikeFacts.search_is_substring_match "Ab" "cab.jpg" eq_refl)).
Defined.

Lemma queryMedia_after_markMissingFilesDeleted_witness :
  QString.isEmpty "/r" = false
  ∧ (["/r/a.jpg"] = []
     ∨ 1 + Z.of_nat (length ["/r/a.jpg"]) ≤ max_variables Samples.db_abc)
  ∧ ∀ r, r ∈ records
             (queryMedia Samples.same_path [] "" 200 0 modified_desc_id_desc
                "/r" true
                (markMissingFilesDeleted Samples.same_path ["/r/a.jpg"]
                   "/r" Samples.db_abc).1) →
         ∃ path, filePath r = Some path ∧ path ∈ ["/r/a.jpg"].
Proof.
  assert (["/r/a.jpg"] = []
          ∨ 1 + Z.of_nat (length ["/r/a.jpg"])
            ≤ max_variables Samples.db_abc) as Hok
    by (right; by vm_compute).
  split_and!; [reflexivity|exact Hok|].
  exact (proj1 (Queries.queryMedia_after_markMissingFilesDeleted
                  Samples.same_path ["/r/a.jpg"] [] "" 200 0
                  modified_desc_id_desc "/r" true Samples.db_abc eq_refl
                  Hok)).
Defined.

Lemma existingMediaMapForRoot_is_active_rows_witness :
  wf Samples.db_abc
  ∧ existingMediaMapForRoot Samples.same_path "/r" Samples.db_abc
      !! "/r/a.jpg"
    = Some {| e_size_bytes := Some 3; e_modified_time_utc := Some 10;
              e_thumbnail_path := Some "/t/aa.jpg"; e_sha256 := Some "aa";
              e_media_type := "image" |}.
Proof.
  split; [exact (ok_wf _ store_ok_db_abc)|].
  apply (proj2 (Queries.existingMediaMapForRoot_is_active_rows
                  Samples.same_path "/r" Samples.db_abc
                  (ok_wf _ store_ok_db_abc) "/r/a.jpg" _)).
  exists {| id := 1; file_path := "/r/a.jpg"; root_dir := "/r";
            file_name := "a.jpg"; col_sha256 := Some "aa"; p_hash := None;
            col_width := None; col_height := None; size_bytes := Some 3;
            captured_time_utc := None; modified_time_utc := Some 10;
            media_type := "image"; thumbnail_path := Some "/t/aa.jpg";
            col_status := "active"; col_error := None |}.
  split; [|repeat split].
  apply (bool_decide_unpack _). vm_compute. exact I.
Defined.

Lemma tagCounts_names_are_allTags_witness :
  wf Samples.db_abc ∧ tags_exist Samples.db_abc
  ∧ (tagCounts Samples.db_abc).*1 = allTags Samples.db_abc.
Proof.
  split_and!; [exact (ok_wf _ store_ok_db_abc)
              |exact (ok_tags_exist _ store_ok_db_abc)|].
  exact (proj1 (Queries.tagCounts_names_are_allTags Samples.db_abc
                  (ok_wf _ store_ok_db_abc)
                  (ok_tags_exist _ store_ok_db_abc))).
Defined.

End TagWitnesses.

(** ** Media kinds *)

Module MediaKinds.
Import Scanner.

Lemma toLower_app (a b : string) :
  QString.toLower (a +:+ b) = QString.toLower a +:+ QString.toLower b.
Proof.
  induction a as [|c a IH]; [done|].
  rewrite StringFacts.app_cons. simpl. by rewrite IH.
Qed.

Lemma toLower_dot_ext (path : string) :
  QString.toLower (dot_ext path) = dot_ext path.
Proof.
  unfold dot_ext. by rewrite toLower_app, StringFacts.toLower_idemp.
Qed.

Lemma extension_sets_disjoint (ext : string) :
  (ext ∈ IMAGE_EXTENSIONS →
   (ext ∉ VIDEO_EXTENSIONS) ∧ (ext ∉ AUDIO_EXTENSIONS))
  ∧ (ext ∈ VIDEO_EXTENSIONS →
     (ext ∉ IMAGE_EXTENSIONS) ∧ (ext ∉ AUDIO_EXTENSIONS))
  ∧ (ext ∈ AUDIO_EXTENSIONS →
     (ext ∉ IMAGE_EXTENSIONS) ∧ (ext ∉ VIDEO_EXTENSIONS)).
Proof.
  unfold IMAGE_EXTENSIONS, VIDEO_EXTENSIONS, AUDIO_EXTENSIONS.
  split_and!; intros Hin;
    repeat (apply elem_of_cons in Hin as [->|Hin]);
    try (by apply elem_of_nil in Hin);
    split; apply (bool_decide_unpack _); vm_compute; exact I.
Qed.

(** X20: the media kind recorded for a file agrees with the file
    predicates of the scanner: a path is an image, video or audio file
    exactly when [typeFromExtension] of its dotted, lower-cased suffix
    is that kind; no path is of two kinds, the case of the suffix does
    not matter, and every file the scanner lists has a kind other than
    Unknown. *)
Theorem media_kind_agrees_with_file_predicates (path : string) :
  (isImageFile path = true ↔ typeFromExtension (dot_ext path) = Image)
  ∧ (isVideoFile path = true ↔ typeFromExtension (dot_ext path) = Video)
  ∧ (isAudioFile path = true ↔ typeFromExtension (dot_ext path) = Audio)
  ∧ (∀ absolutePath w rootDir thumbs,
       path ∈ listMediaFiles absolutePath w rootDir thumbs →
       typeFromExtension (dot_ext path) ≠ Unknown).
Proof.
  unfold isImageFile, isVideoFile, isAudioFile, typeFromExtension, contains.
  rewrite toLower_dot_ext.
  destruct (extension_sets_disjoint (dot_ext path)) as (Hi & Hv & Ha).
  split_and!.
  - rewrite bool_decide_eq_true. split.
    + intros H. by rewrite bool_decide_eq_true_2.
    + intros H. repeat case_bool_decide; done.
  - rewrite bool_decide_eq_true. split.
    + intros H. destruct (Hv H) as [Hx _].
      by rewrite (bool_decide_eq_false_2 _ Hx), (bool_decide_eq_true_2 _ H).
    + intros H. repeat case_bool_decide; done.
  - rewrite bool_decide_eq_true. split.
    + intros H. destruct (Ha H) as [Hx Hy].
      by rewrite (bool_decide_eq_false_2 _ Hx), (bool_decide_eq_false_2 _ Hy),
        (bool_decide_eq_true_2 _ H).
    + intros H. repeat case_bool_decide; done.
  - intros absolutePath w rootDir thumbs [Hk _]%list_elem_of_filter.
    unfold contains in Hk. repeat case_bool_decide; done.
Qed.

End MediaKinds.

(** ** What a scan does and does not touch *)

Module ScanEffects.
Import Database Scanner.

(** *** Rows persist through the writes of a scan *)

Lemma persists_refl r db : r ∈ media db → persists r db.
Proof. intros Hr. by exists r. Qed.

Lemma persists_map (f : MediaRow → MediaRow) r db db' :
  (∀ x, id (f x) = id x ∧ file_path (f x) = file_path x
        ∧ root_dir (f x) = root_dir x ∧ file_name (f x) = file_name x) →
  media db' = f <$> media db → persists r db → persists r db'.
Proof.
  intros Hf Hm (r' & Hr' & Hid & Hp & Hrd & Hn).
  exists (f r'). rewrite Hm. destruct (Hf r') as (-> & -> & -> & ->).
  split_and!; [by apply list_elem_of_fmap_2|done..].
Qed.

Lemma persists_upsertMedia record r db :
  persists r db → persists r (upsertMedia record db).1.
Proof.
  destruct (DatabaseFacts.upsertMedia_cases record db)
    as [->|(path & root & name & _ & _ & _ & ->)]; [done|].
  cbn [fst]. unfold insert_or_update_row. destruct (has_path _ _).
  - apply (persists_map
             (λ x, if bool_decide (file_path x = path)
                   then update_on_conflict record x else x)); [|done].
    intros x. by case_bool_decide.
  - intros (r' & Hr' & Hk). exists r'. split; [|done].
    simpl. apply elem_of_app. by left.
Qed.

Lemma persists_updateThumbnailPath path thumb r db :
  persists r db → persists r (updateThumbnailPath path thumb db).1.
Proof.
  unfold updateThumbnailPath. cbn [fst].
  intros (r' & Hr' & Hid & Hp & Hrd & Hn).
  eexists. split; [simpl; apply list_elem_of_fmap_2, Hr'|].
  simpl. by case_bool_decide.
Qed.

Lemma persists_markMissingFilesDeleted absolutePath paths root r db :
  persists r db →
  persists r (markMissingFilesDeleted absolutePath paths root db).1.
Proof.
  unfold markMissingFilesDeleted.
  destruct (update_prepares paths db); [|done]. cbn [fst].
  apply (persists_map
           (λ x, if missing_row absolutePath paths root x
                 then set_status "deleted" x else x)); [|done].
  intros x. by destruct (missing_row _ _ _ _).
Qed.

Lemma same_tags_markMissingFilesDeleted absolutePath paths root db :
  same_tags db (markMissingFilesDeleted absolutePath paths root db).1.
Proof.
  unfold markMissingFilesDeleted. by destruct (update_prepares paths db).
Qed.

Lemma same_tags_refl db : same_tags db db.
Proof. done. Qed.

Lemma same_tags_trans db1 db2 db3 :
  same_tags db1 db2 → same_tags db2 db3 → same_tags db1 db3.
Proof. intros (? & ? & ?) (? & ? & ?). split_and!; congruence. Qed.

Lemma same_tags_upsertMedia record db :
  same_tags db (upsertMedia record db).1.
Proof.
  destruct (DatabaseFacts.upsertMedia_cases record db)
    as [->|(path & root & name & _ & _ & _ & ->)]; [done|].
  cbn [fst]. unfold insert_or_update_row. by destruct (has_path _ _).
Qed.

Lemma same_tags_getMediaTags db db' m :
  same_tags db db' → getMediaTags m db' = getMediaTags m db.
Proof. intros (_ & Ht & Hmt). unfold getMediaTags. by rewrite Ht, Hmt. Qed.

Section worker.
Context (absolutePath : string → string) (w : World).

Local Abbreviation process_file := (Scanner.process_file w).
Local Abbreviation process_loop := (Scanner.process_loop w).
Local Abbreviation process := (Scanner.process absolutePath w).
Local Abbreviation listMediaFiles := (Scanner.listMediaFiles absolutePath w).

Lemma same_tags_process_file root tdir snap f st :
  same_tags (st_db st) (st_db (process_file root tdir snap f st)).
Proof.
  destruct (ScannerFacts.process_file_db w root tdir snap f st)
    as [->|[[thumb ->]|(record & _ & _ & _ & ->)]]; [done|done|].
  apply same_tags_upsertMedia.
Qed.

Lemma persists_process_file root tdir snap f st r :
  persists r (st_db st) →
  persists r (st_db (process_file root tdir snap f st)).
Proof.
  destruct (ScannerFacts.process_file_db w root tdir snap f st)
    as [->|[[thumb ->]|(record & _ & _ & _ & ->)]]; [done|..].
  - apply persists_updateThumbnailPath.
  - apply persists_upsertMedia.
Qed.

Lemma process_keeps (rootDir thumbnailsDir : string) (db : Db)
    (thumbs : gset string) :
  let st := process rootDir thumbnailsDir db thumbs in
  (∀ r, r ∈ media db → persists r (st_db st))
  ∧ same_tags db (st_db st)
  ∧ thumbs ⊆ st_thumbs st.
Proof.
  cbn zeta. unfold Scanner.process.
  set (root := worker_rootDir absolutePath rootDir).
  set (files := listMediaFiles root thumbs).
  set (db1 := (markMissingFilesDeleted absolutePath files root db).1).
  set (st0 := {| st_db := db1; st_thumbs := thumbs; st_result := _ |}).
  assert (same_tags db
            (st_db (process_loop root
                      (worker_thumbnailsDir absolutePath rootDir thumbnailsDir)
                      (existingMediaMapForRoot absolutePath root db1)
                      0 files st0))) as Hsame.
  { apply (ScannerFacts.process_loop_invariant w (same_tags db));
      [|apply same_tags_markMissingFilesDeleted].
    intros f st _ Hst. eapply same_tags_trans; [exact Hst|].
    apply same_tags_process_file. }
  split_and!.
  - intros r Hr.
    apply (ScannerFacts.process_loop_invariant w (persists r)).
    + intros f st _. apply persists_process_file.
    + apply persists_markMissingFilesDeleted. by apply persists_refl.
  - apply Hsame.
  - apply (FirstScan.process_loop_thumbs_mono w _ _ _ files 0%nat st0).
Qed.

(** X21: a scan, finished or cancelled, never removes a media row and
    never changes the id, path, root directory or file name of one; it
    leaves the tags, the associations and so the tag list of every
    media untouched, and deletes no thumbnail. *)
Theorem scan_never_removes (rootDir thumbnailsDir : string) (db : Db)
    (thumbs : gset string) :
  let st := process rootDir thumbnailsDir db thumbs in
  (∀ r, r ∈ media db → persists r (st_db st))
  ∧ tags (st_db st) = tags db
  ∧ media_tags (st_db st) = media_tags db
  ∧ (∀ mediaId, getMediaTags mediaId (st_db st) = getMediaTags mediaId db)
  ∧ thumbs ⊆ st_thumbs st.
Proof.
  destruct (process_keeps rootDir thumbnailsDir db thumbs)
    as (Hkeep & Hsame & Hthumbs).
  cbn zeta. split_and!; [done|apply Hsame|apply Hsame| |done].
  intros m. by apply same_tags_getMediaTags.
Qed.

(** *** Cancellation *)

Lemma process_loop_prefix root tdir snap files idx st k :
  (k < length files)%nat →
  (∀ i, (i < k)%nat → cancelled_at w (idx + i) = false) →
  cancelled_at w (idx + k) = true →
  process_loop root tdir snap idx files st
  = foldl (λ s f, process_file root tdir snap f s) st (take k files).
Proof.
  revert idx st k. induction files as [|f rest IH]; intros idx st k Hk Hno Hc.
  - simpl in Hk. lia.
  - destruct k as [|k].
    + simpl. rewrite Nat.add_0_r in Hc. by rewrite Hc.
    + simpl. assert (cancelled_at w idx = false) as ->.
      { rewrite <- (Nat.add_0_r idx). apply Hno. lia. }
      apply IH.
      * simpl in Hk. lia.
      * intros i Hi. rewrite Nat.add_succ_l, <- Nat.add_succ_r.
        apply Hno. lia.
      * by rewrite Nat.add_succ_l, <- Nat.add_succ_r.
Qed.

Lemma foldl_process_file_scanned root tdir snap files st :
  scanned (st_result (foldl (λ s f, process_file root tdir snap f s) st files))
  = scanned (st_result st) + Z.of_nat (length files).
Proof.
  revert st. induction files as [|f rest IH]; intros st; simpl; [lia|].
  rewrite IH, (ScannerFacts.process_file_scanned w). lia.
Qed.

Lemma foldl_process_file_keeps_other root tdir snap files st r :
  r ∈ media (st_db st) → file_path r ∉ files →
  r ∈ media (st_db (foldl (λ s f, process_file root tdir snap f s) st files)).
Proof.
  revert st. induction files as [|f rest IH]; intros st Hr Hnot; [done|].
  apply not_elem_of_cons in Hnot as [Hne Hnot]. simpl.
  apply IH; [|done]. by apply (ScannerFacts.process_file_keeps_other w).
Qed.

(** X22: the loop of a scan stops at the first index at which the
    cancel flag reads true: exactly the files before that index are
    counted as scanned, and the rows of all other paths are as the
    soft-delete pass, which runs before the loop, left them. *)
Theorem scan_stops_at_cancellation (rootDir thumbnailsDir : string)
    (db : Db) (thumbs : gset string) (k : nat) :
  let root := worker_rootDir absolutePath rootDir in
  let files := listMediaFiles root thumbs in
  (k < length files)%nat →
  (∀ i, (i < k)%nat → cancelled_at w i = false) →
  cancelled_at w k = true →
  let st := process rootDir thumbnailsDir db thumbs in
  scanned (st_result st) = Z.of_nat k
  ∧ ∀ r, r ∈ media (markMissingFilesDeleted absolutePath files root db).1 →
         file_path r ∉ take k files → r ∈ media (st_db st).
Proof.
  cbn zeta. intros Hk Hno Hc. unfold Scanner.process.
  rewrite (process_loop_prefix _ _ _ _ 0%nat _ k); [|done|done|done].
  split.
  - rewrite foldl_process_file_scanned, length_take. simpl. lia.
  - intros r Hr Hnot. by apply foldl_process_file_keeps_other.
Qed.

(** *** The count of added or updated files *)





(** *** Files found again *)

Lemma active_row_upsertMedia record p db :
  active_row p db → active_row p (upsertMedia record db).1.
Proof.
  intros (r & Hr & Hp & Hact).
  destruct (DatabaseFacts.upsertMedia_cases record db)
    as [->|(path & root & name & _ & _ & _ & ->)]; [by exists r|].
  cbn [fst]. unfold insert_or_update_row. destruct (has_path _ _); simpl.
  - eexists. split; [apply list_elem_of_fmap_2, Hr|].
    by case_bool_decide.
  - exists r. split; [apply elem_of_app; by left|done].
Qed.

Lemma active_row_updateThumbnailPath path thumb p db :
  active_row p db → active_row p (updateThumbnailPath path thumb db).1.
Proof.
  intros (r & Hr & Hp & Hact). unfold updateThumbnailPath. cbn [fst].
  eexists. split; [simpl; apply list_elem_of_fmap_2, Hr|].
  by case_bool_decide.
Qed.

Lemma active_row_process_file root tdir snap f st p :
  active_row p (st_db st) →
  active_row p (st_db (process_file root tdir snap f st)).
Proof.
  destruct (ScannerFacts.process_file_db w root tdir snap f st)
    as [->|[[thumb ->]|(record & _ & _ & _ & ->)]]; [done|..].
  - apply active_row_updateThumbnailPath.
  - apply active_row_upsertMedia.
Qed.

Lemma active_row_of_upsert record db path root name :
  filePath record = Some path → rootDir record = Some root →
  fileName record = Some name →
  active_row path (upsertMedia record db).1.
Proof.
  intros Hpath Hroot Hname.
  destruct (ScannerFacts.upsertMedia_row record db path root name)
    as (r & Hr & Hp & _ & _ & Hact & _); [done..|].
  by exists r.
Qed.

(** After its iteration a file has an active row, provided the rows
    the snapshot was taken from are still active. *)
Lemma process_file_makes_active root tdir snap f st :
  (is_Some (snap !! f) → active_row f (st_db st)) →
  active_row f (st_db (process_file root tdir snap f st)).
Proof.
  intros Hsnap.
  assert (active_row f (st_db (process_full w root tdir f st))) as Hfull.
  { unfold process_full. cbn [st_db].
    destruct (ScannerFacts.full_record_filePath w root tdir f (st_thumbs st))
      as (H1 & H2 & H3).
    by eapply active_row_of_upsert. }
  unfold Scanner.process_file. destruct (raises w f) as [what|].
  { unfold process_error. cbn [st_db].
    by eapply active_row_of_upsert. }
  destruct (snap !! f) as [prev|]; [|done].
  specialize (Hsnap ltac:(by eexists)).
  destruct (unchanged_with_hash _ _ _); [|done].
  destruct (_ && _); [done|].
  unfold process_refresh.
  destruct (if isImageFile f then _ else _) as [thumbs created].
  destruct (_ && _); cbn [st_db]; [|done].
  by apply active_row_updateThumbnailPath.
Qed.

Lemma process_loop_makes_active root tdir snap files idx st f :
  (∀ i, cancelled_at w i = false) → f ∈ files →
  (∀ p, is_Some (snap !! p) → active_row p (st_db st)) →
  active_row f (st_db (process_loop root tdir snap idx files st)).
Proof.
  intros Hc. revert idx st.
  induction files as [|f0 rest IH]; intros idx st Hf Hsnap;
    [by apply elem_of_nil in Hf|].
  rewrite (ScannerFacts.process_loop_cons w) by done.
  destruct (decide (f = f0)) as [->|Hne].
  - apply (ScannerFacts.process_loop_invariant w (active_row f0)).
    + intros f' st' _. apply active_row_process_file.
    + apply process_file_makes_active, Hsnap.
  - apply elem_of_cons in Hf as [?|Hf]; [done|].
    apply IH; [done|].
    intros p Hp. by apply active_row_process_file, Hsnap.
Qed.

(** X24: after a scan that is not cancelled, every listed file that
    had a row before the scan, active or soft-deleted, has an active row
    under the same id, and the tags of that media are as before: a file
    that went missing and is found again comes back with its tags. *)
Theorem listed_file_is_active_after_scan (rootDir thumbnailsDir : string)
    (db : Db) (thumbs : gset string) (f : string) (r : MediaRow) :
  wf db → (∀ i, cancelled_at w i = false) →
  f ∈ listMediaFiles (worker_rootDir absolutePath rootDir) thumbs →
  r ∈ media db → file_path r = f →
  let st := process rootDir thumbnailsDir db thumbs in
  ∃ r', r' ∈ media (st_db st) ∧ id r' = id r ∧ file_path r' = f
        ∧ col_status r' = "active"
        ∧ getMediaTags (id r') (st_db st) = getMediaTags (id r) db.
Proof.
  intros Hwf Hc Hf Hr Hp. cbn zeta.
  pose proof (FirstScan.wf_process absolutePath w rootDir thumbnailsDir db
                thumbs Hwf) as Hwf'.
  destruct (process_keeps rootDir thumbnailsDir db thumbs)
    as (Hkeep & Hsame & _).
  pose proof (λ m, same_tags_getMediaTags _ _ m Hsame) as Htags.
  destruct (Hkeep r Hr) as (r1 & Hr1 & Hid1 & Hp1 & _).
  assert (active_row f (st_db (process rootDir thumbnailsDir db thumbs)))
    as (r2 & Hr2 & Hp2 & Hact).
  { unfold Scanner.process. apply process_loop_makes_active; [done|done|].
    intros p [e He]. cbn [st_db].
    apply Queries.existingMediaMapForRoot_Some in He
      as (r0 & Hr0 & Hp0 & _ & Hact0 & _).
    - by exists r0.
    - by apply DatabaseFacts.wf_markMissingFilesDeleted. }
  assert (r1 = r2) as <-.
  { apply (TagOps.key_inj file_path _ _ _ (wf_media_path _ Hwf'));
      [done|done|congruence]. }
  exists r1. split_and!; [done|done|congruence|done|].
  by rewrite Hid1, Htags.
Qed.

End worker.
End ScanEffects.

Module ScanEffectsWitnesses.
Import Database Scanner.

Lemma scan_stops_at_cancellation_witness :
  (1 < length (listMediaFiles Samples.same_path Samples.world_cancelled
                 (worker_rootDir Samples.same_path "/r") ∅))%nat
  ∧ (∀ i, (i < 1)%nat → cancelled_at Samples.world_cancelled i = false)
  ∧ cancelled_at Samples.world_cancelled 1 = true
  ∧ scanned (st_result (process Samples.same_path Samples.world_cancelled
                          "/r" "/t" open_new ∅))
    = Z.of_nat 1.
Proof.
  assert (1 < length (listMediaFiles Samples.same_path
                        Samples.world_cancelled
                        (worker_rootDir Samples.same_path "/r") ∅))%nat
    as Hk by (vm_compute; lia).
  assert (∀ i, (i < 1)%nat → cancelled_at Samples.world_cancelled i = false)
    as Hno.
  { intros i Hi. assert (i = 0%nat) as -> by lia. reflexivity. }
  split_and!; [exact Hk|exact Hno|reflexivity|].
  exact (proj1 (ScanEffects.scan_stops_at_cancellation Samples.same_path
                  Samples.world_cancelled "/r" "/t" open_new ∅ 1
                  Hk Hno eq_refl)).
Defined.


Lemma wf_db_a_z_deleted : wf Samples.db_a_z_deleted.
Proof.
  change Samples.db_a_z_deleted
    with (calls Samples.same_path
            [UpsertMedia Samples.rec_a; AddMediaTags 1 ["z"];
             MarkMissingFilesDeleted [] "/r"] open_new).
  apply StoreInvariant.calls_store_ok, StoreInvariant.store_ok_open_new.
Qed.

Lemma listed_file_is_active_after_scan_witness :
  wf Samples.db_a_z_deleted
  ∧ (∀ i, cancelled_at Samples.world_readable i = false)
  ∧ "/r/a.jpg" ∈ listMediaFiles Samples.same_path Samples.world_readable
                   (worker_rootDir Samples.same_path "/r") ∅
  ∧ Samples.row_a_deleted ∈ media Samples.db_a_z_deleted
  ∧ file_path Samples.row_a_deleted
    = "/r/a.jpg"
  ∧ ∃ r', r' ∈ media (st_db (process Samples.same_path
                               Samples.world_readable "/r" "/t"
                               Samples.db_a_z_deleted ∅))
          ∧ id r' = id Samples.row_a_deleted
          ∧ file_path r' = "/r/a.jpg"
          ∧ col_status r' = "active"
          ∧ getMediaTags (id r')
              (st_db (process Samples.same_path Samples.world_readable
                        "/r" "/t" Samples.db_a_z_deleted ∅))
            = getMediaTags
                (id Samples.row_a_deleted)
                Samples.db_a_z_deleted.
Proof.
  assert (∀ i, cancelled_at Samples.world_readable i = false) as Hc
    by reflexivity.
  assert ("/r/a.jpg" ∈ listMediaFiles Samples.same_path
                         Samples.world_readable
                         (worker_rootDir Samples.same_path "/r") ∅) as Hf
    by (apply (bool_decide_unpack _); vm_compute; exact I).
  assert (Samples.row_a_deleted ∈ media Samples.db_a_z_deleted) as Hr
    by (apply (bool_decide_unpack _); vm_compute; exact I).
  split_and!; [exact wf_db_a_z_deleted|exact Hc|exact Hf|exact Hr|reflexivity|].
  exact (ScanEffects.listed_file_is_active_after_scan Samples.same_path
           Samples.world_readable "/r" "/t" Samples.db_a_z_deleted ∅
           "/r/a.jpg" Samples.row_a_deleted
           wf_db_a_z_deleted Hc Hf Hr eq_refl).
Defined.

End ScanEffectsWitnesses.

(** ** A second run over the same files *)

Module Rescan.
Import Database Scanner.




Section worker.
Context (absolutePath : string → string) (w : World).

Local Abbreviation process_file := (Scanner.process_file w).
Local Abbreviation process_loop := (Scanner.process_loop w).
Local Abbreviation process := (Scanner.process absolutePath w).
Local Abbreviation listMediaFiles := (Scanner.listMediaFiles absolutePath w).

(** *** A settled file is passed over *)



(** *** A processed file is settled *)














(** *** The first run settles every file it lists *)









(** *** The loop over settled files *)





(** *** Two runs *)








End worker.

End Rescan.

Module RescanWitnesses.
Import Database Scanner.


End RescanWitnesses.

(** ** The thumbnail cache over any sequence of events *)

Module CacheInvariant.
Import ThumbnailCacheOps.

(** *** The LRU cache *)

Lemma without_length key (es : list ((Z * Z) * Pixmap)) :
  (length (QCache.without key es) ≤ length es)%nat.
Proof. unfold QCache.without. apply length_filter. Qed.

Lemma without_length_lt key p (es : list ((Z * Z) * Pixmap)) :
  (key, p) ∈ es → (length (QCache.without key es) < length es)%nat.
Proof.
  unfold QCache.without. induction es as [|e es IH]; intros Hin;
    [by apply elem_of_nil in Hin|].
  rewrite filter_cons. apply elem_of_cons in Hin as [<-|Hin].
  - rewrite decide_False by (simpl; tauto).
    pose proof (length_filter (λ e, e.1 ≠ key) es). simpl. lia.
  - specialize (IH Hin). case_decide; simpl; lia.
Qed.

Lemma without_keys key (es : list ((Z * Z) * Pixmap)) :
  NoDup es.*1 → NoDup (QCache.without key es).*1
                ∧ key ∉ (QCache.without key es).*1.
Proof.
  intros Hnd. split.
  - by apply NoDup_fmap_filter.
  - intros [e [-> [Hne _]%list_elem_of_filter]]%list_elem_of_fmap. done.
Qed.

Lemma trim_spec m (es : list ((Z * Z) * Pixmap)) :
  0 ≤ m →
  Z.of_nat (length (QCache.trim m es)) ≤ m
  ∧ QCache.trim m es `sublist_of` es.
Proof.
  intros Hm. unfold QCache.trim. case_bool_decide; [done|].
  split; [rewrite length_take; lia|apply sublist_take].
Qed.

Lemma lookup_elem_of key q p :
  QCache.lookup key q = Some p → (key, p) ∈ QCache.entries q.
Proof.
  unfold QCache.lookup. destruct (head _) as [[k p']|] eqn:E; [|done].
  intros [= <-].
  apply head_Some_elem_of, list_elem_of_filter in E as [Hk He].
  simpl in Hk. by subst k.
Qed.

Lemma lru_ok_object size key q :
  lru_ok size q → lru_ok size (QCache.object key q).1.
Proof.
  intros (Hmax & Hnd & Hlen & Hpix). unfold QCache.object.
  destruct (QCache.lookup key q) as [p|] eqn:E; [|done].
  apply lookup_elem_of in E. cbn [fst].
  destruct (without_keys key (QCache.entries q) Hnd) as [Hnd' Hfresh].
  pose proof (without_length_lt key p _ E) as Hlt.
  split_and!; [done| | |].
  - unfold QCache.keys. simpl. by apply NoDup_cons.
  - simpl. lia.
  - simpl. intros e [->|He%CacheFacts.without_subseteq]%elem_of_cons;
      [by apply (Hpix _ E)|by apply Hpix].
Qed.

Lemma lru_ok_insert size key p q :
  isNull p = false → lru_ok size q → lru_ok size (QCache.insert key p q).1.
Proof.
  intros Hp (Hmax & Hnd & Hlen & Hpix). unfold QCache.insert.
  case_bool_decide as Hsmall; cbn [fst].
  - destruct (without_keys key (QCache.entries q) Hnd) as [Hnd' _].
    pose proof (without_length key (QCache.entries q)).
    split_and!; [done|done|simpl; lia|].
    intros e He%CacheFacts.without_subseteq. by apply Hpix.
  - destruct (trim_spec (QCache.maxCost q - 1) (QCache.entries q))
      as [Htrim Hsub]; [lia|].
    set (es := QCache.trim (QCache.maxCost q - 1) (QCache.entries q)) in *.
    assert (NoDup es.*1) as Hnd1.
    { eapply sublist_NoDup; [exact Hnd|]. by apply fmap_sublist. }
    destruct (without_keys key es Hnd1) as [Hnd' Hfresh].
    pose proof (without_length key es).
    split_and!; [done| | |].
    + unfold QCache.keys. simpl. by apply NoDup_cons.
    + simpl. lia.
    + simpl. intros e [->|He%CacheFacts.without_subseteq]%elem_of_cons;
        [done|].
      apply Hpix. by eapply elem_of_sublist.
Qed.

Lemma lru_ok_clear size q : lru_ok size q → lru_ok size (QCache.clear q).
Proof.
  intros (Hmax & _). split_and!; [done|apply NoDup_nil_2|simpl; lia|].
  intros e He. by apply elem_of_nil in He.
Qed.

Lemma object_pixmap size key q p :
  lru_ok size q → (QCache.object key q).2 = Some p → isNull p = false.
Proof.
  intros (_ & _ & _ & Hpix). unfold QCache.object.
  destruct (QCache.lookup key q) as [p'|] eqn:E; [|done].
  intros [= <-]. apply lookup_elem_of in E. by apply (Hpix _ E).
Qed.

(** *** One event *)

Section with_files.
Context (file_exists decodes : string → bool).

Local Abbreviation step := (ThumbnailCacheOps.step file_exists decodes).
Local Abbreviation run := (ThumbnailCacheOps.run file_exists decodes).

Lemma elem_of_delete_other {A} (l : list A) (i : nat) (x y : A) :
  l !! i = Some x → y ∈ l → y ≠ x → y ∈ delete i l.
Proof.
  revert i. induction l as [|z l IH]; intros i Hi Hy Hne;
    [by apply elem_of_nil in Hy|].
  destruct i as [|i]; simpl in *.
  - injection Hi as ->. by apply elem_of_cons in Hy as [?|?].
  - apply elem_of_cons in Hy as [->|Hy]; [left|right; by eapply IH].
Qed.

Lemma cache_ok_new size : cache_ok size (new size).
Proof.
  split.
  - split_and!; [done|apply NoDup_nil_2|simpl; lia|].
    intros e He. by apply elem_of_nil in He.
  - intros m p Hin. by apply elem_of_nil in Hin.
  - intros m Hm. by apply not_elem_of_empty in Hm.
Qed.

Lemma cache_ok_getThumbnail size m path s c :
  cache_ok size c → cache_ok size (getThumbnail m path s c).1.
Proof.
  intros [Hlru Hl Hp]. unfold getThumbnail.
  pose proof (lru_ok_object size (cacheKey m s) _ Hlru) as Hobj.
  destruct (QCache.object _ _) as [q [cached|]]; by split.
Qed.

Lemma cache_ok_requestThumbnail size m path s c :
  cache_ok size c →
  cache_ok size (requestThumbnail file_exists m path s c).
Proof.
  intros [Hlru Hl Hp]. unfold requestThumbnail.
  destruct (QCache.contains _ _).
  - pose proof (lru_ok_object size (cacheKey m s) _ Hlru) as Hobj.
    pose proof (λ p, object_pixmap size (cacheKey m s) (m_cache c) p Hlru)
      as Hpix.
    destruct (QCache.object _ _) as [q [cached|]]; [|by split].
    split; [done| |done].
    intros m' p'. simpl. rewrite app_assoc, elem_of_app, list_elem_of_singleton.
    intros [?|[= -> ->]]; [by eapply Hl|]. by apply Hpix.
  - case_bool_decide; [by split|].
    destruct (_ || _).
    + split; [done| |done].
      intros m' p'. simpl. rewrite app_assoc, elem_of_app, list_elem_of_singleton.
      intros [?|?]; [by eapply Hl|done].
    + split; [done|done|]. simpl.
      intros m' [->%elem_of_singleton|Hm']%elem_of_union.
      * exists {| task_mediaId := m; task_path := path;
                  task_targetSize := s |}.
        split; [|reflexivity].
        apply elem_of_app. left. apply elem_of_app. right. left.
      * destruct (Hp m' Hm') as (t & Ht & Hid). exists t. split; [|done].
        apply elem_of_app in Ht as [?|?]; apply elem_of_app;
          [left; apply elem_of_app; by left|by right].
Qed.

Lemma cache_ok_onThumbnailLoaded size m s pix c :
  lru_ok size (m_cache c) →
  (∀ m' p, thumbnailLoaded m' p ∈ notifications c ++ posted c →
           isNull p = false) →
  (∀ m', m' ∈ m_pendingRequests c → m' ≠ m →
         ∃ t, t ∈ pool_queued c ++ pool_running c ∧ task_mediaId t = m') →
  cache_ok size (onThumbnailLoaded m s pix c).
Proof.
  intros Hlru Hl Hp. unfold onThumbnailLoaded.
  destruct (decide (m ∈ m_pendingRequests c)) as [Hpend|Hpend].
  2:{ rewrite bool_decide_eq_false_2 by done. simpl.
      split; [done|done|]. intros m' Hm'. apply Hp; [done|].
      intros ->. done. }
  rewrite bool_decide_eq_true_2 by done. simpl.
  assert (∀ m', m' ∈ m_pendingRequests c ∖ {[m]} →
                ∃ t, t ∈ pool_queued c ++ pool_running c
                     ∧ task_mediaId t = m') as Hp'.
  { intros m' [Hm' Hne]%elem_of_difference. apply Hp; [done|].
    intros ->. apply Hne. by apply elem_of_singleton. }
  destruct (isNull pix) eqn:Hnull; simpl.
  - split; [done| |done].
    intros m' p'. simpl. rewrite !elem_of_app, list_elem_of_singleton.
    intros [[?|?]|?]; [eapply Hl, elem_of_app; by left|done|
                       eapply Hl, elem_of_app; by right].
  - split; [by apply lru_ok_insert| |done].
    intros m' p'. simpl. rewrite !elem_of_app, list_elem_of_singleton.
    intros [[?|[= -> ->]]|?]; [eapply Hl, elem_of_app; by left|done|
                               eapply Hl, elem_of_app; by right].
Qed.

Lemma cache_ok_step size e c : cache_ok size c → cache_ok size (step e c).
Proof.
  intros Hok. destruct e; simpl.
  - by apply cache_ok_getThumbnail.
  - by apply cache_ok_requestThumbnail.
  - destruct Hok as [Hlru Hl Hp]. split; [done|done|].
    intros m Hm. by apply not_elem_of_empty in Hm.
  - destruct Hok as [Hlru Hl Hp]. split; [done|done|].
    intros m [Hm _]%elem_of_difference. by apply Hp.
  - destruct Hok as [Hlru Hl Hp]. split; [by apply lru_ok_clear|done|done].
  - destruct (pool_queued c !! i) as [t|] eqn:Hi; [|done].
    destruct Hok as [Hlru Hl Hp]. split; [done|done|]. simpl.
    intros m Hm. destruct (Hp m Hm) as (t' & Ht' & Hid). exists t'.
    split; [|done]. rewrite !elem_of_app in *.
    destruct Ht' as [Hq|?]; [|by right; left].
    destruct (decide (t' = t)) as [->|Hne]; [right; right; left|].
    left. by eapply elem_of_delete_other.
  - destruct (pool_running c !! i) as [t|] eqn:Hi; [|done].
    destruct Hok as [Hlru Hl Hp].
    apply cache_ok_onThumbnailLoaded; [done|done|]. simpl.
    intros m Hm Hne. destruct (Hp m Hm) as (t' & Ht' & Hid). exists t'.
    split; [|done]. rewrite !elem_of_app in *.
    destruct Ht' as [?|Hr]; [by left|right].
    eapply elem_of_delete_other; [done|done|]. intros ->. done.
  - destruct (posted c) as [|n rest] eqn:Hposted; [done|].
    destruct Hok as [Hlru Hl Hp]. split; [done| |done].
    intros m p. simpl. rewrite <- app_assoc. simpl. rewrite <- Hposted.
    apply Hl.
Qed.

Lemma cache_ok_run size trace c :
  cache_ok size c → cache_ok size (run trace c).
Proof.
  unfold ThumbnailCacheOps.run. revert c.
  induction trace as [|e trace IH]; intros c Hok; [done|].
  simpl. by apply IH, cache_ok_step.
Qed.

Lemma size_le_length (s : gset Z) (l : list ThumbnailLoadTask) :
  (∀ m, m ∈ s → ∃ t, t ∈ l ∧ task_mediaId t = m) →
  (size s ≤ length l)%nat.
Proof.
  intros Hs.
  assert (s ⊆ list_to_set (task_mediaId <$> l)) as Hsub.
  { intros m Hm. destruct (Hs m Hm) as (t & Ht & <-).
    apply elem_of_list_to_set. by apply list_elem_of_fmap_2. }
  apply subseteq_size in Hsub. etrans; [exact Hsub|].
  clear. induction l as [|t l IH].
  { change (size (∅ : gset Z) ≤ 0)%nat. by rewrite size_empty. }
  rewrite fmap_cons, list_to_set_cons, size_union_alt, size_singleton.
  cbn [length].
  match goal with
  | |- context [size (?X ∖ ?Y)] =>
      pose proof (subseteq_size (X ∖ Y) X
                    ltac:(apply subseteq_difference_l; reflexivity))
  end.
  lia.
Qed.

(** X25: whatever calls are made on a cache and whenever tasks start
    and deliver, the cache holds each (id, size) key at most once and
    never more entries than the capacity it was built with (none for a
    capacity below one), and it holds no null pixmap. *)
Theorem cache_never_exceeds_capacity (cacheSize : Z)
    (trace : list Event) :
  let c := run trace (new cacheSize) in
  NoDup (QCache.keys (m_cache c))
  ∧ 0 ≤ cacheCount c ≤ Z.max 0 cacheSize
  ∧ ∀ key p, QCache.lookup key (m_cache c) = Some p → isNull p = false.
Proof.
  destruct (cache_ok_run cacheSize trace _ (cache_ok_new cacheSize))
    as [(Hmax & Hnd & Hlen & Hpix) _ _].
  cbn zeta. unfold cacheCount. split_and!; [done|lia|done|].
  intros key p Hlook%lookup_elem_of. by apply (Hpix _ Hlook).
Qed.

(** X26: every id marked pending has a load task queued or running
    for it, so a pending request is never left without a task that will
    answer it; in particular there are never more pending ids than
    tasks in the pool. *)
Theorem pending_request_has_task (cacheSize : Z) (trace : list Event) :
  let c := run trace (new cacheSize) in
  (∀ m, m ∈ m_pendingRequests c →
        ∃ t, t ∈ pool_queued c ++ pool_running c ∧ task_mediaId t = m)
  ∧ pendingCount c ≤ Z.of_nat (length (pool_queued c ++ pool_running c)).
Proof.
  destruct (cache_ok_run cacheSize trace _ (cache_ok_new cacheSize))
    as [_ _ Hp].
  cbn zeta. split; [done|]. unfold pendingCount.
  apply inj_le. by apply size_le_length.
Qed.

(** X27: a [thumbnailLoaded] signal never carries a null pixmap,
    whether it answers a request from the cache or announces a
    delivery. *)
Theorem thumbnailLoaded_is_never_null (cacheSize : Z) (trace : list Event) :
  ∀ m p, thumbnailLoaded m p ∈ notifications (run trace (new cacheSize)) →
         isNull p = false.
Proof.
  destruct (cache_ok_run cacheSize trace _ (cache_ok_new cacheSize))
    as [_ Hl _].
  intros m p Hin. eapply Hl, elem_of_app. by left.
Qed.

(** *** A delivery and what follows *)




End with_files.
End CacheInvariant.

Module CacheInvariantWitnesses.
Import ThumbnailCacheOps.


Lemma thumbnailLoaded_is_never_null_witness :
  thumbnailLoaded 1 (Rendered "/t/aa.jpg" 128)
    ∈ notifications
        (run Samples.always Samples.always
           [CallRequestThumbnail 1 "/t/aa.jpg" 128; TaskStarts 0;
            TaskDelivers 0] (new 500))
  ∧ isNull (Rendered "/t/aa.jpg" 128) = false.
Proof.
  assert (thumbnailLoaded 1 (Rendered "/t/aa.jpg" 128)
            ∈ notifications
                (run Samples.always Samples.always
                   [CallRequestThumbnail 1 "/t/aa.jpg" 128; TaskStarts 0;
                    TaskDelivers 0] (new 500))) as Hin
    by (vm_compute; left).
  split; [exact Hin|].
  exact (CacheInvariant.thumbnailLoaded_is_never_null Samples.always
           Samples.always 500
           [CallRequestThumbnail 1 "/t/aa.jpg" 128; TaskStarts 0;
            TaskDelivers 0] 1 (Rendered "/t/aa.jpg" 128) Hin).
Defined.

End CacheInvariantWitnesses.

(** ** The gallery model *)

Module GalleryFacts.
Import Database GalleryModelOps.

Lemma index_fold_other (l : list MediaRecord) (k : nat) (m0 : gmap Z Z)
    (mediaId : Z) :
  mediaId ∉ rec_id <$> l →
  foldl (λ index ir, <[rec_id ir.2 := Z.of_nat ir.1]> index) m0
    (imap (λ i r, ((k + i)%nat, r)) l) !! mediaId
  = m0 !! mediaId.
Proof.
  revert k m0. induction l as [|r l IH]; intros k m0 Hnot; [done|].
  rewrite fmap_cons in Hnot. apply not_elem_of_cons in Hnot as [Hne Hnot].
  rewrite imap_cons. simpl.
  rewrite (imap_ext _ (λ i r, ((S k + i)%nat, r))).
  2:{ intros i x _. simpl. f_equal. lia. }
  rewrite IH by done. by rewrite lookup_insert_ne.
Qed.

Lemma index_fold_lookup (l : list MediaRecord) (k : nat) (m0 : gmap Z Z)
    (i : nat) (r : MediaRecord) :
  NoDup (rec_id <$> l) → l !! i = Some r →
  foldl (λ index ir, <[rec_id ir.2 := Z.of_nat ir.1]> index) m0
    (imap (λ i r, ((k + i)%nat, r)) l) !! rec_id r
  = Some (Z.of_nat (k + i)).
Proof.
  revert k m0 i. induction l as [|r0 l IH]; intros k m0 i Hnd Hi; [done|].
  rewrite fmap_cons in Hnd. apply NoDup_cons in Hnd as [Hfresh Hnd].
  rewrite imap_cons. simpl.
  rewrite (imap_ext _ (λ i r, ((S k + i)%nat, r))).
  2:{ intros j x _. simpl. f_equal. lia. }
  destruct i as [|i]; simpl in Hi.
  - injection Hi as ->. rewrite index_fold_other by done.
    rewrite lookup_insert_eq. apply (f_equal Some). simpl. lia.
  - rewrite (IH (S k) _ i) by done. apply (f_equal Some). lia.
Qed.

Lemma index_rows_ok (records : list MediaRecord) :
  NoDup (rec_id <$> records) →
  (∀ i r, records !! i = Some r →
          index_rows records !! rec_id r = Some (Z.of_nat i))
  ∧ ∀ mediaId, mediaId ∉ rec_id <$> records →
               index_rows records !! mediaId = None.
Proof.
  intros Hnd. unfold index_rows. split.
  - intros i r Hi.
    by rewrite (index_fold_lookup records 0 ∅ i r Hnd Hi).
  - intros mediaId Hnot.
    by rewrite (index_fold_other records 0 ∅ mediaId Hnot).
Qed.

(** *** Range selection *)

Lemma select_rows_fold (g : GalleryModel) (n i : nat) (s : gset Z) :
  foldl (λ s row, match record_at_row row g with
                  | Some r => {[rec_id r]} ∪ s
                  | None => s
                  end) s (seqZ (Z.of_nat i) (Z.of_nat n))
  = s ∪ list_to_set (rec_id <$> take n (drop i (m_records g))).
Proof.
  revert i s. induction n as [|n IH]; intros i s.
  - simpl. by rewrite (right_id_L (∅ : gset Z) (∪)).
  - rewrite seqZ_cons by lia. simpl.
    replace (Z.succ (Z.of_nat i)) with (Z.of_nat (S i)) by lia.
    replace (Z.pred (Z.of_nat (S n))) with (Z.of_nat n) by lia.
    rewrite IH. unfold record_at_row.
    rewrite bool_decide_eq_true_2 by lia. rewrite Nat2Z.id.
    destruct (m_records g !! i) as [r|] eqn:Hi.
    + rewrite (drop_S _ r i Hi). simpl.
      rewrite (comm_L (∪) {[rec_id r]} s), <- (assoc_L (∪)). done.
    + apply lookup_ge_None in Hi.
      rewrite !drop_ge by lia. by rewrite !take_nil.
Qed.

Lemma selectRange_rows (g : GalleryModel) (i j : nat) (ri rj : MediaRecord) :
  row_index_ok g → (i ≤ j)%nat →
  m_records g !! i = Some ri → m_records g !! j = Some rj →
  selectRange (rec_id ri) (rec_id rj) g
  = with_selectedIds
      (m_selectedIds g
       ∪ list_to_set (rec_id <$> take (S (j - i)) (drop i (m_records g)))) g
  ∧ selectRange (rec_id rj) (rec_id ri) g
    = with_selectedIds
        (m_selectedIds g
         ∪ list_to_set (rec_id <$> take (S (j - i)) (drop i (m_records g))))
        g.
Proof.
  intros [Hin _] Hij Hi Hj. unfold selectRange, rowForMediaId.
  rewrite (Hin i ri Hi), (Hin j rj Hj). simpl.
  rewrite !(bool_decide_eq_false_2 (_ < 0)) by lia. simpl.
  assert (select_rows (Z.of_nat i) (Z.of_nat j) g
          = m_selectedIds g
            ∪ list_to_set (rec_id <$> take (S (j - i)) (drop i (m_records g))))
    as Hsel.
  { unfold select_rows.
    replace (Z.of_nat j - Z.of_nat i + 1) with (Z.of_nat (S (j - i))) by lia.
    apply select_rows_fold. }
  split.
  - rewrite (bool_decide_eq_false_2 (_ < _)) by lia. by rewrite Hsel.
  - destruct (decide (i = j)) as [->|Hne].
    + rewrite (bool_decide_eq_false_2 (_ < _)) by lia. by rewrite Hsel.
    + rewrite (bool_decide_eq_true_2 (_ < _)) by lia. by rewrite Hsel.
Qed.

(** X30: [selectRange] adds to the selection the ids of the records
    at the rows from the row of one id to the row of the other, both
    included, whichever of the two comes first, and removes nothing;
    when one of the two ids is not among the records shown it does
    nothing. *)
Theorem selectRange_selects_rows_between (g : GalleryModel) (i j : nat)
    (ri rj : MediaRecord) :
  row_index_ok g → (i ≤ j)%nat →
  m_records g !! i = Some ri → m_records g !! j = Some rj →
  m_selectedIds (selectRange (rec_id ri) (rec_id rj) g)
  = m_selectedIds g
    ∪ list_to_set (rec_id <$> take (S (j - i)) (drop i (m_records g)))
  ∧ selectRange (rec_id rj) (rec_id ri) g
    = selectRange (rec_id ri) (rec_id rj) g
  ∧ ∀ mediaId other,
      mediaId ∉ rec_id <$> m_records g →
      selectRange mediaId other g = g ∧ selectRange other mediaId g = g.
Proof.
  intros Hidx Hij Hi Hj.
  destruct (selectRange_rows g i j ri rj Hidx Hij Hi Hj) as [-> ->].
  split_and!; [done|done|].
  intros mediaId other Hnot. destruct Hidx as [_ Hout].
  unfold selectRange, rowForMediaId. rewrite (Hout mediaId Hnot). simpl.
  split; [done|]. by rewrite orb_true_r.
Qed.

Section with_paths.
Context (absolutePath : string → string).

Lemma queryMedia_ids_NoDup tags search limit offset orderBy root all db :
  wf db →
  NoDup (rec_id <$> records (queryMedia absolutePath tags search limit offset
                               orderBy root all db)).
Proof.
  intros Hwf. unfold queryMedia. cbn [records].
  rewrite <- list_fmap_compose.
  change (rec_id ∘ record_of_row) with id.
  eapply sublist_NoDup;
    [|apply fmap_sublist, Queries.limit_offset_sublist].
  rewrite merge_sort_Permutation. apply NoDup_fmap_filter, Hwf.
Qed.

Lemma refresh_row_index_ok db cache g :
  wf db → row_index_ok (refresh absolutePath db cache g).1.
Proof.
  intros Hwf. unfold refresh, row_index_ok. cbn [fst m_records m_idToRow].
  by apply index_rows_ok, queryMedia_ids_NoDup.
Qed.

Lemma rowForMediaId_row g i r :
  row_index_ok g → m_records g !! i = Some r →
  rowForMediaId (rec_id r) g = Z.of_nat i
  ∧ getRecord (rec_id r) g = Some r.
Proof.
  intros [Hin _] Hi. unfold getRecord, record_at_row, rowForMediaId.
  rewrite (Hin i r Hi). simpl. split; [done|].
  rewrite !bool_decide_eq_true_2 by lia. by rewrite Nat2Z.id.
Qed.

Lemma rowForMediaId_absent g mediaId :
  row_index_ok g → mediaId ∉ rec_id <$> m_records g →
  rowForMediaId mediaId g = -1 ∧ getRecord mediaId g = None.
Proof.
  intros [_ Hout] Hnot. unfold getRecord, rowForMediaId.
  by rewrite (Hout mediaId Hnot).
Qed.

(** X29: after [refresh] the model shows at most 10000 records, never
    more than the total it reports; [rowForMediaId] gives for the id of
    each record the row it is at and [getRecord] that record, and for
    any other id -1 and nothing.  The selection is as before the
    refresh, and no thumbnail request is left pending or queued. *)
Theorem refresh_indexes_rows (db : Db) (cache : ThumbnailCache)
    (g : GalleryModel) :
  wf db →
  let g' := (refresh absolutePath db cache g).1 in
  let cache' := (refresh absolutePath db cache g).2 in
  (∀ i r, m_records g' !! i = Some r →
          rowForMediaId (rec_id r) g' = Z.of_nat i
          ∧ getRecord (rec_id r) g' = Some r)
  ∧ (∀ mediaId, mediaId ∉ rec_id <$> m_records g' →
                rowForMediaId mediaId g' = -1 ∧ getRecord mediaId g' = None)
  ∧ rowCount g' ≤ 10000
  ∧ rowCount g' ≤ m_totalCount g'
  ∧ m_selectedIds g' = m_selectedIds g
  ∧ m_pendingRequests cache' = ∅
  ∧ pool_queued cache' = [].
Proof.
  intros Hwf. cbn zeta.
  pose proof (refresh_row_index_ok db cache g Hwf) as Hidx.
  split_and!; [| | | |done|done|done].
  - intros i r. by apply rowForMediaId_row.
  - intros mediaId. by apply rowForMediaId_absent.
  - unfold refresh, rowCount, queryMedia. cbn [fst m_records records].
    rewrite length_fmap. apply Queries.limit_offset_length. lia.
  - unfold refresh, rowCount, queryMedia.
    cbn [fst m_records m_totalCount records totalCount].
    rewrite length_fmap.
    match goal with
    | |- context [limit_offset ?l ?o (merge_sort ?R ?x)] =>
        destruct (Queries.limit_offset_length l o (merge_sort R x))
          as [Hle _];
        pose proof (Permutation_length (merge_sort_Permutation R x)) as Hperm
    end.
    lia.
Qed.

End with_paths.
End GalleryFacts.

Module GalleryWitnesses.
Import Database GalleryModelOps.

Lemma refresh_indexes_rows_witness :
  wf Samples.db_abc
  ∧ rowCount (refresh Samples.same_path Samples.db_abc
                (ThumbnailCacheOps.new 500) new).1
    ≤ 10000.
Proof.
  split; [exact (ok_wf _ TagWitnesses.store_ok_db_abc)|].
  exact (proj1 (proj2 (proj2
           (GalleryFacts.refresh_indexes_rows Samples.same_path
              Samples.db_abc (ThumbnailCacheOps.new 500) new
              (ok_wf _ TagWitnesses.store_ok_db_abc))))).
Defined.

Lemma selectRange_selects_rows_between_witness :
  let g := (refresh Samples.same_path Samples.db_abc
              (ThumbnailCacheOps.new 500) new).1 in
  row_index_ok g
  ∧ (0 ≤ 1)%nat
  ∧ m_records g !! 0%nat = Some (stored 3 Samples.rec_c)
  ∧ m_records g !! 1%nat = Some (stored 2 Samples.rec_b)
  ∧ m_selectedIds (selectRange 3 2 g)
    = m_selectedIds g
      ∪ list_to_set (rec_id <$> take (S (1 - 0)) (drop 0 (m_records g))).
Proof.
  intros g.
  assert (row_index_ok g) as Hidx
    by apply GalleryFacts.refresh_row_index_ok,
         (ok_wf _ TagWitnesses.store_ok_db_abc).
  assert (m_records g !! 0%nat = Some (stored 3 Samples.rec_c)) as H0
    by (vm_compute; reflexivity).
  assert (m_records g !! 1%nat = Some (stored 2 Samples.rec_b)) as H1
    by (vm_compute; reflexivity).
  split_and!; [exact Hidx|lia|exact H0|exact H1|].
  exact (proj1 (GalleryFacts.selectRange_selects_rows_between g 0 1
                  (stored 3 Samples.rec_c) (stored 2 Samples.rec_b)
                  Hidx (le_S 0 0 (le_n 0)) H0 H1)).
Defined.

End GalleryWitnesses.
